(** * Linky TIC decoder (esp32/main/linky.cpp): shallow embedding and properties

    The decoder reads one captured UART buffer, finds one frame, finds the
    groups of the frame, splits every group into label, value and checksum,
    and stores the fields whose checksum agrees into the [LinkyData] record.

    Conventions of the embedding:
    - a [char] is an [ascii]; its numeric value is [code c], in [0, 255]
      ([char] is unsigned on the ESP32 toolchains, and the UART delivers
      7-bit data);
    - a [char] array is a [list ascii] of the array's length, a C string
      (the bytes before the first NUL) is a [string];
    - [unsigned int] and [unsigned long] are 32 bits wide (ILP32), written
      as [Z] with the wrap-around spelled out by [uint];
    - an access outside an array has no defined behaviour in C: the
      embedding stops with [Fault] there. *)

From Stdlib Require Import ZArith List String Ascii Bool Lia.
From Stdlib Require Import Permutation.
Import ListNotations.
Local Open Scope Z_scope.

(** ** Machine arithmetic *)

Definition UINT_MAX : Z := 4294967295.
Definition ULONG_MAX : Z := 4294967295.

(** Result of an [unsigned int] operation. *)
Definition uint (z : Z) : Z := z mod 4294967296.
Arguments uint : simpl never.

(** Result of an [int] operation on a two's complement machine. *)
Definition int (z : Z) : Z := (z + 2147483648) mod 4294967296 - 2147483648.

Definition code (c : ascii) : Z := Z.of_N (N_of_ascii c).

(** Conversion of an [int] to [char]. *)
Definition to_char (z : Z) : ascii := ascii_of_N (Z.to_N (z mod 256)).

Definition NUL : ascii := zero.

(** ** Executions that may leave the defined behaviour of C *)

Inductive exec (A : Type) : Type :=
| Fault : exec A
| Val (a : A) : exec A.
Arguments Fault {A}.
Arguments Val {A} a.

Definition bind {A B : Type} (m : exec A) (k : A -> exec B) : exec B :=
  match m with
  | Fault => Fault
  | Val a => k a
  end.

Notation "x <- m ;; k" := (bind m (fun x => k))
  (at level 61, m at next level, right associativity).

(** ** Linky::checksum

    [S1] is an [int].  A [char] enters the sum by its byte value; with a
    signed [char] a byte above 127 would enter 256 lower, which leaves the
    six low bits of the sum, and so the checksum, as they are. *)

Section Checksum.

Variable GROUP_SEPARATOR : ascii.

(** [for (i = 0; i < strlen(s); i++) S1 += s[i];] *)
Fixpoint add_chars (s : string) (S1 : Z) : Z :=
  match s with
  | EmptyString => S1
  | String c rest => add_chars rest (int (S1 + code c))
  end.

Definition checksum (label data : string) : ascii :=
  let S1 := add_chars label 0 in
  let S1 := int (S1 + code GROUP_SEPARATOR) in
  let S1 := add_chars data S1 in
  to_char (int (Z.land S1 0x3F + 0x20)).

End Checksum.

(** Sum of the byte values of the characters of a string. *)
Fixpoint byte_sum (s : string) : Z :=
  match s with
  | EmptyString => 0
  | String c rest => code c + byte_sum rest
  end.

(** ** Arrays *)

Definition len {A : Type} (a : list A) : Z := Z.of_nat (List.length a).
Arguments len : simpl never.

(** [a[i]] as an rvalue. *)
Definition load {A : Type} (a : list A) (i : Z) : exec A :=
  if i <? 0 then Fault
  else match nth_error a (Z.to_nat i) with
       | Some v => Val v
       | None => Fault
       end.

(** [a[i] = v]. *)
Definition store {A : Type} (a : list A) (i : Z) (v : A) : exec (list A) :=
  if (0 <=? i) && (i <? len a)
  then Val (firstn (Z.to_nat i) a ++ v :: skipn (Z.to_nat (i + 1)) a)
  else Fault.

(** [char a[n] = {0}]. *)
Definition zeros (n : nat) : list ascii := repeat NUL n.

(** [memcpy(dst, src + off, n)]: [n] is a [size_t], both ranges have to lie
    inside their arrays. *)
Definition memcpy (dst src : list ascii) (off n : Z) : exec (list ascii) :=
  if (0 <=? off) && (0 <=? n) && (n <=? len dst) && (off + n <=? len src)
  then Val (firstn (Z.to_nat n) (skipn (Z.to_nat off) src)
              ++ skipn (Z.to_nat n) dst)
  else Fault.

(** The C string held by a [char] array: the bytes before the first NUL.
    [strlen], [strcmp], [strcpy] and [strtoul] read the array up to that
    NUL, and leave it when there is none. *)
Fixpoint c_str (a : list ascii) : exec string :=
  match a with
  | [] => Fault
  | c :: rest =>
      if Ascii.eqb c NUL then Val EmptyString
      else s <- c_str rest ;; Val (String c s)
  end.

(** [strcpy(dst, src)] into a [char dst[size]] slot; the slot then holds
    the C string [src]. *)
Definition strcpy (size : Z) (src : string) : exec string :=
  if Z.of_nat (String.length src) <? size then Val src else Fault.

(** ** strtoul(s, NULL, 10) of the C library, for a 32-bit [unsigned long] *)

Definition isspace (c : ascii) : bool :=
  (code c =? 32) || ((9 <=? code c) && (code c <=? 13)).

Definition isdigit (c : ascii) : bool :=
  (48 <=? code c) && (code c <=? 57).

Fixpoint skip_spaces (s : string) : string :=
  match s with
  | String c rest => if isspace c then skip_spaces rest else s
  | EmptyString => s
  end.

(** Value of the longest leading digit sequence, continuing [acc]. *)
Fixpoint digits_value (s : string) (acc : Z) : Z :=
  match s with
  | String c rest =>
      if isdigit c then digits_value rest (acc * 10 + (code c - 48)) else acc
  | EmptyString => acc
  end.

Definition strtoul (s : string) : Z :=
  let s := skip_spaces s in
  let neg :=
    match s with
    | String c _ => Ascii.eqb c "-"
    | EmptyString => false
    end in
  let s :=
    match s with
    | String c rest =>
        if Ascii.eqb c "-" || Ascii.eqb c "+" then rest else s
    | EmptyString => s
    end in
  let v := digits_value s 0 in
  if ULONG_MAX <? v then ULONG_MAX
  else if neg then uint (- v) else v.

(** ** The decoded record

    [struct LinkyData] is declared in linky.h; its members are the ones
    that decode assigns.  The targets of [strtoul] are numbers, taken to
    hold an [unsigned long] unchanged; the targets of [strcpy] are [char]
    arrays, given by the C string they hold, whose sizes are fields of
    [linky_h] below. *)

Record LinkyData : Type := {
  ADCO : Z;
  OPTARIF : string;
  ISOUSC : Z;
  BASE : Z;
  HCHC : Z;
  HCHP : Z;
  PTEC : string;
  IINST : Z;
  IMAX : Z;
  PAPP : Z;
  HHPHC : string;
  MOTDETAT : string
}.

(** [data = {0}]. *)
Definition data_reset : LinkyData :=
  {| ADCO := 0; OPTARIF := ""; ISOUSC := 0; BASE := 0; HCHC := 0; HCHP := 0;
     PTEC := ""; IINST := 0; IMAX := 0; PAPP := 0; HHPHC := "";
     MOTDETAT := "" |}.

Definition set_ADCO (v : Z) (d : LinkyData) : LinkyData :=
  {| ADCO := v; OPTARIF := OPTARIF d; ISOUSC := ISOUSC d; BASE := BASE d;
     HCHC := HCHC d; HCHP := HCHP d; PTEC := PTEC d; IINST := IINST d;
     IMAX := IMAX d; PAPP := PAPP d; HHPHC := HHPHC d;
     MOTDETAT := MOTDETAT d |}.

Definition set_OPTARIF (v : string) (d : LinkyData) : LinkyData :=
  {| ADCO := ADCO d; OPTARIF := v; ISOUSC := ISOUSC d; BASE := BASE d;
     HCHC := HCHC d; HCHP := HCHP d; PTEC := PTEC d; IINST := IINST d;
     IMAX := IMAX d; PAPP := PAPP d; HHPHC := HHPHC d;
     MOTDETAT := MOTDETAT d |}.

Definition set_ISOUSC (v : Z) (d : LinkyData) : LinkyData :=
  {| ADCO := ADCO d; OPTARIF := OPTARIF d; ISOUSC := v; BASE := BASE d;
     HCHC := HCHC d; HCHP := HCHP d; PTEC := PTEC d; IINST := IINST d;
     IMAX := IMAX d; PAPP := PAPP d; HHPHC := HHPHC d;
     MOTDETAT := MOTDETAT d |}.

Definition set_BASE (v : Z) (d : LinkyData) : LinkyData :=
  {| ADCO := ADCO d; OPTARIF := OPTARIF d; ISOUSC := ISOUSC d; BASE := v;
     HCHC := HCHC d; HCHP := HCHP d; PTEC := PTEC d; IINST := IINST d;
     IMAX := IMAX d; PAPP := PAPP d; HHPHC := HHPHC d;
     MOTDETAT := MOTDETAT d |}.

Definition set_HCHC (v : Z) (d : LinkyData) : LinkyData :=
  {| ADCO := ADCO d; OPTARIF := OPTARIF d; ISOUSC := ISOUSC d; BASE := BASE d;
     HCHC := v; HCHP := HCHP d; PTEC := PTEC d; IINST := IINST d;
     IMAX := IMAX d; PAPP := PAPP d; HHPHC := HHPHC d;
     MOTDETAT := MOTDETAT d |}.

Definition set_HCHP (v : Z) (d : LinkyData) : LinkyData :=
  {| ADCO := ADCO d; OPTARIF := OPTARIF d; ISOUSC := ISOUSC d; BASE := BASE d;
     HCHC := HCHC d; HCHP := v; PTEC := PTEC d; IINST := IINST d;
     IMAX := IMAX d; PAPP := PAPP d; HHPHC := HHPHC d;
     MOTDETAT := MOTDETAT d |}.

Definition set_PTEC (v : string) (d : LinkyData) : LinkyData :=
  {| ADCO := ADCO d; OPTARIF := OPTARIF d; ISOUSC := ISOUSC d; BASE := BASE d;
     HCHC := HCHC d; HCHP := HCHP d; PTEC := v; IINST := IINST d;
     IMAX := IMAX d; PAPP := PAPP d; HHPHC := HHPHC d;
     MOTDETAT := MOTDETAT d |}.

Definition set_IINST (v : Z) (d : LinkyData) : LinkyData :=
  {| ADCO := ADCO d; OPTARIF := OPTARIF d; ISOUSC := ISOUSC d; BASE := BASE d;
     HCHC := HCHC d; HCHP := HCHP d; PTEC := PTEC d; IINST := v;
     IMAX := IMAX d; PAPP := PAPP d; HHPHC := HHPHC d;
     MOTDETAT := MOTDETAT d |}.

Definition set_IMAX (v : Z) (d : LinkyData) : LinkyData :=
  {| ADCO := ADCO d; OPTARIF := OPTARIF d; ISOUSC := ISOUSC d; BASE := BASE d;
     HCHC := HCHC d; HCHP := HCHP d; PTEC := PTEC d; IINST := IINST d;
     IMAX := v; PAPP := PAPP d; HHPHC := HHPHC d;
     MOTDETAT := MOTDETAT d |}.

Definition set_PAPP (v : Z) (d : LinkyData) : LinkyData :=
  {| ADCO := ADCO d; OPTARIF := OPTARIF d; ISOUSC := ISOUSC d; BASE := BASE d;
     HCHC := HCHC d; HCHP := HCHP d; PTEC := PTEC d; IINST := IINST d;
     IMAX := IMAX d; PAPP := v; HHPHC := HHPHC d;
     MOTDETAT := MOTDETAT d |}.

Definition set_HHPHC (v : string) (d : LinkyData) : LinkyData :=
  {| ADCO := ADCO d; OPTARIF := OPTARIF d; ISOUSC := ISOUSC d; BASE := BASE d;
     HCHC := HCHC d; HCHP := HCHP d; PTEC := PTEC d; IINST := IINST d;
     IMAX := IMAX d; PAPP := PAPP d; HHPHC := v;
     MOTDETAT := MOTDETAT d |}.

Definition set_MOTDETAT (v : string) (d : LinkyData) : LinkyData :=
  {| ADCO := ADCO d; OPTARIF := OPTARIF d; ISOUSC := ISOUSC d; BASE := BASE d;
     HCHC := HCHC d; HCHP := HCHP d; PTEC := PTEC d; IINST := IINST d;
     IMAX := IMAX d; PAPP := PAPP d; HHPHC := HHPHC d;
     MOTDETAT := v |}.

(** ** The constants and sizes of linky.h

    linky.cpp takes its marker bytes and its sizes from linky.h, which is
    not available: the decoder is embedded over these macros and over the
    sizes of the text slots of [LinkyData], as the fields of a record.
    [BUFFER_SIZE] is the length of the [buffer] list handed to [decode]. *)

Record linky_h : Type := {
  START_OF_FRAME : ascii;
  END_OF_FRAME : ascii;
  START_OF_GROUP : ascii;
  END_OF_GROUP : ascii;
  GROUP_SEPARATOR : ascii;
  FRAME_SIZE : Z;
  GROUP_COUNT : nat;
  sizeof_OPTARIF : Z;
  sizeof_PTEC : Z;
  sizeof_HHPHC : Z;
  sizeof_MOTDETAT : Z
}.

(** The index arrays and counters of the second step. *)
Record groups : Type := {
  startOfGroup : list Z;
  endOfGroup : list Z;
  startOfGroupIndex : Z;
  endOfGroupIndex : Z
}.

Section Decode.

Variable h : linky_h.

(** *** First step: the start and the end of the frame

    [i] is an [int], [startOfFrame] an [unsigned int]: the comparison
    [i > startOfFrame] is made on [unsigned int]. *)
Fixpoint find_frame (buffer : list ascii) (i : Z) (startOfFrame : Z)
  : Z * Z :=
  match buffer with
  | [] => (startOfFrame, UINT_MAX)
  | c :: rest =>
      if Ascii.eqb c (START_OF_FRAME h)
      then find_frame rest (i + 1) (uint i)
      else if Ascii.eqb c (END_OF_FRAME h) && (startOfFrame <? uint i)
           then (startOfFrame, uint i)
           else find_frame rest (i + 1) startOfFrame
  end.

(** *** Second step: the groups of the frame *)

(** [unsigned int a[GROUP_COUNT] = {UINT_MAX}]: the first cell is set,
    the others are zero. *)
Definition index_array : list Z :=
  match GROUP_COUNT h with
  | O => []
  | S n => UINT_MAX :: repeat 0 n
  end.

Definition groups_init : groups :=
  {| startOfGroup := index_array; endOfGroup := index_array;
     startOfGroupIndex := 0; endOfGroupIndex := 0 |}.

(** The [switch (frame[i])] of the loop body. *)
Definition scan_char (g : groups) (i : Z) (c : ascii) : exec groups :=
  if Ascii.eqb c (START_OF_GROUP h) then
    a <- store (startOfGroup g) (startOfGroupIndex g) i ;;
    Val {| startOfGroup := a; endOfGroup := endOfGroup g;
           startOfGroupIndex := uint (startOfGroupIndex g + 1);
           endOfGroupIndex := endOfGroupIndex g |}
  else if Ascii.eqb c (END_OF_GROUP h) then
    a <- store (endOfGroup g) (endOfGroupIndex g) i ;;
    Val {| startOfGroup := startOfGroup g; endOfGroup := a;
           startOfGroupIndex := startOfGroupIndex g;
           endOfGroupIndex := uint (endOfGroupIndex g + 1) |}
  else Val g.

(** The loop over [frame[0 .. FRAME_SIZE)], [cells] being these cells
    from [i] on. *)
Fixpoint find_groups (cells : list ascii) (i : Z) (g : groups)
  : exec groups :=
  match cells with
  | [] => Val g
  | c :: rest => g' <- scan_char g i c ;; find_groups rest (i + 1) g'
  end.

(** *** Third step: the fields of a group *)

(** The loop over [frame[startOfGroup[i] .. endOfGroup[i])], [cells]
    being these cells from [j] on. *)
Fixpoint find_separators (cells : list ascii) (j : Z)
    (separatorIndex : list Z) (s : Z) : exec (list Z) :=
  match cells with
  | [] => Val separatorIndex
  | c :: rest =>
      if Ascii.eqb c (GROUP_SEPARATOR h) then
        a <- store separatorIndex s j ;;
        find_separators rest (j + 1) a (s + 1)
      else find_separators rest (j + 1) separatorIndex s
  end.

(** *** Fourth step: the [strcmp] chain *)
Definition dispatch (label value : string) (data : LinkyData)
  : exec LinkyData :=
  if String.eqb label "ADCO" then Val (set_ADCO (strtoul value) data)
  else if String.eqb label "OPTARIF" then
    s <- strcpy (sizeof_OPTARIF h) value ;; Val (set_OPTARIF s data)
  else if String.eqb label "ISOUSC" then
    Val (set_ISOUSC (strtoul value) data)
  else if String.eqb label "BASE" then Val (set_BASE (strtoul value) data)
  else if String.eqb label "HCHC" then Val (set_HCHC (strtoul value) data)
  else if String.eqb label "HCHP" then Val (set_HCHP (strtoul value) data)
  else if String.eqb label "PTEC" then
    s <- strcpy (sizeof_PTEC h) value ;; Val (set_PTEC s data)
  else if String.eqb label "IINST" then
    Val (set_IINST (strtoul value) data)
  else if String.eqb label "IMAX" then Val (set_IMAX (strtoul value) data)
  else if String.eqb label "PAPP" then Val (set_PAPP (strtoul value) data)
  else if String.eqb label "HHPHC" then
    s <- strcpy (sizeof_HHPHC h) value ;; Val (set_HHPHC s data)
  else if String.eqb label "MOTDETAT" then
    s <- strcpy (sizeof_MOTDETAT h) value ;; Val (set_MOTDETAT s data)
  else Val data.

(** The cells [frame[from .. to)] visited by [for (j = from; j < to; j++)]
    with the comparison made on [unsigned int]. *)
Definition cells_between (frame : list ascii) (from to : Z) : list ascii :=
  firstn (Z.to_nat (to - from)) (skipn (Z.to_nat from) frame).

(** The body of the loop over the groups, for a group whose markers are at
    [startOfGroup_i] and [endOfGroup_i]; [size] is the number of cells of
    [separatorIndex]. *)
Definition decode_field (frame : list ascii) (startOfGroup_i endOfGroup_i : Z)
    (size : nat) (data : LinkyData) : exec LinkyData :=
  separatorIndex <-
    find_separators (cells_between frame startOfGroup_i endOfGroup_i)
      startOfGroup_i (repeat 0 size) 0 ;;
  separatorIndex_0 <- load separatorIndex 0 ;;
  separatorIndex_1 <- load separatorIndex 1 ;;
  label <- memcpy (zeros 10) frame (startOfGroup_i + 1)
             (uint (separatorIndex_0 - startOfGroup_i - 1)) ;;
  value <- memcpy (zeros 20) frame (separatorIndex_0 + 1)
             (uint (separatorIndex_1 - separatorIndex_0 - 1)) ;;
  checksum_ <- memcpy (zeros 5) frame (separatorIndex_1 + 1)
                 (uint (endOfGroup_i - separatorIndex_1 - 1)) ;;
  label_s <- c_str label ;;
  value_s <- c_str value ;;
  checksum_0 <- load checksum_ 0 ;;
  if Ascii.eqb (checksum (GROUP_SEPARATOR h) label_s value_s) checksum_0
  then dispatch label_s value_s data
  else Val data.

(** Group [i]: [separatorIndex] has [startOfGroupIndex + 1] cells. *)
Definition decode_group (frame : list ascii) (g : groups) (i : Z)
    (data : LinkyData) : exec LinkyData :=
  startOfGroup_i <- load (startOfGroup g) i ;;
  endOfGroup_i <- load (endOfGroup g) i ;;
  decode_field frame startOfGroup_i endOfGroup_i
    (Z.to_nat (uint (startOfGroupIndex g + 1))) data.

(** [for (int i = 0; i < startOfGroupIndex; i++)], [n] iterations left. *)
Fixpoint decode_groups (frame : list ascii) (g : groups) (n : nat) (i : Z)
    (data : LinkyData) : exec LinkyData :=
  match n with
  | O => Val data
  | S n' =>
      data' <- decode_group frame g i data ;;
      decode_groups frame g n' (i + 1) data'
  end.

(** *** Linky::decode *)

(** The second and third steps, on the extracted [frame]. *)
Definition decode_frame (frame : list ascii) : exec (Z * LinkyData) :=
  let data := data_reset in
  if 200 <? FRAME_SIZE h then Fault
  else
    g <- find_groups (firstn (Z.to_nat (FRAME_SIZE h)) frame) 0
           groups_init ;;
    startOfGroup_0 <- load (startOfGroup g) 0 ;;
    endOfGroup_0 <- load (endOfGroup g) 0 ;;
    if (startOfGroup_0 =? UINT_MAX) || (endOfGroup_0 =? UINT_MAX)
    then Val (0, data)
    else if negb (startOfGroupIndex g =? endOfGroupIndex g)
    then Val (0, data)
    else
      data' <- decode_groups frame g (Z.to_nat (startOfGroupIndex g)) 0
                 data ;;
      Val (1, data').

(** [buffer] is the array as [uart_read_bytes] left it and [rxBytes] the
    count that call returned; the count is only logged.  The result is
    the returned [char] and the record [data], which is cleared before
    the first step. *)
Definition decode (rxBytes : Z) (buffer : list ascii)
  : exec (Z * LinkyData) :=
  let data := data_reset in
  let '(startOfFrame, endOfFrame) := find_frame buffer 0 UINT_MAX in
  if (endOfFrame =? UINT_MAX) || (startOfFrame =? UINT_MAX)
     || (endOfFrame <? startOfFrame)
  then Val (0, data)
  else
    frame <- memcpy (zeros 200) buffer startOfFrame
               (uint (endOfFrame - startOfFrame)) ;;
    decode_frame frame.

End Decode.

(** Modelled from the spec: the delimiter bytes that linky.h defines, as
    section 8 of the specification assumes them for the historical mode
    (start and end of frame STX and ETX, start and end of group LF and CR,
    separator space).  The sizes are sample values, [FRAME_SIZE] being the
    size of [char frame[200]]: the theorems hold for every header, the
    examples are run on this one. *)
Definition historique : linky_h :=
  {| START_OF_FRAME := "002"; END_OF_FRAME := "003";
     START_OF_GROUP := "010"; END_OF_GROUP := "013";
     GROUP_SEPARATOR := " ";
     FRAME_SIZE := 200; GROUP_COUNT := 50;
     sizeof_OPTARIF := 5; sizeof_PTEC := 5; sizeof_HHPHC := 4;
     sizeof_MOTDETAT := 7 |}.

(** ** The layout of a frame on the wire *)

Section Layout.

Variable h : linky_h.

(** One group: start marker, content, end marker. *)
Definition group_bytes (content : list ascii) : list ascii :=
  START_OF_GROUP h :: content ++ [END_OF_GROUP h].

(** A frame up to its end marker: start marker, then the groups. *)
Definition frame_bytes (contents : list (list ascii)) : list ascii :=
  START_OF_FRAME h :: List.concat (map group_bytes contents).

(** The content of a group that carries a field: label, separator,
    value, separator, checksum byte. *)
Definition field_bytes (label value : string) (chk : ascii) : list ascii :=
  list_ascii_of_string label
    ++ GROUP_SEPARATOR h :: list_ascii_of_string value
    ++ [GROUP_SEPARATOR h; chk].

(** A buffer holding the frame after [pre]; [post] follows the end
    marker. *)
Definition buffer_of (pre : list ascii) (contents : list (list ascii))
    (post : list ascii) : list ascii :=
  pre ++ frame_bytes contents ++ END_OF_FRAME h :: post.

Definition is_marker (c : ascii) : bool :=
  Ascii.eqb c (START_OF_FRAME h) || Ascii.eqb c (END_OF_FRAME h)
  || Ascii.eqb c (START_OF_GROUP h) || Ascii.eqb c (END_OF_GROUP h).

(** A byte that can stand inside a label or a value: no marker, no
    separator, no NUL. *)
Definition text_char (c : ascii) : bool :=
  negb (is_marker c) && negb (Ascii.eqb c (GROUP_SEPARATOR h))
  && negb (Ascii.eqb c NUL).

Definition text (s : string) : bool :=
  forallb text_char (list_ascii_of_string s).

Definition differ (a b : ascii) : bool := negb (Ascii.eqb a b).

(** The five delimiters differ from each other and from NUL, and the
    group scan stays inside [char frame[200]]. *)
Definition header_ok : bool :=
  differ (START_OF_FRAME h) (END_OF_FRAME h)
  && differ (START_OF_FRAME h) (START_OF_GROUP h)
  && differ (START_OF_FRAME h) (END_OF_GROUP h)
  && differ (START_OF_FRAME h) (GROUP_SEPARATOR h)
  && differ (END_OF_FRAME h) (START_OF_GROUP h)
  && differ (END_OF_FRAME h) (END_OF_GROUP h)
  && differ (END_OF_FRAME h) (GROUP_SEPARATOR h)
  && differ (START_OF_GROUP h) (END_OF_GROUP h)
  && differ (START_OF_GROUP h) (GROUP_SEPARATOR h)
  && differ (END_OF_GROUP h) (GROUP_SEPARATOR h)
  && differ (START_OF_GROUP h) NUL
  && differ (END_OF_GROUP h) NUL
  && differ (GROUP_SEPARATOR h) NUL
  && (FRAME_SIZE h <=? 200)
  && (0 <? Z.of_nat (GROUP_COUNT h)).

End Layout.

(** Number of occurrences of a byte. *)
Fixpoint count (c : ascii) (l : list ascii) : nat :=
  match l with
  | [] => 0
  | x :: rest => (if Ascii.eqb x c then 1 else 0) + count c rest
  end.

(** [BUFFER_SIZE] is compared with an [int] counter. *)
Definition INT_MAX : Z := 2147483647.

(** No end marker follows a start marker inside [pre]. *)
Definition no_frame_in (h : linky_h) (pre : list ascii) : Prop :=
  forall p q, (p < q)%nat ->
              nth_error pre p = Some (START_OF_FRAME h) ->
              nth_error pre q <> Some (END_OF_FRAME h).

(** The index arrays keep their size, the counters are not negative. *)
Definition groups_wf (h : linky_h) (g : groups) : Prop :=
  List.length (startOfGroup g) = GROUP_COUNT h
  /\ List.length (endOfGroup g) = GROUP_COUNT h
  /\ 0 <= startOfGroupIndex g /\ 0 <= endOfGroupIndex g.

(** What [header_ok] gives. *)
Record header_facts (h : linky_h) : Prop := {
  stx_etx : START_OF_FRAME h <> END_OF_FRAME h;
  stx_lf : START_OF_FRAME h <> START_OF_GROUP h;
  stx_cr : START_OF_FRAME h <> END_OF_GROUP h;
  stx_sep : START_OF_FRAME h <> GROUP_SEPARATOR h;
  etx_lf : END_OF_FRAME h <> START_OF_GROUP h;
  etx_cr : END_OF_FRAME h <> END_OF_GROUP h;
  etx_sep : END_OF_FRAME h <> GROUP_SEPARATOR h;
  lf_cr : START_OF_GROUP h <> END_OF_GROUP h;
  lf_sep : START_OF_GROUP h <> GROUP_SEPARATOR h;
  cr_sep : END_OF_GROUP h <> GROUP_SEPARATOR h;
  lf_nul : START_OF_GROUP h <> NUL;
  cr_nul : END_OF_GROUP h <> NUL;
  sep_nul : GROUP_SEPARATOR h <> NUL;
  frame_size_200 : FRAME_SIZE h <= 200;
  group_count_pos : (0 < GROUP_COUNT h)%nat
}.

(** The index arrays after the entries [S] went in, and the state of the
    second step after the start indices [S] and the end indices [E]. *)
Definition filled (h : linky_h) (S : list Z) : list Z :=
  S ++ skipn (List.length S) (index_array h).

Definition groups_of (h : linky_h) (S E : list Z) : groups :=
  {| startOfGroup := filled h S; endOfGroup := filled h E;
     startOfGroupIndex := len S; endOfGroupIndex := len E |}.

(** Indices of the start and end markers of consecutive groups, the first
    group starting at [i]. *)
Fixpoint starts (i : Z) (contents : list (list ascii)) : list Z :=
  match contents with
  | [] => []
  | c :: rest => i :: starts (i + len c + 2) rest
  end.

Fixpoint ends (i : Z) (contents : list (list ascii)) : list Z :=
  match contents with
  | [] => []
  | c :: rest => (i + len c + 1) :: ends (i + len c + 2) rest
  end.

(** The bytes of a group content are no group markers; the bytes of the
    contents of a frame are no markers at all. *)
Definition group_plain (h : linky_h) (content : list ascii) : Prop :=
  ~ In (START_OF_GROUP h) content /\ ~ In (END_OF_GROUP h) content.

Definition frame_plain (h : linky_h) (contents : list (list ascii)) : Prop :=
  forall c, In c contents ->
            ~ In (START_OF_FRAME h) c /\ ~ In (END_OF_FRAME h) c
            /\ group_plain h c.

(** The array [frame] after the copy of a frame made of the groups
    [contents]. *)
Definition frame_of (h : linky_h) (contents : list (list ascii))
  : list ascii :=
  frame_bytes h contents
    ++ zeros (200 - List.length (frame_bytes h contents)).

(** What [memcpy] leaves in a zeroed array of [cap] cells when it copies
    the text [m]. *)
Definition copy (cap : nat) (m : list ascii) : exec (list ascii) :=
  if len m <=? Z.of_nat cap
  then Val (m ++ zeros (cap - List.length m))
  else Fault.

(** ** Fields and slots *)

(** A field on the wire: label, value and the checksum byte it carries. *)
Definition field : Type := (string * string * ascii)%type.

Definition field_content (h : linky_h) (f : field) : list ascii :=
  let '(label, value, chk) := f in field_bytes h label value chk.

(** The label and the value are texts that fit [label] and [value], the
    checksum byte is no marker. *)
Definition field_ok (h : linky_h) (f : field) : bool :=
  let '(label, value, chk) := f in
  text h label && text h value
  && (String.length label <=? 9)%nat && (String.length value <=? 19)%nat
  && negb (is_marker h chk).

(** Every group has two separators, or three when its checksum byte is
    the separator byte: they fit [separatorIndex], which has one cell more
    than the frame has groups. *)
Definition separators_fit (h : linky_h) (fields : list field) : bool :=
  forallb
    (fun f => (2 + count (GROUP_SEPARATOR h) [snd f]
               <=? S (List.length fields))%nat)
    fields.

(** The value fits the text slot that the label names, terminator
    included. *)
Definition slot_fits (h : linky_h) (label value : string) : bool :=
  let n := Z.of_nat (String.length value) in
  if String.eqb label "OPTARIF" then n <? sizeof_OPTARIF h
  else if String.eqb label "PTEC" then n <? sizeof_PTEC h
  else if String.eqb label "HHPHC" then n <? sizeof_HHPHC h
  else if String.eqb label "MOTDETAT" then n <? sizeof_MOTDETAT h
  else true.

(** The fourth step when the value fits its slot. *)
Definition assign (label value : string) (data : LinkyData) : LinkyData :=
  if String.eqb label "ADCO" then set_ADCO (strtoul value) data
  else if String.eqb label "OPTARIF" then set_OPTARIF value data
  else if String.eqb label "ISOUSC" then set_ISOUSC (strtoul value) data
  else if String.eqb label "BASE" then set_BASE (strtoul value) data
  else if String.eqb label "HCHC" then set_HCHC (strtoul value) data
  else if String.eqb label "HCHP" then set_HCHP (strtoul value) data
  else if String.eqb label "PTEC" then set_PTEC value data
  else if String.eqb label "IINST" then set_IINST (strtoul value) data
  else if String.eqb label "IMAX" then set_IMAX (strtoul value) data
  else if String.eqb label "PAPP" then set_PAPP (strtoul value) data
  else if String.eqb label "HHPHC" then set_HHPHC value data
  else if String.eqb label "MOTDETAT" then set_MOTDETAT value data
  else data.

(** What the loop body does with a field that fits: the checksum test,
    then the fourth step. *)
Definition store_field (h : linky_h) (data : LinkyData) (f : field)
  : LinkyData :=
  let '(label, value, chk) := f in
  if Ascii.eqb (checksum (GROUP_SEPARATOR h) label value) chk
  then assign label value data
  else data.

Definition store_fields (h : linky_h) (fields : list field)
    (data : LinkyData) : LinkyData :=
  fold_left (store_field h) fields data.

(** The content of a slot of the record, by the label of the slot. *)
Inductive slot_value : Type :=
| Number (n : Z)
| Text (s : string).

Definition slot (label : string) (data : LinkyData) : option slot_value :=
  if String.eqb label "ADCO" then Some (Number (ADCO data))
  else if String.eqb label "OPTARIF" then Some (Text (OPTARIF data))
  else if String.eqb label "ISOUSC" then Some (Number (ISOUSC data))
  else if String.eqb label "BASE" then Some (Number (BASE data))
  else if String.eqb label "HCHC" then Some (Number (HCHC data))
  else if String.eqb label "HCHP" then Some (Number (HCHP data))
  else if String.eqb label "PTEC" then Some (Text (PTEC data))
  else if String.eqb label "IINST" then Some (Number (IINST data))
  else if String.eqb label "IMAX" then Some (Number (IMAX data))
  else if String.eqb label "PAPP" then Some (Number (PAPP data))
  else if String.eqb label "HHPHC" then Some (Text (HHPHC data))
  else if String.eqb label "MOTDETAT" then Some (Text (MOTDETAT data))
  else None.

Definition numeric_labels : list string :=
  ["ADCO"; "ISOUSC"; "BASE"; "HCHC"; "HCHP"; "IINST"; "IMAX"; "PAPP"]%string.

Definition text_labels : list string :=
  ["OPTARIF"; "PTEC"; "HHPHC"; "MOTDETAT"]%string.

Definition is_numeric (label : string) : bool :=
  existsb (String.eqb label) numeric_labels.

Definition is_known (label : string) : bool :=
  existsb (String.eqb label) (numeric_labels ++ text_labels).

(** The base-10 value of a string of digits, by the weight of each
    place. *)
Fixpoint decimal (s : string) : Z :=
  match s with
  | EmptyString => 0
  | String c rest =>
      (code c - 48) * 10 ^ Z.of_nat (String.length rest) + decimal rest
  end.

Fixpoint all_digits (s : string) : bool :=
  match s with
  | EmptyString => true
  | String c rest => isdigit c && all_digits rest
  end.

(** The longest leading digit sequence of a string. *)
Fixpoint leading_digits (s : string) : string :=
  match s with
  | String c rest =>
      if isdigit c then String c (leading_digits rest) else EmptyString
  | EmptyString => EmptyString
  end.


(** What the fourth step puts into the slot of a label. *)
Definition stored (label value : string) : slot_value :=
  if is_numeric label then Number (strtoul value) else Text value.

(** A field that fits the arrays of the third step and its slot. *)
Definition fits (h : linky_h) (f : field) : bool :=
  field_ok h f && slot_fits h (fst (fst f)) (snd (fst f)).

(** The text does not begin with white space or with a sign. *)
Definition unsigned_start (s : string) : bool :=
  match s with
  | String c _ =>
      negb (isspace c) && negb (Ascii.eqb c "-") && negb (Ascii.eqb c "+")
  | EmptyString => true
  end.

Definition label_of (f : field) : string := fst (fst f).

(** A label and a value with the checksum byte that belongs to them. *)
Definition checked (h : linky_h) (p : string * string) : field :=
  (fst p, snd p, checksum (GROUP_SEPARATOR h) (fst p) (snd p)).


(** ** Example frames *)

(** A buffer of the historical mode holding one frame made of [fields]. *)
Definition tic_buffer (fields : list field) : list ascii :=
  buffer_of historique [] (map (field_content historique) fields) [].


Definition papp_field : list (string * string) := [("PAPP", "00750")]%string.


Definition optarif_field : list (string * string) :=
  [("OPTARIF", "BASE")]%string.

(** A group without separator, a group with a label of twelve bytes, and
    the frames that hold one of them before a valid field. *)
Definition bare_group : list ascii := list_ascii_of_string "BASE12".

Definition long_label : list ascii := list_ascii_of_string "ABCDEFGHIJKL".

Definition frame_with (content : list ascii) : list (list ascii) :=
  [content; field_content historique (checked historique ("OPTARIF", "BASE")%string)].

(** A frame of [n] start-of-group markers and nothing else; a frame with
    a label of nine bytes; a frame with a value of 21 bytes. *)
Definition starts_only (n : nat) : list ascii :=
  START_OF_FRAME historique
    :: repeat (START_OF_GROUP historique) n ++ [END_OF_FRAME historique].

Definition nine_byte_label : list ascii :=
  list_ascii_of_string "ABCDEFGHI 1 X".

Definition long_value : list ascii :=
  list_ascii_of_string "PAPP 123456789012345678901 X".

(** Numeric fields whose value text is not a number an [unsigned long]
    holds. *)
Definition odd_numbers : list (string * string) :=
  [("BASE", "99999999999"); ("PAPP", "+5"); ("IINST", "12A")]%string.

(** A text that a zeroed array of [cap] cells cannot hold as a C string:
    it is longer than the array, or fills it and leaves no cell for the
    terminating NUL. *)
Definition overruns (cap : nat) (m : list ascii) : Prop :=
  (cap < List.length m)%nat \/ (List.length m = cap /\ ~ In NUL m).


(** ** Linky::read and Linky::update

    The whole body of [read] is commented out in the source: the call
    leaves [buffer] as it is.  [update] calls [read], then tests the
    [char] that decode returns. *)
Definition read (buffer : list ascii) : list ascii := buffer.

Definition update (h : linky_h) (rxBytes : Z) (buffer : list ascii)
  : exec (Z * LinkyData) :=
  let buffer := read buffer in
  r <- decode h rxBytes buffer ;;
  if negb (fst r =? 0) then Val (1, snd r) else Val (0, snd r).

(** The field carries the checksum byte of its label and value. *)
Definition carries_checksum (h : linky_h) (f : field) : bool :=
  let '(label, value, chk) := f in
  Ascii.eqb (checksum (GROUP_SEPARATOR h) label value) chk.

(** A field whose label and value fit [label] and [value] and that
    carries its checksum, the value being too long for the text slot that
    the label names. *)
Definition overflows_slot (h : linky_h) (f : field) : bool :=
  field_ok h f && carries_checksum h f
  && negb (slot_fits h (fst (fst f)) (snd (fst f))).

(** ** More example frames *)

(** A frame that repeats a label, the last PAPP field carrying a wrong
    checksum byte. *)
Definition papp_repeated : list field :=
  [checked historique ("PAPP", "00750")%string;
   checked historique ("IINST", "003")%string].

Definition papp_stale : list field :=
  [("PAPP"%string, "00770"%string, "!"%char)].

(** Fields whose labels are none of the twelve names. *)
Definition unknown_labels : list (string * string) :=
  [("FOOBAR", "123"); ("papp", "00750")]%string.

(** A field whose checksum byte is the space, and a text value of five
    bytes for a slot of five cells. *)
Definition space_checksum : field :=
  checked historique ("PAPP", "000159")%string.

Definition optarif_long : field :=
  checked historique ("OPTARIF", "BASE1")%string.

(** A frame body of 200 bytes, and one of 51 empty groups. *)
Definition long_body : list ascii := repeat "A"%char 200.

Definition crowded_body : list ascii :=
  List.concat (repeat ["010"; "013"]%char 51).

(** * Wi-Fi station (wifi.cpp)

    The functions of wifi.cpp drive ESP-IDF and FreeRTOS.  The embedding
    keeps the variables of the file in a record, lists the calls into the
    SDK in the order in which the code makes them, and takes what the SDK
    answers as an argument.  Logging, and the two heap queries that are
    only logged, are left out. *)

Definition ESP_MAXIMUM_RETRY : Z := 3.

(** [BIT0] and [BIT1]. *)
Definition WIFI_CONNECTED_BIT : Z := 1.
Definition WIFI_FAIL_BIT : Z := 2.

(** [esp_err_t] is an [int], [ESP_OK] is 0. *)
Definition ESP_OK : Z := 0.

(** [wifi_connected], [s_retry_num], and the bits of the event group
    [s_wifi_event_group]. *)
Record wifi_state : Type := {
  wifi_connected : Z;
  s_retry_num : Z;
  event_bits : Z
}.

Inductive esp_event_base_t : Type :=
| WIFI_EVENT
| IP_EVENT
| other_event_base.

Inductive wifi_ps_type_t : Type :=
| WIFI_PS_NONE
| WIFI_PS_MAX_MODEM.

Inductive sdk_call : Type :=
| xTaskCreate_gpio_led_task_wifi_connecting
| esp_wifi_set_ps (mode : wifi_ps_type_t)
| xEventGroupCreate
| esp_netif_init
| esp_event_loop_create_default
| esp_netif_create_default_wifi_sta
| esp_wifi_init
| esp_event_handler_instance_register (event_base : esp_event_base_t)
| esp_wifi_set_mode_STA
| esp_wifi_set_config
| esp_wifi_start
| xEventGroupWaitBits
| esp_event_handler_instance_unregister (event_base : esp_event_base_t)
| esp_wifi_disconnect
| esp_wifi_stop
| esp_wifi_deinit
| vEventGroupDelete
| esp_event_loop_delete_default
| esp_wifi_clear_default_wifi_driver_and_handlers
| esp_netif_destroy
| esp_wifi_connect
| xEventGroupSetBits (bits : Z)
| gpio_start_led_pattern_WIFI_FAILED.

(** ** wifi_disconnect

    The error codes of the calls are logged and not used. *)

Definition teardown : list sdk_call :=
  [ esp_event_handler_instance_unregister IP_EVENT;
    esp_event_handler_instance_unregister WIFI_EVENT;
    esp_wifi_disconnect; esp_wifi_stop; esp_wifi_deinit;
    vEventGroupDelete; esp_event_loop_delete_default;
    esp_wifi_clear_default_wifi_driver_and_handlers;
    esp_netif_destroy; esp_wifi_set_ps WIFI_PS_MAX_MODEM ].

Definition wifi_disconnect (st : wifi_state) : wifi_state * list sdk_call :=
  if wifi_connected st =? 0 then (st, [])
  else ({| wifi_connected := 0; s_retry_num := s_retry_num st;
           event_bits := event_bits st |}, teardown).

(** ** wifi_event_handler

    The identifiers of the events are enumerators of ESP-IDF.  The two
    branches for the access point events only log, like the final
    [else]; [s_retry_num] is an [int]. *)

Record esp_event_ids : Type := {
  WIFI_EVENT_STA_START : Z;
  WIFI_EVENT_STA_DISCONNECTED : Z;
  WIFI_EVENT_STA_CONNECTED : Z;
  IP_EVENT_STA_GOT_IP : Z
}.

Definition is_WIFI_EVENT (b : esp_event_base_t) : bool :=
  match b with WIFI_EVENT => true | _ => false end.

Definition is_IP_EVENT (b : esp_event_base_t) : bool :=
  match b with IP_EVENT => true | _ => false end.

Definition wifi_event_handler (ids : esp_event_ids) (st : wifi_state)
    (event_base : esp_event_base_t) (event_id : Z)
  : wifi_state * list sdk_call :=
  if is_WIFI_EVENT event_base && (event_id =? WIFI_EVENT_STA_START ids) then
    ({| wifi_connected := 0; s_retry_num := s_retry_num st;
        event_bits := event_bits st |},
     [esp_wifi_connect])
  else if is_WIFI_EVENT event_base
          && (event_id =? WIFI_EVENT_STA_DISCONNECTED ids) then
    if s_retry_num st <? ESP_MAXIMUM_RETRY then
      ({| wifi_connected := 0; s_retry_num := int (s_retry_num st + 1);
          event_bits := event_bits st |},
       [esp_wifi_connect])
    else
      ({| wifi_connected := 0; s_retry_num := s_retry_num st;
          event_bits := Z.lor (event_bits st) WIFI_FAIL_BIT |},
       [xEventGroupSetBits WIFI_FAIL_BIT; gpio_start_led_pattern_WIFI_FAILED])
  else if is_WIFI_EVENT event_base
          && (event_id =? WIFI_EVENT_STA_CONNECTED ids) then
    ({| wifi_connected := 1; s_retry_num := s_retry_num st;
        event_bits := event_bits st |}, [])
  else if is_IP_EVENT event_base && (event_id =? IP_EVENT_STA_GOT_IP ids) then
    ({| wifi_connected := 1; s_retry_num := 0;
        event_bits := Z.lor (event_bits st) WIFI_CONNECTED_BIT |},
     [xEventGroupSetBits WIFI_CONNECTED_BIT])
  else (st, []).

(** The handler called for the events of a list, one after the other, as
    the event loop task does. *)
Fixpoint handle_events (ids : esp_event_ids) (st : wifi_state)
    (events : list (esp_event_base_t * Z)) : wifi_state * list sdk_call :=
  match events with
  | [] => (st, [])
  | (event_base, event_id) :: rest =>
      let '(st1, calls1) := wifi_event_handler ids st event_base event_id in
      let '(st2, calls2) := handle_events ids st1 rest in
      (st2, calls1 ++ calls2)
  end.

(** [n] disconnections of the station, one after the other. *)
Definition disconnections (ids : esp_event_ids) (n : nat)
  : list (esp_event_base_t * Z) :=
  repeat (WIFI_EVENT, WIFI_EVENT_STA_DISCONNECTED ids) n.

Definition is_esp_wifi_connect (c : sdk_call) : bool :=
  match c with esp_wifi_connect => true | _ => false end.

(** The calls that [wifi_disconnect] makes. *)
Definition is_teardown_call (c : sdk_call) : bool :=
  match c with
  | esp_event_handler_instance_unregister _ | esp_wifi_disconnect
  | esp_wifi_stop | esp_wifi_deinit | vEventGroupDelete
  | esp_event_loop_delete_default
  | esp_wifi_clear_default_wifi_driver_and_handlers | esp_netif_destroy
  | esp_wifi_set_ps WIFI_PS_MAX_MODEM =>
      true
  | _ => false
  end.

(** None of the calls undoes the set-up. *)
Definition no_teardown (calls : list sdk_call) : bool :=
  forallb (fun c => negb (is_teardown_call c)) calls.

Definition has_bit (bits bit : Z) : bool := negb (Z.land bits bit =? 0).

(** ** wifi_connect

    What the SDK answers during one call: the two strings of
    [config_values], the error code of each call whose code is tested, and
    for every return of [xEventGroupWaitBits] the variables of the file as
    the event task has left them by then, the returned bits being the bits
    of the event group. *)
Record sdk_answers : Type := {
  ssid : string;
  password : string;
  netif_init_err : Z;
  event_loop_create_default_err : Z;
  wifi_init_err : Z;
  register_any_id_err : Z;
  register_got_ip_err : Z;
  set_mode_err : Z;
  set_config_err : Z;
  wifi_start_err : Z;
  waits : list wifi_state
}.

(** [wifi_connected = 2; wifi_disconnect(); return 0;] *)
Definition connect_error (st : wifi_state) (calls : list sdk_call)
  : option (Z * wifi_state * list sdk_call) :=
  let st := {| wifi_connected := 2; s_retry_num := s_retry_num st;
               event_bits := event_bits st |} in
  let '(st, calls') := wifi_disconnect st in
  Some (0, st, calls ++ calls').

(** The code from the label [retry] on; [None] when every wait of the
    list has timed out, the code being at [goto retry] again. *)
Fixpoint wait_for_bits (waits : list wifi_state) (calls : list sdk_call)
  : option (Z * wifi_state * list sdk_call) :=
  match waits with
  | [] => None
  | st :: rest =>
      let bits := event_bits st in
      let calls := calls ++ [xEventGroupWaitBits] in
      if has_bit bits WIFI_CONNECTED_BIT then Some (1, st, calls)
      else if has_bit bits WIFI_FAIL_BIT then
        let '(st, calls') := wifi_disconnect st in
        Some (0, st, calls ++ calls')
      else wait_for_bits rest calls
  end.

Definition wifi_connect (env : sdk_answers) (st : wifi_state)
  : option (Z * wifi_state * list sdk_call) :=
  if negb (wifi_connected st =? 0) then Some (1, st, [])
  else if (String.length (ssid env) =? 0)%nat
          || (String.length (password env) =? 0)%nat
  then Some (0, st, [])
  else
    let calls := [xTaskCreate_gpio_led_task_wifi_connecting] in
    let st := {| wifi_connected := wifi_connected st; s_retry_num := 0;
                 event_bits := event_bits st |} in
    let calls := calls ++ [esp_wifi_set_ps WIFI_PS_NONE] in
    let st := {| wifi_connected := wifi_connected st;
                 s_retry_num := s_retry_num st; event_bits := 0 |} in
    let calls := calls ++ [xEventGroupCreate] in
    let calls := calls ++ [esp_netif_init] in
    if negb (netif_init_err env =? ESP_OK) then connect_error st calls
    else
    let calls := calls ++ [esp_event_loop_create_default] in
    if negb (event_loop_create_default_err env =? ESP_OK)
    then connect_error st calls
    else
    let calls := calls ++ [esp_netif_create_default_wifi_sta] in
    let calls := calls ++ [esp_wifi_init] in
    if negb (wifi_init_err env =? ESP_OK) then connect_error st calls
    else
    let calls := calls ++ [esp_event_handler_instance_register WIFI_EVENT] in
    if negb (register_any_id_err env =? ESP_OK) then connect_error st calls
    else
    let calls := calls ++ [esp_event_handler_instance_register IP_EVENT] in
    if negb (register_got_ip_err env =? ESP_OK) then connect_error st calls
    else
    let calls := calls ++ [esp_wifi_set_mode_STA] in
    if negb (set_mode_err env =? ESP_OK) then connect_error st calls
    else
    let calls := calls ++ [esp_wifi_set_config] in
    if negb (set_config_err env =? ESP_OK) then connect_error st calls
    else
    let calls := calls ++ [esp_wifi_start] in
    if negb (wifi_start_err env =? ESP_OK) then connect_error st calls
    else wait_for_bits (waits env) calls.

(** Every tested call of [wifi_connect] answers [ESP_OK]. *)
Definition answers_ok (env : sdk_answers) : bool :=
  (netif_init_err env =? ESP_OK)
  && (event_loop_create_default_err env =? ESP_OK)
  && (wifi_init_err env =? ESP_OK)
  && (register_any_id_err env =? ESP_OK)
  && (register_got_ip_err env =? ESP_OK)
  && (set_mode_err env =? ESP_OK)
  && (set_config_err env =? ESP_OK)
  && (wifi_start_err env =? ESP_OK).

Definition has_credentials (env : sdk_answers) : bool :=
  negb (String.length (ssid env) =? 0)%nat
  && negb (String.length (password env) =? 0)%nat.

(** The calls of [wifi_connect] up to [esp_wifi_start]. *)
Definition setup : list sdk_call :=
  [ xTaskCreate_gpio_led_task_wifi_connecting; esp_wifi_set_ps WIFI_PS_NONE;
    xEventGroupCreate; esp_netif_init; esp_event_loop_create_default;
    esp_netif_create_default_wifi_sta; esp_wifi_init;
    esp_event_handler_instance_register WIFI_EVENT;
    esp_event_handler_instance_register IP_EVENT;
    esp_wifi_set_mode_STA; esp_wifi_set_config; esp_wifi_start ].

(** A wait that times out: none of the two bits is set. *)
Definition timed_out (st : wifi_state) : bool :=
  negb (has_bit (event_bits st) WIFI_CONNECTED_BIT)
  && negb (has_bit (event_bits st) WIFI_FAIL_BIT).

(** ** stop_captive_portal_task

    [low] holds the outcome of the test [gpio_get_vusb() < 3] for the
    successive turns of the loop, [readCount] is a [uint8_t].  The result
    is the number of readings made when [esp_restart] is called, which
    does not return; [None] when the task is still looping after the
    readings of the list. *)
Fixpoint stop_captive_portal_task (low : list bool) (readCount : Z)
  : option nat :=
  match low with
  | [] => None
  | b :: rest =>
      let readCount := if b then (readCount + 1) mod 256 else 0 in
      if 3 <? readCount then Some 1%nat
      else option_map S (stop_captive_portal_task rest readCount)
  end.

(** ** Sample answers *)

(** The enumerators as ESP-IDF 5 numbers them. *)
Definition esp_idf_ids : esp_event_ids :=
  {| WIFI_EVENT_STA_START := 2; WIFI_EVENT_STA_DISCONNECTED := 5;
     WIFI_EVENT_STA_CONNECTED := 4; IP_EVENT_STA_GOT_IP := 0 |}.

Definition idle : wifi_state :=
  {| wifi_connected := 0; s_retry_num := 0; event_bits := 0 |}.

(** The variables after the handler has seen the address arrive, and
    with the three retries used. *)
Definition got_ip : wifi_state :=
  {| wifi_connected := 1; s_retry_num := 0; event_bits := 1 |}.

Definition last_retry : wifi_state :=
  {| wifi_connected := 0; s_retry_num := 3; event_bits := 0 |}.

(** A start, four disconnections, then the association and the
    address. *)
Definition busy_morning : list (esp_event_base_t * Z) :=
  [(WIFI_EVENT, 2); (WIFI_EVENT, 5); (WIFI_EVENT, 5); (WIFI_EVENT, 5);
   (WIFI_EVENT, 5); (WIFI_EVENT, 4); (IP_EVENT, 0)].

Definition answers (start_err : Z) (waits : list wifi_state) : sdk_answers :=
  {| ssid := "home"; password := "secret";
     netif_init_err := 0; event_loop_create_default_err := 0;
     wifi_init_err := 0; register_any_id_err := 0; register_got_ip_err := 0;
     set_mode_err := 0; set_config_err := 0; wifi_start_err := start_err;
     waits := waits |}.

(** * Properties *)

(** *** Arithmetic of the checksum *)

Lemma int_mod64 (z : Z) : int z mod 64 = z mod 64.
Proof.
  unfold int.
  pose proof (Z.div_mod (z + 2147483648) 4294967296 ltac:(lia)) as E.
  set (q := (z + 2147483648) / 4294967296) in E.
  replace ((z + 2147483648) mod 4294967296 - 2147483648)
    with (z + (- q * 67108864) * 64) by lia.
  apply Z.mod_add. lia.
Qed.

Lemma add_chars_mod64 (s : string) (S1 : Z) :
  add_chars s S1 mod 64 = (S1 + byte_sum s) mod 64.
Proof.
  revert S1. induction s as [|c s IH]; intro S1; simpl.
  - f_equal. lia.
  - rewrite IH. rewrite Z.add_mod by lia. rewrite int_mod64.
    rewrite <- Z.add_mod by lia. f_equal. lia.
Qed.

Lemma land_63 (z : Z) : Z.land z 0x3F = z mod 64.
Proof.
  change 0x3F with (Z.ones 6). rewrite Z.land_ones by lia. reflexivity.
Qed.

Lemma int_small (z : Z) : -2147483648 <= z < 2147483648 -> int z = z.
Proof.
  intro Hz. unfold int. rewrite Z.mod_small by lia. lia.
Qed.

Lemma code_to_char (z : Z) : 0 <= z < 256 -> code (to_char z) = z.
Proof.
  intro Hz. unfold code, to_char. rewrite Z.mod_small by lia.
  rewrite N_ascii_embedding by lia. lia.
Qed.

Lemma checksum_value (sep : ascii) (label data : string) :
  code (checksum sep label data)
  = Z.land (byte_sum label + code sep + byte_sum data) 0x3F + 0x20.
Proof.
  unfold checksum. rewrite !land_63.
  rewrite add_chars_mod64.
  rewrite Z.add_mod by lia. rewrite int_mod64. rewrite <- Z.add_mod by lia.
  rewrite <- Z.add_assoc.
  rewrite Z.add_mod by lia. rewrite add_chars_mod64. rewrite <- Z.add_mod by lia.
  replace (0 + byte_sum label + (code sep + byte_sum data))
    with (byte_sum label + code sep + byte_sum data) by lia.
  set (m := (byte_sum label + code sep + byte_sum data) mod 64).
  assert (0 <= m < 64) by (apply Z.mod_pos_bound; lia).
  rewrite int_small by lia. apply code_to_char. lia.
Qed.

(** C1. For every label and value the checksum is
    ((sum of label bytes + separator byte + sum of value bytes) AND 0x3F)
    + 0x20; for "ADCO" and "031258549200" with the separator 0x20 this
    is 0x3E. *)
Theorem checksum_formula :
  (forall (sep : ascii) (label value : string),
      code (checksum sep label value)
      = Z.land (byte_sum label + code sep + byte_sum value) 0x3F + 0x20)
  /\ byte_sum "ADCO" = 279
  /\ byte_sum "031258549200" = 615
  /\ code (checksum " " "ADCO" "031258549200") = 0x3E.
Proof.
  split; [exact checksum_value|].
  repeat split; reflexivity.
Qed.


(** *** First step *)

Section FindFrame.

Variable h : linky_h.

Lemma uint_le (z : Z) : 0 <= uint z <= UINT_MAX.
Proof.
  unfold uint, UINT_MAX. pose proof (Z.mod_pos_bound z 4294967296). lia.
Qed.

Lemma uint_small (z : Z) : 0 <= z <= UINT_MAX -> uint z = z.
Proof.
  unfold uint, UINT_MAX. intro Hz. apply Z.mod_small. lia.
Qed.

Lemma len_app {A : Type} (a b : list A) : len (a ++ b) = len a + len b.
Proof.
  unfold len. rewrite length_app. lia.
Qed.

Lemma len_cons {A : Type} (x : A) (a : list A) : len (x :: a) = 1 + len a.
Proof.
  unfold len. simpl List.length. lia.
Qed.

Lemma len_nonneg {A : Type} (a : list A) : 0 <= len a.
Proof.
  unfold len. lia.
Qed.

(** Scanning a prefix in which no end marker follows a start marker
    only moves the recorded start. *)
Lemma find_frame_prefix (pre rest : list ascii) :
  forall (i s0 : Z),
    (forall p q, (p < q)%nat ->
                 nth_error pre p = Some (START_OF_FRAME h) ->
                 nth_error pre q <> Some (END_OF_FRAME h)) ->
    s0 = UINT_MAX \/ ~ In (END_OF_FRAME h) pre ->
    exists s', find_frame h (pre ++ rest) i s0
               = find_frame h rest (i + len pre) s'
               /\ (~ In (START_OF_FRAME h) pre -> s' = s0).
Proof.
  induction pre as [|c pre IH]; intros i s0 Hord Hs0.
  - exists s0. simpl. rewrite Z.add_0_r. auto.
  - simpl app. simpl find_frame. rewrite len_cons.
    destruct (Ascii.eqb_spec c (START_OF_FRAME h)) as [Hc|Hc].
    + destruct (IH (i + 1) (uint i)) as [s' [E _]].
      * intros p q Hpq Hp. apply (Hord (S p) (S q)); [lia|exact Hp].
      * right. intro Hin. apply In_nth_error in Hin. destruct Hin as [q Hq].
        apply (Hord 0%nat (S q)); [lia|simpl; now subst|exact Hq].
      * exists s'. split.
        -- rewrite E. f_equal. lia.
        -- intro Hn. exfalso. apply Hn. now left.
    + assert (Hcont : (Ascii.eqb c (END_OF_FRAME h) && (s0 <? uint i))
                      = false).
      { destruct (Ascii.eqb_spec c (END_OF_FRAME h)) as [He|He];
          [|reflexivity].
        destruct Hs0 as [Hs0|Hs0].
        - subst s0. simpl. apply Z.ltb_ge. apply uint_le.
        - exfalso. apply Hs0. now left. }
      rewrite Hcont.
      destruct (IH (i + 1) s0) as [s' [E Hs']].
      * intros p q Hpq Hp. apply (Hord (S p) (S q)); [lia|exact Hp].
      * destruct Hs0 as [Hs0|Hs0]; [now left|right].
        intro Hin. apply Hs0. now right.
      * exists s'. split.
        -- rewrite E. f_equal. lia.
        -- intro Hn. apply Hs'. intro Hin. apply Hn. now right.
Qed.

(** Between the start marker and the first end marker after it. *)
Lemma find_frame_body (body post : list ascii) :
  forall (i s0 : Z),
    START_OF_FRAME h <> END_OF_FRAME h ->
    ~ In (START_OF_FRAME h) body ->
    ~ In (END_OF_FRAME h) body ->
    s0 < uint (i + len body) ->
    find_frame h (body ++ END_OF_FRAME h :: post) i s0
    = (s0, uint (i + len body)).
Proof.
  induction body as [|c body IH]; intros i s0 Hne Hs He Hlt.
  - simpl. change (len (@nil ascii)) with 0 in *. rewrite Z.add_0_r in *.
    destruct (Ascii.eqb_spec (END_OF_FRAME h) (START_OF_FRAME h)) as [E|_];
      [now symmetry in E|].
    rewrite Ascii.eqb_refl. simpl.
    apply Z.ltb_lt in Hlt. now rewrite Hlt.
  - simpl app. simpl find_frame. rewrite len_cons in *.
    destruct (Ascii.eqb_spec c (START_OF_FRAME h)) as [Hc|Hc].
    { exfalso. apply Hs. now left. }
    destruct (Ascii.eqb_spec c (END_OF_FRAME h)) as [Hc'|Hc'].
    { exfalso. apply He. now left. }
    cbn [andb]. rewrite IH.
    + f_equal. f_equal. lia.
    + exact Hne.
    + intro Hin. apply Hs. now right.
    + intro Hin. apply He. now right.
    + replace (i + 1 + len body) with (i + (1 + len body)) by lia.
      exact Hlt.
Qed.

End FindFrame.


Lemma nth_error_in_app (A : Type) (l : list A) (n : nat) (a : A) :
  nth_error l n = Some a ->
  exists l1 l2, l = l1 ++ a :: l2 /\ List.length l1 = n.
Proof.
  revert n. induction l as [|x l IH]; intros [|n] E; simpl in E;
    try discriminate.
  - injection E as ->. exists [], l. auto.
  - destruct (IH n E) as [l1 [l2 [-> Hl]]].
    exists (x :: l1), l2. simpl. auto.
Qed.

Lemma nth_error_middle (A : Type) (l1 l2 : list A) (a : A) :
  nth_error (l1 ++ a :: l2) (List.length l1) = Some a.
Proof.
  induction l1 as [|x l1 IH]; simpl; auto.
Qed.

Lemma nth_error_left (A : Type) (l1 l2 : list A) (n : nat) :
  (n < List.length l1)%nat -> nth_error (l1 ++ l2) n = nth_error l1 n.
Proof.
  revert n. induction l1 as [|x l1 IH]; intros [|n] Hn; simpl in *;
    try lia; auto.
  apply IH. lia.
Qed.

Lemma nth_error_right (A : Type) (l1 l2 : list A) (n : nat) :
  nth_error (l1 ++ l2) (List.length l1 + n) = nth_error l2 n.
Proof.
  induction l1 as [|x l1 IH]; simpl; auto.
Qed.

(** The pair of indices that the first step leaves for a buffer in which
    [s] is the last start marker before [e], the first end marker that
    follows a start marker. *)
Lemma find_frame_indices (h : linky_h) (buffer : list ascii) (s e : nat) :
  START_OF_FRAME h <> END_OF_FRAME h ->
  len buffer <= INT_MAX ->
  nth_error buffer s = Some (START_OF_FRAME h) ->
  nth_error buffer e = Some (END_OF_FRAME h) ->
  (s < e)%nat ->
  (forall k, (s < k < e)%nat -> nth_error buffer k <> Some (START_OF_FRAME h)) ->
  (forall p q, (p < q < e)%nat ->
               nth_error buffer p = Some (START_OF_FRAME h) ->
               nth_error buffer q <> Some (END_OF_FRAME h)) ->
  find_frame h buffer 0 UINT_MAX = (Z.of_nat s, Z.of_nat e).
Proof.
  intros Hne Hlen Hs He Hse Hlast Hfirst.
  destruct (nth_error_in_app _ _ _ _ Hs) as [pre [rest [-> Hpre]]].
  assert (Hrest : nth_error rest (e - s - 1) = Some (END_OF_FRAME h)).
  { replace e with (List.length pre + S (e - s - 1))%nat in He by lia.
    rewrite nth_error_right in He. exact He. }
  destruct (nth_error_in_app _ _ _ _ Hrest) as [mid [post [-> Hmid]]].
  assert (Hbound : len pre + 1 + len mid + 1 <= INT_MAX).
  { rewrite len_app, len_cons, len_app, len_cons in Hlen.
    pose proof (len_nonneg post). lia. }
  destruct (find_frame_prefix h pre
              (START_OF_FRAME h :: mid ++ END_OF_FRAME h :: post) 0 UINT_MAX)
    as [s' [E _]].
  - intros p q Hpq Hp Hq.
    assert (q < List.length pre)%nat
      by (apply nth_error_Some; rewrite Hq; discriminate).
    apply (Hfirst p q); [lia| |].
    + rewrite nth_error_left by lia. exact Hp.
    + rewrite nth_error_left by lia. exact Hq.
  - now left.
  - rewrite E. simpl find_frame. rewrite Ascii.eqb_refl.
    rewrite find_frame_body.
    + unfold INT_MAX, UINT_MAX in *. pose proof (len_nonneg pre).
      pose proof (len_nonneg mid).
      rewrite !uint_small by (unfold UINT_MAX; lia).
      unfold len in *. f_equal; lia.
    + exact Hne.
    + intro Hin. apply In_nth_error in Hin. destruct Hin as [k Hk].
      assert (k < List.length mid)%nat
        by (apply nth_error_Some; rewrite Hk; discriminate).
      apply (Hlast (List.length pre + S k)%nat); [lia|].
      rewrite nth_error_right. simpl. rewrite nth_error_left by lia.
      exact Hk.
    + intro Hin. apply In_nth_error in Hin. destruct Hin as [k Hk].
      assert (k < List.length mid)%nat
        by (apply nth_error_Some; rewrite Hk; discriminate).
      apply (Hfirst (List.length pre) (List.length pre + S k)%nat); [lia| |].
      * apply nth_error_middle.
      * rewrite nth_error_right. simpl. rewrite nth_error_left by lia.
        exact Hk.
    + unfold INT_MAX, UINT_MAX in *. pose proof (len_nonneg pre).
      pose proof (len_nonneg mid).
      rewrite !uint_small by (unfold UINT_MAX; lia). lia.
Qed.

(** C3. A buffer without start-of-frame marker, and a buffer in which every
    end-of-frame marker precedes every start-of-frame marker, make decode
    return 0 with the record in its reset state. *)
Theorem decode_no_frame (h : linky_h) (rxBytes : Z) (buffer : list ascii) :
  ~ In (START_OF_FRAME h) buffer
  \/ (forall p q, nth_error buffer p = Some (END_OF_FRAME h) ->
                  nth_error buffer q = Some (START_OF_FRAME h) ->
                  (p < q)%nat) ->
  decode h rxBytes buffer = Val (0, data_reset).
Proof.
  intro Hyp.
  destruct (find_frame_prefix h buffer [] 0 UINT_MAX) as [s' [E _]].
  - intros p q Hpq Hp Hq. destruct Hyp as [Hno|Hord].
    + apply Hno. eapply nth_error_In. exact Hp.
    + specialize (Hord q p Hq Hp). lia.
  - now left.
  - rewrite app_nil_r in E. unfold decode. rewrite E. simpl find_frame.
    cbv beta iota. rewrite Z.eqb_refl. reflexivity.
Qed.

Lemma decode_no_frame_witness :
  decode historique 0 (list_ascii_of_string "ADCO 12 3") = Val (0, data_reset)
  /\ decode historique 4 ["003"; "A"; "002"; "B"]%char = Val (0, data_reset).
Proof.
  split.
  - apply decode_no_frame. left. simpl. intuition discriminate.
  - apply decode_no_frame. right. intros p q Hp Hq.
    repeat (destruct p as [|p]; simpl in Hp; try discriminate Hp);
      repeat (destruct q as [|q]; simpl in Hq; try discriminate Hq); lia.
Defined.

(** C6. When several start-of-frame markers come before the first
    end-of-frame marker that follows a start marker, the first step keeps
    the last of them: the frame copied out of the buffer begins at the last
    start index before that end marker and stops before the end marker. *)
Theorem frame_starts_at_last_start (h : linky_h) (rxBytes : Z)
    (buffer : list ascii) (s e : nat) :
  START_OF_FRAME h <> END_OF_FRAME h ->
  len buffer <= INT_MAX ->
  nth_error buffer s = Some (START_OF_FRAME h) ->
  nth_error buffer e = Some (END_OF_FRAME h) ->
  (s < e)%nat ->
  (forall k, (s < k < e)%nat -> nth_error buffer k <> Some (START_OF_FRAME h)) ->
  (forall p q, (p < q < e)%nat ->
               nth_error buffer p = Some (START_OF_FRAME h) ->
               nth_error buffer q <> Some (END_OF_FRAME h)) ->
  find_frame h buffer 0 UINT_MAX = (Z.of_nat s, Z.of_nat e)
  /\ decode h rxBytes buffer
     = (frame <- memcpy (zeros 200) buffer (Z.of_nat s) (Z.of_nat (e - s)) ;;
        decode_frame h frame).
Proof.
  intros Hne Hlen Hs He Hse Hlast Hfirst.
  pose proof (find_frame_indices h buffer s e Hne Hlen Hs He Hse Hlast Hfirst)
    as E.
  split; [exact E|].
  assert (e < List.length buffer)%nat
    by (apply nth_error_Some; rewrite He; discriminate).
  unfold decode. rewrite E. cbv beta iota.
  unfold INT_MAX, len in Hlen.
  replace (Z.of_nat e =? UINT_MAX) with false
    by (symmetry; apply Z.eqb_neq; unfold UINT_MAX; lia).
  replace (Z.of_nat s =? UINT_MAX) with false
    by (symmetry; apply Z.eqb_neq; unfold UINT_MAX; lia).
  replace (Z.of_nat e <? Z.of_nat s) with false
    by (symmetry; apply Z.ltb_ge; lia).
  cbn [orb].
  rewrite uint_small by (unfold UINT_MAX; lia).
  replace (Z.of_nat e - Z.of_nat s) with (Z.of_nat (e - s)) by lia.
  reflexivity.
Qed.

(** *** The copy of the frame *)

Lemma skipn_zeros (n k : nat) : skipn k (zeros n) = zeros (n - k).
Proof.
  unfold zeros. revert k. induction n as [|n IH]; intros [|k]; simpl; auto.
Qed.

Lemma length_zeros (n : nat) : List.length (zeros n) = n.
Proof.
  apply repeat_length.
Qed.

Lemma firstn_zeros (n k : nat) : firstn k (zeros n) = zeros (Nat.min k n).
Proof.
  unfold zeros. revert k. induction n as [|n IH]; intros [|k]; simpl; auto.
  now rewrite IH.
Qed.

Lemma skipn_len_app (A : Type) (a b : list A) :
  skipn (List.length a) (a ++ b) = b.
Proof.
  induction a as [|x a IH]; simpl; auto.
Qed.

Lemma firstn_len_app (A : Type) (a b : list A) :
  firstn (List.length a) (a ++ b) = a.
Proof.
  induction a as [|x a IH]; simpl; [|rewrite IH]; auto.
Qed.

(** [memcpy] of [n] cells found after a prefix of the source. *)
Lemma memcpy_slice (dst a m b : list ascii) :
  len m <= len dst ->
  memcpy dst (a ++ m ++ b) (len a) (len m)
  = Val (m ++ skipn (List.length m) dst).
Proof.
  intro Hfit. unfold memcpy.
  pose proof (len_nonneg a). pose proof (len_nonneg m).
  pose proof (len_nonneg b).
  replace (0 <=? len a) with true by (symmetry; apply Z.leb_le; lia).
  replace (0 <=? len m) with true by (symmetry; apply Z.leb_le; lia).
  replace (len m <=? len dst) with true by (symmetry; apply Z.leb_le; lia).
  replace (len a + len m <=? len (a ++ m ++ b)) with true
    by (symmetry; apply Z.leb_le; rewrite !len_app; lia).
  cbn [andb]. unfold len. rewrite !Nat2Z.id.
  rewrite skipn_len_app, firstn_len_app. reflexivity.
Qed.


Lemma no_start_no_frame (h : linky_h) (pre : list ascii) :
  ~ In (START_OF_FRAME h) pre -> no_frame_in h pre.
Proof.
  intros Hno p q _ Hp _. apply Hno. eapply nth_error_In. exact Hp.
Qed.

(** The first step on a buffer that holds a frame of at most 200 bytes:
    [decode] goes on with the frame, zero-filled to 200 cells. *)
Lemma decode_extracts (h : linky_h) (rxBytes : Z) (pre body post : list ascii) :
  START_OF_FRAME h <> END_OF_FRAME h ->
  no_frame_in h pre ->
  ~ In (START_OF_FRAME h) body ->
  ~ In (END_OF_FRAME h) body ->
  len (pre ++ START_OF_FRAME h :: body ++ END_OF_FRAME h :: post) <= INT_MAX ->
  1 + len body <= 200 ->
  decode h rxBytes (pre ++ START_OF_FRAME h :: body ++ END_OF_FRAME h :: post)
  = decode_frame h
      ((START_OF_FRAME h :: body) ++ zeros (200 - S (List.length body))).
Proof.
  intros Hne Hpre Hs He Hlen Hfit.
  assert (Hbound : len pre + 1 + len body + 1 <= INT_MAX).
  { rewrite len_app, len_cons, len_app, len_cons in Hlen.
    pose proof (len_nonneg post). lia. }
  pose proof (len_nonneg pre) as Hp0. pose proof (len_nonneg body) as Hb0.
  unfold INT_MAX in *.
  unfold decode.
  destruct (find_frame_prefix h pre
              (START_OF_FRAME h :: body ++ END_OF_FRAME h :: post) 0 UINT_MAX
              Hpre (or_introl eq_refl)) as [s' [E _]].
  rewrite E. simpl find_frame. rewrite Ascii.eqb_refl.
  rewrite find_frame_body; auto.
  2:{ rewrite !uint_small by (unfold UINT_MAX; lia). lia. }
  cbv beta iota.
  rewrite !uint_small by (unfold UINT_MAX; lia).
  replace (len pre + 1 + len body =? UINT_MAX) with false
    by (symmetry; apply Z.eqb_neq; unfold UINT_MAX; lia).
  replace (len pre =? UINT_MAX) with false
    by (symmetry; apply Z.eqb_neq; unfold UINT_MAX; lia).
  replace (len pre + 1 + len body <? len pre) with false
    by (symmetry; apply Z.ltb_ge; lia).
  cbn [orb].
  replace (len pre + 1 + len body - len pre)
    with (len (START_OF_FRAME h :: body)) by (rewrite len_cons; lia).
  change (START_OF_FRAME h :: body ++ END_OF_FRAME h :: post)
    with ((START_OF_FRAME h :: body) ++ END_OF_FRAME h :: post).
  rewrite memcpy_slice.
  - cbn [bind]. rewrite skipn_zeros. reflexivity.
  - rewrite len_cons. unfold len at 2. rewrite length_zeros. lia.
Qed.


Lemma differ_neq (a b : ascii) : differ a b = true -> a <> b.
Proof.
  unfold differ. destruct (Ascii.eqb_spec a b); [discriminate|auto].
Qed.

Lemma header_ok_facts (h : linky_h) : header_ok h = true -> header_facts h.
Proof.
  unfold header_ok. intro H.
  repeat (apply andb_prop in H; let H' := fresh "H" in destruct H as [H H']).
  constructor; try (apply differ_neq; assumption).
  - apply Z.leb_le. assumption.
  - apply Z.ltb_lt in H0. lia.
Qed.

(** *** Counting markers *)

Lemma count_cons_eq (c : ascii) (l : list ascii) :
  count c (c :: l) = S (count c l).
Proof.
  simpl. now rewrite Ascii.eqb_refl.
Qed.

Lemma count_cons_neq (c x : ascii) (l : list ascii) :
  x <> c -> count c (x :: l) = count c l.
Proof.
  intro Hx. simpl. destruct (Ascii.eqb_spec x c); [contradiction|reflexivity].
Qed.

Lemma count_app (c : ascii) (a b : list ascii) :
  count c (a ++ b) = (count c a + count c b)%nat.
Proof.
  induction a as [|x a IH]; simpl; auto. rewrite IH. lia.
Qed.

Lemma count_zeros (c : ascii) (n : nat) : c <> NUL -> count c (zeros n) = 0%nat.
Proof.
  intro Hc. induction n as [|n IH]; auto.
  change (zeros (S n)) with (NUL :: zeros n).
  rewrite count_cons_neq by auto. exact IH.
Qed.

Lemma count_le_length (c : ascii) (l : list ascii) :
  (count c l <= List.length l)%nat.
Proof.
  induction l as [|x l IH]; simpl; auto.
  destruct (Ascii.eqb x c); lia.
Qed.

Lemma count_none (c : ascii) (l : list ascii) :
  ~ In c l <-> count c l = 0%nat.
Proof.
  induction l as [|x l IH]; simpl; [tauto|].
  destruct (Ascii.eqb_spec x c) as [E|E].
  - split; [intro H; exfalso; apply H; now left|discriminate].
  - rewrite <- IH. tauto.
Qed.

(** *** Second step *)

Section FindGroups.

Variable h : linky_h.


Lemma store_length (A : Type) (a a' : list A) (i : Z) (v : A) :
  store a i v = Val a' -> List.length a' = List.length a.
Proof.
  unfold store. destruct ((0 <=? i) && (i <? len a)) eqn:E; [|discriminate].
  intro H. injection H as <-.
  apply andb_prop in E. destruct E as [E1 E2].
  apply Z.leb_le in E1. apply Z.ltb_lt in E2. unfold len in E2.
  rewrite length_app, length_firstn. cbn [List.length].
  rewrite length_skipn. lia.
Qed.

Lemma store_in_range (A : Type) (a : list A) (i : Z) (v : A) :
  0 <= i < len a -> exists a', store a i v = Val a'.
Proof.
  intro Hi. unfold store.
  replace (0 <=? i) with true by (symmetry; apply Z.leb_le; lia).
  replace (i <? len a) with true by (symmetry; apply Z.ltb_lt; lia).
  eexists. reflexivity.
Qed.

Lemma index_array_length : List.length (index_array h) = GROUP_COUNT h.
Proof.
  unfold index_array. destruct (GROUP_COUNT h); simpl; auto.
  now rewrite repeat_length.
Qed.

Lemma groups_init_wf : groups_wf h (groups_init h).
Proof.
  unfold groups_wf, groups_init. simpl.
  rewrite index_array_length. repeat split; lia.
Qed.

(** The second step on arbitrary cells, as long as the markers fit the
    index arrays: the counters count the markers, and an array no marker
    went into is unchanged. *)
Lemma find_groups_counts (cells : list ascii) :
  forall (i : Z) (g : groups),
    START_OF_GROUP h <> END_OF_GROUP h ->
    groups_wf h g ->
    startOfGroupIndex g + Z.of_nat (count (START_OF_GROUP h) cells)
      <= Z.of_nat (GROUP_COUNT h) ->
    endOfGroupIndex g + Z.of_nat (count (END_OF_GROUP h) cells)
      <= Z.of_nat (GROUP_COUNT h) ->
    startOfGroupIndex g + Z.of_nat (count (START_OF_GROUP h) cells)
      <= UINT_MAX ->
    endOfGroupIndex g + Z.of_nat (count (END_OF_GROUP h) cells)
      <= UINT_MAX ->
    exists g',
      find_groups h cells i g = Val g'
      /\ groups_wf h g'
      /\ startOfGroupIndex g'
         = startOfGroupIndex g + Z.of_nat (count (START_OF_GROUP h) cells)
      /\ endOfGroupIndex g'
         = endOfGroupIndex g + Z.of_nat (count (END_OF_GROUP h) cells)
      /\ (count (START_OF_GROUP h) cells = 0%nat ->
          startOfGroup g' = startOfGroup g)
      /\ (count (END_OF_GROUP h) cells = 0%nat ->
          endOfGroup g' = endOfGroup g).
Proof.
  induction cells as [|c cells IH]; intros i g Hne Hwf Hs He Hsu Heu.
  - exists g. simpl. repeat split; try apply Hwf; auto; lia.
  - simpl find_groups. unfold scan_char.
    destruct Hwf as [Hls [Hle [Hs0 He0]]].
    destruct (Ascii.eqb_spec c (START_OF_GROUP h)) as [Hc|Hc].
    + subst c. rewrite count_cons_eq in *.
      rewrite count_cons_neq in * by exact Hne.
      destruct (store_in_range _ (startOfGroup g) (startOfGroupIndex g) i)
        as [a Ha]; [unfold len; lia|].
      rewrite Ha. cbn [bind].
      pose proof (store_length _ _ _ _ _ Ha) as Hla.
      rewrite uint_small by (unfold UINT_MAX in *; lia).
      match goal with |- context [find_groups h cells (i + 1) ?G] =>
        destruct (IH (i + 1) G) as [g' [E [Hwf' [Hsi [Hei [_ Hend]]]]]]
      end; cbn [startOfGroup endOfGroup startOfGroupIndex endOfGroupIndex];
        auto; try lia.
      * unfold groups_wf. cbn. repeat split; lia.
      * exists g'. cbn in Hsi, Hei, Hend.
        repeat split; try apply Hwf'; auto; try lia.
    + rewrite (count_cons_neq (START_OF_GROUP h) c) in * by auto.
      destruct (Ascii.eqb_spec c (END_OF_GROUP h)) as [Hc'|Hc'].
      * subst c. rewrite count_cons_eq in *.
        destruct (store_in_range _ (endOfGroup g) (endOfGroupIndex g) i)
          as [a Ha]; [unfold len; lia|].
        rewrite Ha. cbn [bind].
        pose proof (store_length _ _ _ _ _ Ha) as Hla.
        rewrite uint_small by (unfold UINT_MAX in *; lia).
        match goal with |- context [find_groups h cells (i + 1) ?G] =>
          destruct (IH (i + 1) G) as [g' [E [Hwf' [Hsi [Hei [Hstart _]]]]]]
        end; cbn [startOfGroup endOfGroup startOfGroupIndex endOfGroupIndex];
          auto; try lia.
        -- unfold groups_wf. cbn. repeat split; lia.
        -- exists g'. cbn in Hsi, Hei, Hstart.
           repeat split; try apply Hwf'; auto; try lia.
      * rewrite (count_cons_neq (END_OF_GROUP h) c) in * by auto.
        cbn [bind].
        destruct (IH (i + 1) g) as [g' [E [Hwf' [Hsi [Hei [Hst Hen]]]]]];
          auto; try (unfold groups_wf; repeat split; lia).
        exists g'. repeat split; try apply Hwf'; auto.
Qed.

End FindGroups.

Lemma load_in_range (A : Type) (a : list A) (i : Z) :
  0 <= i < len a -> exists v, load a i = Val v.
Proof.
  intro Hi. unfold load.
  replace (i <? 0) with false by (symmetry; apply Z.ltb_ge; lia).
  destruct (nth_error a (Z.to_nat i)) eqn:E; [eexists; reflexivity|].
  apply nth_error_None in E. unfold len in Hi. lia.
Qed.

Lemma load_nth_error (A : Type) (a : list A) (n : nat) (v : A) :
  nth_error a n = Some v -> load a (Z.of_nat n) = Val v.
Proof.
  intro E. unfold load.
  replace (Z.of_nat n <? 0) with false by (symmetry; apply Z.ltb_ge; lia).
  rewrite Nat2Z.id, E. reflexivity.
Qed.

(** The cells the second step visits, for a frame that fits them. *)
Lemma firstn_frame_cells (m : list ascii) (n : nat) :
  (List.length m <= n <= 200)%nat ->
  firstn n (m ++ zeros (200 - List.length m))
  = m ++ zeros (n - List.length m).
Proof.
  intro Hn. rewrite firstn_app.
  rewrite firstn_all2 by lia. f_equal.
  rewrite firstn_zeros. f_equal. lia.
Qed.

(** Inside the arrays of the second step the marker test does what it
    is there for.  When the extracted frame holds no start-of-group
    marker, or no end-of-group marker, or different numbers of the two,
    decode returns 0 and the record stays in its reset state: no group is
    looked at.  The frame fits [frame] and its cells [0 .. FRAME_SIZE), and
    the markers of each kind fit their index array. *)
Theorem decode_group_marker_failure (h : linky_h) (rxBytes : Z)
    (pre body post : list ascii) :
  header_ok h = true ->
  no_frame_in h pre ->
  ~ In (START_OF_FRAME h) body ->
  ~ In (END_OF_FRAME h) body ->
  len (pre ++ START_OF_FRAME h :: body ++ END_OF_FRAME h :: post) <= INT_MAX ->
  1 + len body <= FRAME_SIZE h ->
  (count (START_OF_GROUP h) body <= GROUP_COUNT h)%nat ->
  (count (END_OF_GROUP h) body <= GROUP_COUNT h)%nat ->
  count (START_OF_GROUP h) body = 0%nat
  \/ count (END_OF_GROUP h) body = 0%nat
  \/ count (START_OF_GROUP h) body <> count (END_OF_GROUP h) body ->
  decode h rxBytes (pre ++ START_OF_FRAME h :: body ++ END_OF_FRAME h :: post)
  = Val (0, data_reset).
Proof.
  intros Hok Hpre Hs He Hlen Hfit Hcs Hce Hcase.
  pose proof (header_ok_facts h Hok) as F.
  pose proof (frame_size_200 h F) as H200.
  rewrite decode_extracts; auto; [|apply F|lia].
  unfold decode_frame.
  replace (200 <? FRAME_SIZE h) with false by (symmetry; apply Z.ltb_ge; lia).
  change (S (List.length body)) with (List.length (START_OF_FRAME h :: body)).
  rewrite firstn_frame_cells
    by (simpl List.length; unfold len in Hfit; lia).
  set (cells := (START_OF_FRAME h :: body)
                  ++ zeros (Z.to_nat (FRAME_SIZE h)
                            - List.length (START_OF_FRAME h :: body))).
  assert (Hcount_s : count (START_OF_GROUP h) cells
                     = count (START_OF_GROUP h) body).
  { unfold cells. rewrite count_app, count_zeros by apply F.
    rewrite count_cons_neq by apply F. lia. }
  assert (Hcount_e : count (END_OF_GROUP h) cells
                     = count (END_OF_GROUP h) body).
  { unfold cells. rewrite count_app, count_zeros by apply F.
    rewrite count_cons_neq by apply F. lia. }
  pose proof (count_le_length (START_OF_GROUP h) body) as Hbs.
  pose proof (count_le_length (END_OF_GROUP h) body) as Hbe.
  unfold len in Hfit.
  destruct (find_groups_counts h cells 0 (groups_init h))
    as [g [E [Hwf [Hsi [Hei [Hst Hen]]]]]];
    try (rewrite ?Hcount_s, ?Hcount_e; cbn [groups_init startOfGroupIndex
           endOfGroupIndex]; unfold UINT_MAX; lia).
  { apply F. }
  { apply groups_init_wf. }
  rewrite E. cbn [bind].
  rewrite Hcount_s in Hsi, Hst. rewrite Hcount_e in Hei, Hen.
  cbn [groups_init startOfGroupIndex endOfGroupIndex] in Hsi, Hei.
  destruct Hwf as [Hls [Hle _]].
  pose proof (group_count_pos h F) as Hgc.
  destruct (load_in_range _ (startOfGroup g) 0) as [x Hx];
    [unfold len; lia|].
  destruct (load_in_range _ (endOfGroup g) 0) as [y Hy];
    [unfold len; lia|].
  assert (Hinit : load (index_array h) 0 = Val UINT_MAX).
  { unfold index_array. destruct (GROUP_COUNT h); [lia|reflexivity]. }
  destruct Hcase as [Hz|[Hz|Hneq]].
  - rewrite (Hst Hz). cbn [groups_init startOfGroup].
    rewrite Hinit, Hy. cbn [bind]. rewrite Z.eqb_refl. reflexivity.
  - rewrite (Hen Hz). cbn [groups_init endOfGroup].
    rewrite Hinit, Hx. cbn [bind]. rewrite Z.eqb_refl, orb_true_r.
    reflexivity.
  - rewrite Hx, Hy. cbn [bind].
    destruct ((x =? UINT_MAX) || (y =? UINT_MAX)); [reflexivity|].
    replace (startOfGroupIndex g =? endOfGroupIndex g) with false
      by (symmetry; apply Z.eqb_neq; lia).
    reflexivity.
Qed.

(** *** Second step on a frame made of groups *)

Section Groups.

Variable h : linky_h.

Lemma find_groups_app (a b : list ascii) :
  forall (i : Z) (g : groups),
    find_groups h (a ++ b) i g
    = (g' <- find_groups h a i g ;; find_groups h b (i + len a) g').
Proof.
  induction a as [|c a IH]; intros i g.
  - simpl. f_equal. change (len (@nil ascii)) with 0. lia.
  - simpl app. simpl find_groups.
    destruct (scan_char h g i c) as [|g1]; [reflexivity|].
    cbn [bind]. rewrite IH. rewrite len_cons.
    replace (i + 1 + len a) with (i + (1 + len a)) by lia. reflexivity.
Qed.

Lemma find_groups_plain (cells : list ascii) :
  forall (i : Z) (g : groups),
    group_plain h cells -> find_groups h cells i g = Val g.
Proof.
  induction cells as [|c cells IH]; intros i g [Hs He]; [reflexivity|].
  simpl find_groups. unfold scan_char.
  destruct (Ascii.eqb_spec c (START_OF_GROUP h)) as [Hc|_].
  { exfalso. apply Hs. now left. }
  destruct (Ascii.eqb_spec c (END_OF_GROUP h)) as [Hc|_].
  { exfalso. apply He. now left. }
  cbn [bind]. apply IH. split; intro Hin; [apply Hs|apply He]; now right.
Qed.

Lemma zeros_plain (n : nat) :
  START_OF_GROUP h <> NUL -> END_OF_GROUP h <> NUL -> group_plain h (zeros n).
Proof.
  intros H1 H2. split; intro Hin; apply repeat_spec in Hin; congruence.
Qed.

Lemma store_filled (S : list Z) (v : Z) :
  (List.length S < GROUP_COUNT h)%nat ->
  store (filled h S) (len S) v = Val (filled h (S ++ [v])).
Proof.
  intro Hlt. unfold store, filled.
  pose proof (len_nonneg S) as H0.
  replace (0 <=? len S) with true by (symmetry; apply Z.leb_le; lia).
  replace (len S <? len (S ++ skipn (List.length S) (index_array h)))
    with true.
  2:{ symmetry. apply Z.ltb_lt. rewrite len_app. unfold len.
      rewrite length_skipn, index_array_length. lia. }
  cbn [andb]. f_equal.
  unfold len. rewrite Nat2Z.id.
  replace (Z.to_nat (Z.of_nat (List.length S) + 1))
    with (List.length S + 1)%nat by lia.
  rewrite firstn_len_app.
  rewrite <- app_assoc. f_equal. simpl. f_equal.
  rewrite skipn_app.
  rewrite skipn_all2 by lia. simpl.
  replace (List.length S + 1 - List.length S)%nat with 1%nat by lia.
  rewrite skipn_skipn, length_app. simpl List.length. f_equal. lia.
Qed.

Lemma find_groups_group (content : list ascii) (i : Z) (S E : list Z) :
  START_OF_GROUP h <> END_OF_GROUP h ->
  group_plain h content ->
  (List.length S < GROUP_COUNT h)%nat ->
  (List.length E < GROUP_COUNT h)%nat ->
  len S < UINT_MAX -> len E < UINT_MAX ->
  find_groups h (group_bytes h content) i (groups_of h S E)
  = Val (groups_of h (S ++ [i]) (E ++ [i + len content + 1])).
Proof.
  intros Hne Hplain HS HE HSu HEu.
  unfold group_bytes. simpl find_groups. unfold scan_char at 1.
  rewrite Ascii.eqb_refl.
  cbn [groups_of startOfGroup endOfGroup startOfGroupIndex endOfGroupIndex].
  rewrite store_filled by exact HS. cbn [bind].
  rewrite find_groups_app, find_groups_plain by exact Hplain. cbn [bind].
  simpl find_groups. unfold scan_char.
  destruct (Ascii.eqb_spec (END_OF_GROUP h) (START_OF_GROUP h)) as [Hc|_];
    [now symmetry in Hc|].
  rewrite Ascii.eqb_refl.
  cbn [startOfGroup endOfGroup startOfGroupIndex endOfGroupIndex].
  rewrite store_filled by exact HE. cbn [bind].
  pose proof (len_nonneg S). pose proof (len_nonneg E).
  rewrite !uint_small by lia.
  unfold groups_of. rewrite !len_app.
  change (len [i]) with 1. change (len [i + len content + 1]) with 1.
  replace (i + 1 + len content) with (i + len content + 1) by lia.
  reflexivity.
Qed.

Lemma starts_length (contents : list (list ascii)) :
  forall i, List.length (starts i contents) = List.length contents.
Proof.
  induction contents as [|c cs IH]; intro i; simpl; auto.
Qed.

Lemma ends_length (contents : list (list ascii)) :
  forall i, List.length (ends i contents) = List.length contents.
Proof.
  induction contents as [|c cs IH]; intro i; simpl; auto.
Qed.

Lemma find_groups_contents (contents : list (list ascii)) :
  forall (i : Z) (S E : list Z),
    START_OF_GROUP h <> END_OF_GROUP h ->
    (forall c, In c contents -> group_plain h c) ->
    (List.length S + List.length contents <= GROUP_COUNT h)%nat ->
    List.length E = List.length S ->
    len S + len contents <= UINT_MAX ->
    find_groups h (List.concat (map (group_bytes h) contents)) i
      (groups_of h S E)
    = Val (groups_of h (S ++ starts i contents) (E ++ ends i contents)).
Proof.
  induction contents as [|c cs IH]; intros i S E Hne Hplain Hfit HSE Hu.
  - simpl. now rewrite !app_nil_r.
  - change (List.concat (map (group_bytes h) (c :: cs)))
      with (group_bytes h c ++ List.concat (map (group_bytes h) cs)).
    rewrite find_groups_app.
    simpl List.length in Hfit. rewrite len_cons in Hu.
    pose proof (len_nonneg cs).
    assert (len E = len S) by (unfold len; lia).
    rewrite find_groups_group; auto; try lia.
    2:{ apply Hplain. now left. }
    cbn [bind]. rewrite IH; auto.
    + simpl starts. simpl ends. rewrite <- !app_assoc. simpl.
      unfold group_bytes. rewrite len_cons, len_app.
      change (len [END_OF_GROUP h]) with 1.
      replace (i + (1 + (len c + 1))) with (i + len c + 2) by lia.
      reflexivity.
    + intros c' Hc'. apply Hplain. now right.
    + rewrite length_app. simpl. lia.
    + rewrite !length_app. simpl. lia.
    + rewrite len_app. change (len [i]) with 1. lia.
Qed.

End Groups.

(** *** From the buffer to the loop over the groups *)

Section Reach.

Variable h : linky_h.
Hypothesis Hok : header_ok h = true.

Lemma body_not_in (x : ascii) (contents : list (list ascii)) :
  x <> START_OF_GROUP h -> x <> END_OF_GROUP h ->
  (forall c, In c contents -> ~ In x c) ->
  ~ In x (List.concat (map (group_bytes h) contents)).
Proof.
  intros H1 H2 Hc Hin. apply in_concat in Hin.
  destruct Hin as [g [Hg Hx]]. apply in_map_iff in Hg.
  destruct Hg as [c [<- Hcin]]. unfold group_bytes in Hx.
  destruct Hx as [Hx|Hx]; [congruence|].
  apply in_app_or in Hx. destruct Hx as [Hx|[Hx|[]]]; [|congruence].
  now apply (Hc c).
Qed.

Lemma len_group_bytes (c : list ascii) : len (group_bytes h c) = len c + 2.
Proof.
  unfold group_bytes. rewrite len_cons, len_app.
  change (len [END_OF_GROUP h]) with 1. lia.
Qed.

Lemma concat_groups_cons (c : list ascii) (cs : list (list ascii)) :
  List.concat (map (group_bytes h) (c :: cs))
  = group_bytes h c ++ List.concat (map (group_bytes h) cs).
Proof.
  reflexivity.
Qed.

Lemma groups_longer (contents : list (list ascii)) :
  len contents <= len (List.concat (map (group_bytes h) contents)).
Proof.
  induction contents as [|c cs IH].
  - change (len (@nil (list ascii))) with 0. apply len_nonneg.
  - rewrite concat_groups_cons, len_app, len_group_bytes, len_cons.
    pose proof (len_nonneg c). lia.
Qed.

Lemma filled_load (S : list Z) (n : nat) (v : Z) :
  nth_error S n = Some v -> load (filled h S) (Z.of_nat n) = Val v.
Proof.
  intro E. apply load_nth_error. unfold filled.
  rewrite nth_error_app1; [exact E|].
  apply nth_error_Some. rewrite E. discriminate.
Qed.

Lemma decode_frame_contents (contents : list (list ascii)) :
  (forall c, In c contents -> group_plain h c) ->
  contents <> [] ->
  len (frame_bytes h contents) <= FRAME_SIZE h ->
  (List.length contents <= GROUP_COUNT h)%nat ->
  decode_frame h (frame_of h contents)
  = (d <- decode_groups h (frame_of h contents)
            (groups_of h (starts 1 contents) (ends 1 contents))
            (List.length contents) 0 data_reset ;;
     Val (1, d)).
Proof.
  intros Hplain Hne Hfit Hgc.
  pose proof (header_ok_facts h Hok) as F.
  pose proof (frame_size_200 h F) as H200.
  unfold decode_frame.
  replace (200 <? FRAME_SIZE h) with false by (symmetry; apply Z.ltb_ge; lia).
  unfold frame_of at 1.
  rewrite firstn_frame_cells by (unfold len in Hfit; lia).
  assert (Hn : len contents < len (frame_bytes h contents)).
  { unfold frame_bytes. rewrite len_cons.
    pose proof (groups_longer contents). lia. }
  unfold frame_bytes at 1. simpl app. simpl find_groups.
  unfold scan_char at 1.
  destruct (Ascii.eqb_spec (START_OF_FRAME h) (START_OF_GROUP h)) as [E|_];
    [exfalso; exact (stx_lf h F E)|].
  destruct (Ascii.eqb_spec (START_OF_FRAME h) (END_OF_GROUP h)) as [E|_];
    [exfalso; exact (stx_cr h F E)|].
  cbn [bind]. rewrite find_groups_app.
  change (groups_init h) with (groups_of h [] []).
  rewrite find_groups_contents; auto; try apply F;
    try (simpl List.length; lia).
  2:{ change (len (@nil Z)) with 0. unfold UINT_MAX. lia. }
  cbn [bind app]. rewrite find_groups_plain by (apply zeros_plain; apply F).
  cbn [bind groups_of startOfGroup endOfGroup startOfGroupIndex
         endOfGroupIndex].
  destruct contents as [|c cs]; [contradiction|].
  pose proof (filled_load (starts 1 (c :: cs)) 0 1 eq_refl) as L1.
  pose proof (filled_load (ends 1 (c :: cs)) 0 (1 + len c + 1) eq_refl) as L2.
  change (Z.of_nat 0) with 0 in L1, L2. rewrite L1, L2.
  cbn [bind].
  assert (Hc : 1 + len c + 1 < 4294967295).
  { unfold frame_bytes in Hfit.
    rewrite len_cons, concat_groups_cons, len_app, len_group_bytes in Hfit.
    pose proof (len_nonneg (List.concat (map (group_bytes h) cs))). lia. }
  replace (1 =? UINT_MAX) with false by reflexivity.
  replace (1 + len c + 1 =? UINT_MAX) with false
    by (symmetry; apply Z.eqb_neq; unfold UINT_MAX; lia).
  cbn [orb].
  unfold len at 1 2. rewrite starts_length, ends_length, Z.eqb_refl.
  cbn [negb]. unfold len. rewrite starts_length, Nat2Z.id. reflexivity.
Qed.

Lemma decode_buffer_contents (rxBytes : Z) (pre post : list ascii)
    (contents : list (list ascii)) :
  no_frame_in h pre ->
  frame_plain h contents ->
  contents <> [] ->
  len (buffer_of h pre contents post) <= INT_MAX ->
  len (frame_bytes h contents) <= FRAME_SIZE h ->
  (List.length contents <= GROUP_COUNT h)%nat ->
  decode h rxBytes (buffer_of h pre contents post)
  = (d <- decode_groups h (frame_of h contents)
            (groups_of h (starts 1 contents) (ends 1 contents))
            (List.length contents) 0 data_reset ;;
     Val (1, d)).
Proof.
  intros Hpre Hplain Hne Hlen Hfit Hgc.
  pose proof (header_ok_facts h Hok) as F.
  pose proof (frame_size_200 h F) as H200.
  unfold buffer_of, frame_bytes in *. simpl app in *.
  rewrite len_cons in Hfit.
  rewrite decode_extracts; auto; try apply F; try lia.
  - apply decode_frame_contents; auto.
    + intros c Hc. apply Hplain. exact Hc.
    + unfold frame_bytes. rewrite len_cons. lia.
  - apply body_not_in; try apply F. intros c Hc. now apply Hplain.
  - apply body_not_in; try apply F. intros c Hc. now apply Hplain.
Qed.

End Reach.

(** *** Third step: the separators of a group *)

Section Separators.

Variable h : linky_h.

Lemma find_separators_none (cells : list ascii) :
  forall (j : Z) (A : list Z) (s : Z),
    ~ In (GROUP_SEPARATOR h) cells ->
    find_separators h cells j A s = Val A.
Proof.
  induction cells as [|c cells IH]; intros j A s Hno; [reflexivity|].
  simpl. destruct (Ascii.eqb_spec c (GROUP_SEPARATOR h)) as [E|_].
  - exfalso. apply Hno. now left.
  - apply IH. intro Hin. apply Hno. now right.
Qed.

Lemma find_separators_app (x y : list ascii) :
  forall (j : Z) (A : list Z) (s : Z),
    ~ In (GROUP_SEPARATOR h) x ->
    find_separators h (x ++ y) j A s
    = find_separators h y (j + len x) A s.
Proof.
  induction x as [|c x IH]; intros j A s Hno.
  - simpl. f_equal. change (len (@nil ascii)) with 0. lia.
  - simpl app. simpl find_separators.
    destruct (Ascii.eqb_spec c (GROUP_SEPARATOR h)) as [E|_].
    + exfalso. apply Hno. now left.
    + rewrite IH by (intro Hin; apply Hno; now right).
      rewrite len_cons. f_equal. lia.
Qed.

Lemma find_separators_sep (rest : list ascii) (j : Z) (A : list Z) (s : Z) :
  find_separators h (GROUP_SEPARATOR h :: rest) j A s
  = (a <- store A s j ;; find_separators h rest (j + 1) a (s + 1)).
Proof.
  cbn [find_separators]. rewrite Ascii.eqb_refl. reflexivity.
Qed.

Lemma store_other (A : Type) (a a' : list A) (i : Z) (v : A) (n : nat) :
  store a i v = Val a' -> Z.of_nat n <> i -> nth_error a' n = nth_error a n.
Proof.
  unfold store. destruct ((0 <=? i) && (i <? len a)) eqn:E; [|discriminate].
  intros H Hn. injection H as <-.
  apply andb_prop in E. destruct E as [E1 E2].
  apply Z.leb_le in E1. apply Z.ltb_lt in E2. unfold len in E2.
  destruct (Nat.lt_ge_cases n (Z.to_nat i)) as [Hlt|Hge].
  - rewrite nth_error_app1 by (rewrite length_firstn; lia).
    rewrite nth_error_firstn.
    replace (n <? Z.to_nat i)%nat with true
      by (symmetry; apply Nat.ltb_lt; exact Hlt).
    reflexivity.
  - rewrite nth_error_app2 by (rewrite length_firstn; lia).
    rewrite length_firstn.
    replace (Nat.min (Z.to_nat i) (List.length a)) with (Z.to_nat i) by lia.
    destruct (n - Z.to_nat i)%nat as [|m] eqn:Em; [lia|].
    simpl. rewrite nth_error_skipn. f_equal. lia.
Qed.

Lemma store_same (A : Type) (a a' : list A) (i : Z) (v : A) :
  store a i v = Val a' -> load a' i = Val v.
Proof.
  unfold store. destruct ((0 <=? i) && (i <? len a)) eqn:E; [|discriminate].
  intro H. injection H as <-.
  apply andb_prop in E. destruct E as [E1 E2].
  apply Z.leb_le in E1. apply Z.ltb_lt in E2. unfold len in E2.
  unfold load.
  replace (i <? 0) with false by (symmetry; apply Z.ltb_ge; lia).
  rewrite nth_error_app2 by (rewrite length_firstn; lia).
  rewrite length_firstn.
  replace (Z.to_nat i - Nat.min (Z.to_nat i) (List.length a))%nat
    with 0%nat by lia.
  reflexivity.
Qed.

Lemma load_eq (A : Type) (a a' : list A) (i : Z) :
  nth_error a' (Z.to_nat i) = nth_error a (Z.to_nat i) ->
  load a' i = load a i.
Proof.
  intro E. unfold load. rewrite E. reflexivity.
Qed.

(** The loop writes at [s] and above only. *)
Lemma find_separators_keeps (cells : list ascii) :
  forall (j : Z) (A A' : list Z) (s : Z),
    0 <= s ->
    find_separators h cells j A s = Val A' ->
    forall n, Z.of_nat n < s -> nth_error A' n = nth_error A n.
Proof.
  induction cells as [|c cells IH]; intros j A A' s Hs E n Hn.
  - simpl in E. now injection E as <-.
  - simpl in E. destruct (Ascii.eqb c (GROUP_SEPARATOR h)).
    + destruct (store A s j) as [|A1] eqn:E1; [discriminate|].
      cbn [bind] in E.
      assert (Hs1 : 0 <= s + 1) by lia.
      assert (Hn1 : Z.of_nat n < s + 1) by lia.
      rewrite (IH _ _ _ _ Hs1 E n Hn1).
      apply (store_other _ _ _ _ _ _ E1). lia.
    + apply (IH _ _ _ _ Hs E n Hn).
Qed.

(** A content with two separators or more: the first two cells of
    [separatorIndex] hold their indices, whatever comes next. *)
Lemma find_separators_two (l v k : list ascii) (j : Z) (size : nat)
    (A' : list Z) :
  START_OF_GROUP h <> GROUP_SEPARATOR h ->
  ~ In (GROUP_SEPARATOR h) l ->
  ~ In (GROUP_SEPARATOR h) v ->
  find_separators h
    (START_OF_GROUP h :: l ++ GROUP_SEPARATOR h :: v
       ++ GROUP_SEPARATOR h :: k) j (repeat 0 size) 0 = Val A' ->
  load A' 0 = Val (j + 1 + len l)
  /\ load A' 1 = Val (j + 1 + len l + 1 + len v).
Proof.
  intros Hne Hl Hv E.
  change (START_OF_GROUP h :: l ++ GROUP_SEPARATOR h :: v
            ++ GROUP_SEPARATOR h :: k)
    with ((START_OF_GROUP h :: l) ++ GROUP_SEPARATOR h :: v
            ++ GROUP_SEPARATOR h :: k) in E.
  rewrite find_separators_app in E.
  2:{ intros [Hin|Hin]; [now apply Hne|now apply Hl]. }
  rewrite len_cons in E. rewrite find_separators_sep in E.
  destruct (store (repeat 0 size) 0 (j + (1 + len l))) as [|A1] eqn:E1;
    [discriminate|].
  cbn [bind] in E. rewrite find_separators_app in E by exact Hv.
  rewrite find_separators_sep in E.
  destruct (store A1 (0 + 1) (j + (1 + len l) + 1 + len v)) as [|A2] eqn:E2;
    [discriminate|].
  cbn [bind] in E.
  assert (H2 : 0 <= 0 + 1 + 1) by lia.
  pose proof (find_separators_keeps _ _ _ _ _ H2 E) as K.
  split.
  - rewrite (load_eq _ A2 A' 0) by (apply K; simpl; lia).
    rewrite (load_eq _ A1 A2 0)
      by (apply (store_other _ _ _ _ _ _ E2); simpl; lia).
    rewrite (store_same _ _ _ _ _ E1). f_equal. lia.
  - rewrite (load_eq _ A2 A' 1) by (apply K; simpl; lia).
    change 1 with (0 + 1) at 1. rewrite (store_same _ _ _ _ _ E2).
    f_equal. lia.
Qed.

(** The loop succeeds when the separators fit [separatorIndex]. *)
Lemma find_separators_fits (cells : list ascii) :
  forall (j : Z) (A : list Z) (s : Z),
    0 <= s ->
    s + Z.of_nat (count (GROUP_SEPARATOR h) cells) <= len A ->
    exists A', find_separators h cells j A s = Val A'.
Proof.
  induction cells as [|c cells IH]; intros j A s Hs Hfit.
  - eexists. reflexivity.
  - cbn [find_separators].
    destruct (Ascii.eqb_spec c (GROUP_SEPARATOR h)) as [E|E].
    + subst c. rewrite count_cons_eq in Hfit.
      destruct (store_in_range _ A s j) as [A1 E1]; [lia|].
      rewrite E1. cbn [bind]. apply IH; [lia|].
      unfold len in *. rewrite (store_length _ _ _ _ _ E1). lia.
    + rewrite count_cons_neq in Hfit by exact E. now apply IH.
Qed.

Lemma find_separators_two_ok (l v k : list ascii) (j : Z) (size : nat) :
  START_OF_GROUP h <> GROUP_SEPARATOR h ->
  ~ In (GROUP_SEPARATOR h) l ->
  ~ In (GROUP_SEPARATOR h) v ->
  (2 + count (GROUP_SEPARATOR h) k <= size)%nat ->
  exists A',
    find_separators h
      (START_OF_GROUP h :: l ++ GROUP_SEPARATOR h :: v
         ++ GROUP_SEPARATOR h :: k) j (repeat 0 size) 0 = Val A'.
Proof.
  intros Hne Hl Hv Hsize.
  change (START_OF_GROUP h :: l ++ GROUP_SEPARATOR h :: v
            ++ GROUP_SEPARATOR h :: k)
    with ((START_OF_GROUP h :: l) ++ GROUP_SEPARATOR h :: v
            ++ GROUP_SEPARATOR h :: k).
  rewrite find_separators_app.
  2:{ intros [Hin|Hin]; [now apply Hne|now apply Hl]. }
  rewrite find_separators_sep.
  destruct (store_in_range _ (repeat 0 size) 0 (j + len (START_OF_GROUP h :: l)))
    as [A1 E1]; [unfold len; rewrite repeat_length; lia|].
  rewrite E1. cbn [bind]. rewrite find_separators_app by exact Hv.
  rewrite find_separators_sep.
  pose proof (store_length _ _ _ _ _ E1) as L1. rewrite repeat_length in L1.
  destruct (store_in_range _ A1 (0 + 1)
              (j + len (START_OF_GROUP h :: l) + 1 + len v))
    as [A2 E2]; [unfold len; lia|].
  rewrite E2. cbn [bind].
  pose proof (store_length _ _ _ _ _ E2) as L2.
  apply find_separators_fits; [lia|]. unfold len. lia.
Qed.

(** Fewer than two separators: the second cell keeps its zero, and the
    first one too when there is no separator. *)
Lemma find_separators_one (l v : list ascii) (j : Z) (size : nat) :
  START_OF_GROUP h <> GROUP_SEPARATOR h ->
  ~ In (GROUP_SEPARATOR h) l ->
  ~ In (GROUP_SEPARATOR h) v ->
  (2 <= size)%nat ->
  exists A',
    find_separators h (START_OF_GROUP h :: l ++ GROUP_SEPARATOR h :: v) j
      (repeat 0 size) 0 = Val A'
    /\ load A' 0 = Val (j + 1 + len l) /\ load A' 1 = Val 0.
Proof.
  intros Hne Hl Hv Hsize.
  change (START_OF_GROUP h :: l ++ GROUP_SEPARATOR h :: v)
    with ((START_OF_GROUP h :: l) ++ GROUP_SEPARATOR h :: v).
  rewrite find_separators_app.
  2:{ intros [Hin|Hin]; [now apply Hne|now apply Hl]. }
  rewrite find_separators_sep.
  destruct (store_in_range _ (repeat 0 size) 0 (j + len (START_OF_GROUP h :: l)))
    as [A1 E1]; [unfold len; rewrite repeat_length; lia|].
  rewrite E1. cbn [bind]. rewrite find_separators_none by exact Hv.
  exists A1. split; [reflexivity|]. split.
  - rewrite (store_same _ _ _ _ _ E1). rewrite len_cons. f_equal. lia.
  - rewrite (load_eq _ (repeat 0 size) A1 1)
      by (apply (store_other _ _ _ _ _ _ E1); simpl; lia).
    destruct size as [|[|size]]; try lia. reflexivity.
Qed.

End Separators.

(** *** Third step: the three copies *)

Section Field.

Variable h : linky_h.

Lemma memcpy_too_long (dst src : list ascii) (off n : Z) :
  len dst < n -> memcpy dst src off n = Fault.
Proof.
  intro Hn. unfold memcpy.
  replace (n <=? len dst) with false by (symmetry; apply Z.leb_gt; lia).
  rewrite andb_false_r. reflexivity.
Qed.

Lemma memcpy_copy (cap : nat) (P m Q : list ascii) :
  memcpy (zeros cap) (P ++ m ++ Q) (len P) (len m) = copy cap m.
Proof.
  unfold copy. destruct (Z.leb_spec (len m) (Z.of_nat cap)) as [Hle|Hgt].
  - rewrite memcpy_slice by (unfold len at 2; rewrite length_zeros; lia).
    rewrite skipn_zeros. reflexivity.
  - apply memcpy_too_long. unfold len at 1. rewrite length_zeros. lia.
Qed.

Lemma cells_between_group (a c b : list ascii) :
  cells_between (a ++ group_bytes h c ++ b) (len a) (len a + len c + 1)
  = START_OF_GROUP h :: c.
Proof.
  unfold cells_between, len. rewrite Nat2Z.id, skipn_len_app.
  replace (Z.to_nat (Z.of_nat (List.length a) + Z.of_nat (List.length c) + 1
                     - Z.of_nat (List.length a)))
    with (List.length (START_OF_GROUP h :: c)) by (simpl List.length; lia).
  unfold group_bytes.
  replace ((START_OF_GROUP h :: c ++ [END_OF_GROUP h]) ++ b)
    with ((START_OF_GROUP h :: c) ++ ([END_OF_GROUP h] ++ b))
    by (simpl; rewrite <- app_assoc; reflexivity).
  apply firstn_len_app.
Qed.

Lemma split_at_first (x : ascii) (c : list ascii) :
  In x c -> exists l r, c = l ++ x :: r /\ ~ In x l.
Proof.
  induction c as [|y c IH]; intro Hin; [destruct Hin|].
  destruct (Ascii.eqb_spec y x) as [E|E].
  - subst y. exists [], c. split; [reflexivity|intros []].
  - destruct Hin as [Hy|Hin]; [contradiction|].
    destruct (IH Hin) as [l [r [-> Hl]]].
    exists (y :: l), r. split; [reflexivity|].
    intros [Hy|Hy]; [contradiction|now apply Hl].
Qed.

(** A group with fewer than two separators: a cell of [separatorIndex]
    keeps its zero, the length of a copy wraps around and the copy leaves
    its array. *)
Lemma decode_field_few_separators (a c b : list ascii) (size : nat)
    (d : LinkyData) :
  START_OF_GROUP h <> GROUP_SEPARATOR h ->
  (count (GROUP_SEPARATOR h) c < 2)%nat ->
  (2 <= size)%nat ->
  len a + len c + 2 <= INT_MAX ->
  decode_field h (a ++ group_bytes h c ++ b) (len a) (len a + len c + 1)
    size d = Fault.
Proof.
  intros Hne Hcount Hsize Hlen.
  unfold decode_field. rewrite cells_between_group.
  pose proof (len_nonneg a) as Ha. pose proof (len_nonneg c) as Hc.
  unfold INT_MAX in Hlen.
  destruct (in_dec ascii_dec (GROUP_SEPARATOR h) c) as [Hin|Hno].
  - destruct (split_at_first _ _ Hin) as [l [v [-> Hl]]].
    assert (Hv : ~ In (GROUP_SEPARATOR h) v).
    { apply count_none. rewrite count_app, count_cons_eq in Hcount. lia. }
    destruct (find_separators_one h l v (len a) size Hne Hl Hv Hsize)
      as [A' [E [L0 L1]]].
    rewrite E. cbn [bind]. rewrite L0, L1. cbn [bind].
    destruct (memcpy (zeros 10) _ (len a + 1) _); [reflexivity|].
    cbn [bind]. rewrite memcpy_too_long; [reflexivity|].
    unfold len at 1. rewrite length_zeros.
    rewrite len_app, len_cons in Hlen. pose proof (len_nonneg l).
    pose proof (len_nonneg v).
    unfold uint.
    replace (0 - (len a + 1 + len l) - 1)
      with ((4294967296 - (len a + 1 + len l) - 1) + (-1) * 4294967296)
      by lia.
    rewrite Z.mod_add by lia. rewrite Z.mod_small by lia. lia.
  - rewrite find_separators_none.
    2:{ intros [Hx|Hx]; [now apply Hne|now apply Hno]. }
    cbn [bind].
    destruct size as [|[|size]]; try lia.
    cbn [repeat load nth_error Z.to_nat Z.ltb Z.compare bind].
    change (load (0 :: 0 :: repeat 0 size) 0) with (@Val Z 0).
    change (load (0 :: 0 :: repeat 0 size) 1) with (@Val Z 0).
    cbn [bind].
    rewrite memcpy_too_long; [reflexivity|].
    unfold len at 1. rewrite length_zeros.
    unfold uint.
    replace (0 - len a - 1)
      with ((4294967296 - len a - 1) + (-1) * 4294967296) by lia.
    rewrite Z.mod_add by lia. rewrite Z.mod_small by lia. lia.
Qed.

(** A group with two separators at least, once the separator loop is
    through: the three copies take the texts between the markers. *)
Lemma decode_field_two (a l v k b : list ascii) (size : nat) (A' : list Z)
    (d : LinkyData) :
  START_OF_GROUP h <> GROUP_SEPARATOR h ->
  ~ In (GROUP_SEPARATOR h) l ->
  ~ In (GROUP_SEPARATOR h) v ->
  len a + len (l ++ GROUP_SEPARATOR h :: v ++ GROUP_SEPARATOR h :: k) + 2
    <= INT_MAX ->
  find_separators h
    (START_OF_GROUP h :: l ++ GROUP_SEPARATOR h :: v
       ++ GROUP_SEPARATOR h :: k) (len a) (repeat 0 size) 0 = Val A' ->
  decode_field h
    (a ++ group_bytes h (l ++ GROUP_SEPARATOR h :: v
                           ++ GROUP_SEPARATOR h :: k) ++ b)
    (len a)
    (len a + len (l ++ GROUP_SEPARATOR h :: v ++ GROUP_SEPARATOR h :: k) + 1)
    size d
  = (label <- copy 10 l ;;
     value <- copy 20 v ;;
     checksum_ <- copy 5 k ;;
     label_s <- c_str label ;;
     value_s <- c_str value ;;
     checksum_0 <- load checksum_ 0 ;;
     if Ascii.eqb (checksum (GROUP_SEPARATOR h) label_s value_s) checksum_0
     then dispatch h label_s value_s d
     else Val d).
Proof.
  intros Hne Hl Hv Hlen E.
  unfold decode_field. rewrite cells_between_group. rewrite E. cbn [bind].
  destruct (find_separators_two h l v k (len a) size A' Hne Hl Hv E)
    as [L0 L1].
  rewrite L0, L1. cbn [bind].
  set (frame := a ++ group_bytes h (l ++ GROUP_SEPARATOR h :: v
                                      ++ GROUP_SEPARATOR h :: k) ++ b).
  rewrite !len_app, !len_cons, !len_app, !len_cons in *.
  pose proof (len_nonneg a). pose proof (len_nonneg l).
  pose proof (len_nonneg v). pose proof (len_nonneg k).
  unfold INT_MAX in Hlen.
  replace (uint (len a + 1 + len l - len a - 1)) with (len l)
    by (rewrite uint_small by (unfold UINT_MAX; lia); lia).
  replace (uint (len a + 1 + len l + 1 + len v - (len a + 1 + len l) - 1))
    with (len v) by (rewrite uint_small by (unfold UINT_MAX; lia); lia).
  replace (uint (len a + (len l + (1 + (len v + (1 + len k)))) + 1
                 - (len a + 1 + len l + 1 + len v) - 1))
    with (len k) by (rewrite uint_small by (unfold UINT_MAX; lia); lia).
  assert (M1 : memcpy (zeros 10) frame (len a + 1) (len l) = copy 10 l).
  { replace frame
      with ((a ++ [START_OF_GROUP h]) ++ l
              ++ (GROUP_SEPARATOR h :: v ++ GROUP_SEPARATOR h :: k
                    ++ [END_OF_GROUP h] ++ b)).
    - replace (len a + 1) with (len (a ++ [START_OF_GROUP h]))
        by (rewrite len_app; reflexivity).
      apply memcpy_copy.
    - unfold frame, group_bytes. simpl. rewrite <- !app_assoc. simpl.
      rewrite <- !app_assoc. reflexivity. }
  assert (M2 : memcpy (zeros 20) frame (len a + 1 + len l + 1) (len v)
               = copy 20 v).
  { replace frame
      with ((a ++ [START_OF_GROUP h] ++ l ++ [GROUP_SEPARATOR h]) ++ v
              ++ (GROUP_SEPARATOR h :: k ++ [END_OF_GROUP h] ++ b)).
    - replace (len a + 1 + len l + 1)
        with (len (a ++ [START_OF_GROUP h] ++ l ++ [GROUP_SEPARATOR h]))
        by (rewrite !len_app; change (len [START_OF_GROUP h]) with 1;
            change (len [GROUP_SEPARATOR h]) with 1; lia).
      apply memcpy_copy.
    - unfold frame, group_bytes. simpl. rewrite <- !app_assoc. simpl.
      rewrite <- !app_assoc. reflexivity. }
  assert (M3 : memcpy (zeros 5) frame (len a + 1 + len l + 1 + len v + 1)
                 (len k) = copy 5 k).
  { replace frame
      with ((a ++ [START_OF_GROUP h] ++ l ++ [GROUP_SEPARATOR h] ++ v
               ++ [GROUP_SEPARATOR h]) ++ k ++ ([END_OF_GROUP h] ++ b)).
    - replace (len a + 1 + len l + 1 + len v + 1)
        with (len (a ++ [START_OF_GROUP h] ++ l ++ [GROUP_SEPARATOR h] ++ v
                     ++ [GROUP_SEPARATOR h]))
        by (rewrite !len_app; change (len [START_OF_GROUP h]) with 1;
            change (len [GROUP_SEPARATOR h]) with 1; lia).
      apply memcpy_copy.
    - unfold frame, group_bytes. simpl. rewrite <- !app_assoc. simpl.
      rewrite <- !app_assoc. simpl. rewrite <- !app_assoc. reflexivity. }
  rewrite M1, M2, M3. reflexivity.
Qed.

End Field.

(** *** The loop over the groups of a frame *)

Section Loop.

Variable h : linky_h.

Lemma starts_nth (done todo : list (list ascii)) (c : list ascii) :
  forall i,
    nth_error (starts i (done ++ c :: todo)) (List.length done)
    = Some (i + len (List.concat (map (group_bytes h) done))).
Proof.
  induction done as [|x done IH]; intro i.
  - simpl. f_equal. change (len (@nil ascii)) with 0. lia.
  - cbn [app starts List.length nth_error]. rewrite IH.
    rewrite concat_groups_cons, len_app, len_group_bytes. f_equal. lia.
Qed.

Lemma ends_nth (done todo : list (list ascii)) (c : list ascii) :
  forall i,
    nth_error (ends i (done ++ c :: todo)) (List.length done)
    = Some (i + len (List.concat (map (group_bytes h) done)) + len c + 1).
Proof.
  induction done as [|x done IH]; intro i.
  - simpl. f_equal. change (len (@nil ascii)) with 0. lia.
  - cbn [app ends List.length nth_error]. rewrite IH.
    rewrite concat_groups_cons, len_app, len_group_bytes. f_equal. lia.
Qed.

Lemma frame_of_split (done todo : list (list ascii)) (c : list ascii) :
  frame_of h (done ++ c :: todo)
  = frame_bytes h done ++ group_bytes h c
      ++ (List.concat (map (group_bytes h) todo)
            ++ zeros (200 - List.length
                              (frame_bytes h (done ++ c :: todo)))).
Proof.
  unfold frame_of. unfold frame_bytes at 1 3.
  rewrite map_app, concat_app. cbn [map List.concat].
  rewrite <- !app_comm_cons, <- !app_assoc. reflexivity.
Qed.

(** Group number [length done] of the frame is handled as a field standing
    between the groups before it and the groups after it. *)
Lemma decode_group_in_frame (done todo : list (list ascii)) (c : list ascii)
    (d : LinkyData) :
  len (frame_bytes h (done ++ c :: todo)) <= 200 ->
  decode_group h (frame_of h (done ++ c :: todo))
    (groups_of h (starts 1 (done ++ c :: todo))
       (ends 1 (done ++ c :: todo)))
    (len done) d
  = decode_field h
      (frame_bytes h done ++ group_bytes h c
         ++ (List.concat (map (group_bytes h) todo)
               ++ zeros (200 - List.length
                                 (frame_bytes h (done ++ c :: todo)))))
      (len (frame_bytes h done))
      (len (frame_bytes h done) + len c + 1)
      (S (List.length (done ++ c :: todo))) d.
Proof.
  intro Hfit. unfold decode_group.
  cbn [groups_of startOfGroup endOfGroup startOfGroupIndex].
  unfold len at 1 2.
  rewrite (filled_load h _ _ _ (starts_nth done todo c 1)).
  rewrite (filled_load h _ _ _ (ends_nth done todo c 1)).
  cbn [bind]. rewrite frame_of_split.
  assert (Hn : len (done ++ c :: todo) < 200).
  { pose proof (groups_longer h (done ++ c :: todo)).
    unfold frame_bytes in Hfit. rewrite len_cons in Hfit. lia. }
  replace (Z.to_nat (uint (len (starts 1 (done ++ c :: todo)) + 1)))
    with (S (List.length (done ++ c :: todo))).
  2:{ unfold len in *. rewrite starts_length.
      rewrite uint_small by (unfold UINT_MAX; lia). lia. }
  replace (len (frame_bytes h done))
    with (1 + len (List.concat (map (group_bytes h) done)))
    by (unfold frame_bytes; rewrite len_cons; reflexivity).
  reflexivity.
Qed.

(** When the body of the loop leaves the defined behaviour for one group,
    so does the loop. *)
Lemma decode_groups_fault (frame : list ascii) (g : groups) (n : nat) :
  forall (k : nat) (i : Z) (d : LinkyData),
    (k < n)%nat ->
    (forall d', decode_group h frame g (i + Z.of_nat k) d' = Fault) ->
    decode_groups h frame g n i d = Fault.
Proof.
  induction n as [|n IH]; intros k i d Hk Hf; [lia|].
  simpl. destruct k as [|k].
  - replace (i + Z.of_nat 0) with i in Hf by lia. rewrite Hf. reflexivity.
  - destruct (decode_group h frame g i d) as [|d1]; [reflexivity|].
    cbn [bind]. apply (IH k); [lia|].
    intro d'. replace (i + 1 + Z.of_nat k) with (i + Z.of_nat (S k)) by lia.
    apply Hf.
Qed.

End Loop.

(** *** C strings in the arrays *)

Lemma c_str_text (m : list ascii) (n : nat) :
  ~ In NUL m -> c_str (m ++ zeros (S n)) = Val (string_of_list_ascii m).
Proof.
  induction m as [|c m IH]; intro Hno.
  - reflexivity.
  - cbn [app c_str string_of_list_ascii].
    destruct (Ascii.eqb_spec c NUL) as [E|_].
    + exfalso. apply Hno. now left.
    + rewrite IH by (intro Hin; apply Hno; now right). reflexivity.
Qed.

Lemma c_str_unterminated (m : list ascii) : ~ In NUL m -> c_str m = Fault.
Proof.
  induction m as [|c m IH]; intro Hno; [reflexivity|].
  cbn [c_str]. destruct (Ascii.eqb_spec c NUL) as [E|_].
  - exfalso. apply Hno. now left.
  - rewrite IH by (intro Hin; apply Hno; now right). reflexivity.
Qed.

Lemma copy_short (cap : nat) (m : list ascii) :
  (List.length m < cap)%nat ->
  copy cap m = Val (m ++ zeros (S (cap - List.length m - 1))).
Proof.
  intro Hlt. unfold copy.
  replace (len m <=? Z.of_nat cap) with true
    by (symmetry; apply Z.leb_le; unfold len; lia).
  do 3 f_equal. lia.
Qed.

(** The copy of a text that overruns its array leaves the array, or the
    array is left without terminator. *)
Lemma copy_long (cap : nat) (m : list ascii) :
  overruns cap m -> (a <- copy cap m ;; c_str a) = Fault.
Proof.
  intros [Hgt|[Heq Hno]]; unfold copy.
  - replace (len m <=? Z.of_nat cap) with false
      by (symmetry; apply Z.leb_gt; unfold len; lia).
    reflexivity.
  - replace (len m <=? Z.of_nat cap) with true
      by (symmetry; apply Z.leb_le; unfold len; lia).
    cbn [bind]. replace (cap - List.length m)%nat with 0%nat by lia.
    cbn [zeros repeat]. rewrite app_nil_r. now apply c_str_unterminated.
Qed.

Lemma length_chars (s : string) :
  List.length (list_ascii_of_string s) = String.length s.
Proof.
  induction s as [|c s IH]; simpl; auto.
Qed.

Section FieldCases.

Variable h : linky_h.

(** A label of 10 bytes or more and a value of 20 bytes or more are
    copied whole, not cut. *)
Lemma decode_field_long (a l v k b : list ascii) (size : nat)
    (d : LinkyData) :
  START_OF_GROUP h <> GROUP_SEPARATOR h ->
  ~ In (GROUP_SEPARATOR h) l ->
  ~ In (GROUP_SEPARATOR h) v ->
  len a + len (l ++ GROUP_SEPARATOR h :: v ++ GROUP_SEPARATOR h :: k) + 2
    <= INT_MAX ->
  overruns 10 l \/ overruns 20 v ->
  decode_field h
    (a ++ group_bytes h (l ++ GROUP_SEPARATOR h :: v
                           ++ GROUP_SEPARATOR h :: k) ++ b)
    (len a)
    (len a + len (l ++ GROUP_SEPARATOR h :: v ++ GROUP_SEPARATOR h :: k) + 1)
    size d
  = Fault.
Proof.
  intros Hne Hl Hv Hlen Hlong.
  destruct (find_separators h
              (START_OF_GROUP h :: l ++ GROUP_SEPARATOR h :: v
                 ++ GROUP_SEPARATOR h :: k) (len a) (repeat 0 size) 0)
    as [|A'] eqn:E.
  - unfold decode_field. rewrite cells_between_group, E. reflexivity.
  - rewrite (decode_field_two h a l v k b size A' d Hne Hl Hv Hlen E).
    destruct Hlong as [Hlong|Hlong].
    + pose proof (copy_long 10 l Hlong) as C.
      destruct (copy 10 l) as [|label]; [reflexivity|]. cbn [bind] in *.
      destruct (copy 20 v) as [|value]; [reflexivity|]. cbn [bind].
      destruct (copy 5 k) as [|chk]; [reflexivity|]. cbn [bind].
      rewrite C. reflexivity.
    + pose proof (copy_long 20 v Hlong) as C.
      destruct (copy 10 l) as [|label]; [reflexivity|]. cbn [bind].
      destruct (copy 20 v) as [|value]; [reflexivity|]. cbn [bind] in *.
      destruct (copy 5 k) as [|chk]; [reflexivity|]. cbn [bind].
      destruct (c_str label) as [|label_s]; [reflexivity|]. cbn [bind].
      rewrite C. reflexivity.
Qed.

(** A field within the sizes of the arrays: the label and the value reach
    the checksum test as they stand in the group. *)
Lemma decode_field_fits (a b : list ascii) (label value : string)
    (chk : ascii) (size : nat) (d : LinkyData) :
  START_OF_GROUP h <> GROUP_SEPARATOR h ->
  ~ In (GROUP_SEPARATOR h) (list_ascii_of_string label) ->
  ~ In (GROUP_SEPARATOR h) (list_ascii_of_string value) ->
  ~ In NUL (list_ascii_of_string label) ->
  ~ In NUL (list_ascii_of_string value) ->
  (String.length label <= 9)%nat ->
  (String.length value <= 19)%nat ->
  (2 + count (GROUP_SEPARATOR h) [chk] <= size)%nat ->
  len a + len (field_bytes h label value chk) + 2 <= INT_MAX ->
  decode_field h (a ++ group_bytes h (field_bytes h label value chk) ++ b)
    (len a) (len a + len (field_bytes h label value chk) + 1) size d
  = if Ascii.eqb (checksum (GROUP_SEPARATOR h) label value) chk
    then dispatch h label value d
    else Val d.
Proof.
  intros Hne Hl Hv Hln Hvn Hll Hlv Hsize Hlen.
  unfold field_bytes in *.
  destruct (find_separators_two_ok h (list_ascii_of_string label)
              (list_ascii_of_string value) [chk] (len a) size Hne Hl Hv
              Hsize)
    as [A' E].
  rewrite (decode_field_two h a _ _ [chk] b size A' d Hne Hl Hv Hlen E).
  rewrite copy_short by (rewrite length_chars; lia).
  cbn [bind].
  rewrite copy_short by (rewrite length_chars; lia).
  cbn [bind].
  rewrite c_str_text by exact Hln. rewrite c_str_text by exact Hvn.
  rewrite !string_of_list_ascii_of_string.
  reflexivity.
Qed.

End FieldCases.

(** *** Frames with a group that the third step cannot handle *)

Lemma len_frame_bytes_split (h : linky_h) (done todo : list (list ascii))
    (c : list ascii) :
  len (frame_bytes h done) + len c + 2 <= len (frame_bytes h (done ++ c :: todo)).
Proof.
  unfold frame_bytes. rewrite !len_cons, map_app, concat_app, len_app.
  rewrite concat_groups_cons, len_app, len_group_bytes.
  pose proof (len_nonneg (List.concat (map (group_bytes h) todo))). lia.
Qed.

Lemma decode_fault_group (h : linky_h) (rxBytes : Z) (pre post : list ascii)
    (contents : list (list ascii)) (c : list ascii) :
  header_ok h = true ->
  no_frame_in h pre ->
  frame_plain h contents ->
  len (buffer_of h pre contents post) <= INT_MAX ->
  len (frame_bytes h contents) <= FRAME_SIZE h ->
  (List.length contents <= GROUP_COUNT h)%nat ->
  In c contents ->
  (forall a b d,
      len a + len c + 2 <= INT_MAX ->
      decode_field h (a ++ group_bytes h c ++ b) (len a)
        (len a + len c + 1) (S (List.length contents)) d = Fault) ->
  decode h rxBytes (buffer_of h pre contents post) = Fault.
Proof.
  intros Hok Hpre Hplain Hlen Hfit Hgc Hin Hfault.
  pose proof (header_ok_facts h Hok) as F.
  pose proof (frame_size_200 h F) as H200.
  rewrite decode_buffer_contents; auto.
  2:{ intro E. subst contents. destruct Hin. }
  apply in_split in Hin. destruct Hin as [done [todo ->]].
  rewrite (decode_groups_fault h _ _ _ (List.length done) 0 data_reset);
    [reflexivity| |].
  - rewrite length_app. simpl. lia.
  - intro d'. change (0 + Z.of_nat (List.length done)) with (len done).
    rewrite decode_group_in_frame by lia.
    apply Hfault.
    pose proof (len_frame_bytes_split h done todo c).
    unfold INT_MAX. lia.
Qed.

(** A group with fewer than two separator bytes is not skipped: the
    cell of [separatorIndex] that got no index reads as zero, the length
    handed to [memcpy] wraps around to more than 4e9, and the copy leaves
    the array.  decode has no defined result then, whatever the other
    groups of the frame hold. *)
Theorem decode_few_separators_undefined (h : linky_h) (rxBytes : Z)
    (pre post : list ascii) (contents : list (list ascii)) (c : list ascii) :
  header_ok h = true ->
  ~ In (START_OF_FRAME h) pre ->
  frame_plain h contents ->
  len (buffer_of h pre contents post) <= INT_MAX ->
  len (frame_bytes h contents) <= FRAME_SIZE h ->
  (List.length contents <= GROUP_COUNT h)%nat ->
  In c contents ->
  (count (GROUP_SEPARATOR h) c < 2)%nat ->
  decode h rxBytes (buffer_of h pre contents post) = Fault.
Proof.
  intros Hok Hpre Hplain Hlen Hfit Hgc Hin Hcount.
  pose proof (header_ok_facts h Hok) as F.
  apply (decode_fault_group h rxBytes pre post contents c); auto.
  - now apply no_start_no_frame.
  - intros a b d Ha. apply decode_field_few_separators; auto.
    + apply F.
    + destruct contents; [destruct Hin|simpl; lia].
Qed.

(** A label text that overruns [label] (more than 10 bytes, or 10
    bytes without NUL) or a value text that overruns [value] (more than 20
    bytes, or 20 bytes without NUL) is not cut to the size of its array:
    [memcpy] gets the whole length, the copy leaves the array, or fills it
    up to the last cell so that no NUL ends the string.  decode has no
    defined result then, whatever the other groups of the frame hold. *)
Theorem decode_long_text_undefined (h : linky_h) (rxBytes : Z)
    (pre post : list ascii) (contents : list (list ascii))
    (l v k : list ascii) :
  header_ok h = true ->
  ~ In (START_OF_FRAME h) pre ->
  frame_plain h contents ->
  len (buffer_of h pre contents post) <= INT_MAX ->
  len (frame_bytes h contents) <= FRAME_SIZE h ->
  (List.length contents <= GROUP_COUNT h)%nat ->
  In (l ++ GROUP_SEPARATOR h :: v ++ GROUP_SEPARATOR h :: k) contents ->
  ~ In (GROUP_SEPARATOR h) l ->
  ~ In (GROUP_SEPARATOR h) v ->
  overruns 10 l \/ overruns 20 v ->
  decode h rxBytes (buffer_of h pre contents post) = Fault.
Proof.
  intros Hok Hpre Hplain Hlen Hfit Hgc Hin Hl Hv Hlong.
  pose proof (header_ok_facts h Hok) as F.
  apply (decode_fault_group h rxBytes pre post contents
           (l ++ GROUP_SEPARATOR h :: v ++ GROUP_SEPARATOR h :: k)); auto.
  - now apply no_start_no_frame.
  - intros a b d Ha. apply decode_field_long; auto. apply F.
Qed.

(** *** Frames made of fields *)

Section Fields.

Variable h : linky_h.
Hypothesis Hok : header_ok h = true.

Lemma text_char_facts (c : ascii) :
  text_char h c = true ->
  c <> START_OF_FRAME h /\ c <> END_OF_FRAME h /\ c <> START_OF_GROUP h
  /\ c <> END_OF_GROUP h /\ c <> GROUP_SEPARATOR h /\ c <> NUL.
Proof.
  unfold text_char, is_marker. intro H.
  destruct (Ascii.eqb_spec c (START_OF_FRAME h)); [discriminate|].
  destruct (Ascii.eqb_spec c (END_OF_FRAME h)); [discriminate|].
  destruct (Ascii.eqb_spec c (START_OF_GROUP h)); [discriminate|].
  destruct (Ascii.eqb_spec c (END_OF_GROUP h)); [discriminate|].
  destruct (Ascii.eqb_spec c (GROUP_SEPARATOR h)); [discriminate|].
  destruct (Ascii.eqb_spec c NUL); [discriminate|].
  repeat split; assumption.
Qed.

Lemma text_not_in (s : string) (x : ascii) :
  text h s = true ->
  x = START_OF_FRAME h \/ x = END_OF_FRAME h \/ x = START_OF_GROUP h
  \/ x = END_OF_GROUP h \/ x = GROUP_SEPARATOR h \/ x = NUL ->
  ~ In x (list_ascii_of_string s).
Proof.
  unfold text. intros Ht Hx Hin.
  rewrite forallb_forall in Ht. specialize (Ht x Hin).
  apply text_char_facts in Ht.
  destruct Ht as [H1 [H2 [H3 [H4 [H5 H6]]]]].
  destruct Hx as [E|[E|[E|[E|[E|E]]]]]; contradiction.
Qed.

Lemma field_ok_facts (label value : string) (chk : ascii) :
  field_ok h (label, value, chk) = true ->
  text h label = true /\ text h value = true
  /\ (String.length label <= 9)%nat /\ (String.length value <= 19)%nat
  /\ is_marker h chk = false.
Proof.
  unfold field_ok. intro H.
  repeat (apply andb_prop in H; let H' := fresh "H" in destruct H as [H H']).
  apply Nat.leb_le in H2, H1.
  apply negb_true_iff in H0.
  repeat split; assumption.
Qed.

Lemma field_content_not_in (f : field) (x : ascii) :
  field_ok h f = true ->
  x = START_OF_FRAME h \/ x = END_OF_FRAME h \/ x = START_OF_GROUP h
  \/ x = END_OF_GROUP h ->
  ~ In x (field_content h f).
Proof.
  destruct f as [[label value] chk]. intros Hf Hx.
  pose proof (header_ok_facts h Hok) as F.
  destruct (field_ok_facts _ _ _ Hf) as [Hl [Hv [_ [_ Hm]]]].
  unfold field_content, field_bytes. intro Hin.
  apply in_app_or in Hin. destruct Hin as [Hin|[Hin|Hin]].
  - revert Hin. apply text_not_in; [exact Hl|tauto].
  - subst x. destruct Hx as [E|[E|[E|E]]]; symmetry in E.
    + exact (stx_sep h F E).
    + exact (etx_sep h F E).
    + exact (lf_sep h F E).
    + exact (cr_sep h F E).
  - apply in_app_or in Hin. destruct Hin as [Hin|[Hin|[Hin|[]]]].
    + revert Hin. apply text_not_in; [exact Hv|tauto].
    + subst x. destruct Hx as [E|[E|[E|E]]]; symmetry in E.
      * exact (stx_sep h F E).
      * exact (etx_sep h F E).
      * exact (lf_sep h F E).
      * exact (cr_sep h F E).
    + subst x. unfold is_marker in Hm.
      destruct Hx as [E|[E|[E|E]]]; rewrite E, Ascii.eqb_refl in Hm;
        rewrite ?orb_true_r in Hm; discriminate.
Qed.

Lemma fields_plain (fields : list field) :
  forallb (field_ok h) fields = true ->
  frame_plain h (map (field_content h) fields).
Proof.
  intros Hall c Hc. apply in_map_iff in Hc. destruct Hc as [f [<- Hf]].
  rewrite forallb_forall in Hall. specialize (Hall f Hf).
  repeat split; apply field_content_not_in; auto; tauto.
Qed.

Lemma strcpy_fits (size : Z) (v : string) :
  (Z.of_nat (String.length v) <? size) = true -> strcpy size v = Val v.
Proof.
  intro H. unfold strcpy. now rewrite H.
Qed.

Lemma dispatch_assign (label value : string) (d : LinkyData) :
  slot_fits h label value = true ->
  dispatch h label value d = Val (assign label value d).
Proof.
  unfold slot_fits, dispatch, assign. intro Hfit.
  destruct (String.eqb_spec label "ADCO"); [subst; reflexivity|].
  destruct (String.eqb_spec label "OPTARIF");
    [subst; cbn in Hfit; now rewrite strcpy_fits|].
  destruct (String.eqb_spec label "ISOUSC"); [subst; reflexivity|].
  destruct (String.eqb_spec label "BASE"); [subst; reflexivity|].
  destruct (String.eqb_spec label "HCHC"); [subst; reflexivity|].
  destruct (String.eqb_spec label "HCHP"); [subst; reflexivity|].
  destruct (String.eqb_spec label "PTEC");
    [subst; cbn in Hfit; now rewrite strcpy_fits|].
  destruct (String.eqb_spec label "IINST"); [subst; reflexivity|].
  destruct (String.eqb_spec label "IMAX"); [subst; reflexivity|].
  destruct (String.eqb_spec label "PAPP"); [subst; reflexivity|].
  destruct (String.eqb_spec label "HHPHC");
    [subst; cbn in Hfit; now rewrite strcpy_fits|].
  destruct (String.eqb_spec label "MOTDETAT");
    [subst; cbn in Hfit; now rewrite strcpy_fits|].
  reflexivity.
Qed.

Lemma decode_field_store (a b : list ascii) (f : field) (size : nat)
    (d : LinkyData) :
  fits h f = true ->
  (2 + count (GROUP_SEPARATOR h) [snd f] <= size)%nat ->
  len a + len (field_content h f) + 2 <= INT_MAX ->
  decode_field h (a ++ group_bytes h (field_content h f) ++ b)
    (len a) (len a + len (field_content h f) + 1) size d
  = Val (store_field h d f).
Proof.
  destruct f as [[label value] chk]. unfold fits. cbn [fst snd].
  intros Hf Hsize Hlen. apply andb_prop in Hf. destruct Hf as [Hf Hs].
  pose proof (header_ok_facts h Hok) as F.
  destruct (field_ok_facts _ _ _ Hf) as [Hl [Hv [Hll [Hlv Hm]]]].
  unfold field_content in *. cbn [snd] in Hsize.
  rewrite decode_field_fits; auto.
  - unfold store_field.
    destruct (Ascii.eqb (checksum (GROUP_SEPARATOR h) label value) chk);
      [now apply dispatch_assign|reflexivity].
  - apply F.
  - apply text_not_in; [exact Hl|tauto].
  - apply text_not_in; [exact Hv|tauto].
  - apply text_not_in; [exact Hl|tauto].
  - apply text_not_in; [exact Hv|tauto].
Qed.

Lemma decode_groups_fields (todo : list field) :
  forall (done : list field) (d : LinkyData),
    forallb (fits h) todo = true ->
    (forall f, In f todo ->
               (2 + count (GROUP_SEPARATOR h) [snd f]
                <= S (List.length (done ++ todo)))%nat) ->
    len (frame_bytes h (map (field_content h) (done ++ todo))) <= 200 ->
    decode_groups h (frame_of h (map (field_content h) (done ++ todo)))
      (groups_of h (starts 1 (map (field_content h) (done ++ todo)))
         (ends 1 (map (field_content h) (done ++ todo))))
      (List.length todo) (len done) d
    = Val (store_fields h todo d).
Proof.
  induction todo as [|f todo IH]; intros done d Hfits Hseps Hlen;
    [reflexivity|].
  cbn [forallb] in Hfits. apply andb_prop in Hfits.
  destruct Hfits as [Hf Hfits].
  cbn [List.length decode_groups].
  assert (E : map (field_content h) (done ++ f :: todo)
              = map (field_content h) done ++ field_content h f
                  :: map (field_content h) todo)
    by (rewrite map_app; reflexivity).
  assert (Hd : len done = len (map (field_content h) done))
    by (unfold len; now rewrite length_map).
  rewrite E in *. rewrite Hd at 1.
  rewrite decode_group_in_frame by exact Hlen.
  rewrite decode_field_store; auto.
  - cbn [bind].
    specialize (IH (done ++ [f]) (store_field h d f) Hfits).
    rewrite <- E in *.
    replace ((done ++ [f]) ++ todo) with (done ++ f :: todo) in IH
      by (rewrite <- app_assoc; reflexivity).
    assert (Hseps' : forall f0, In f0 todo ->
                       (2 + count (GROUP_SEPARATOR h) [snd f0]
                        <= S (List.length (done ++ f :: todo)))%nat)
      by (intros f0 Hf0; apply Hseps; now right).
    specialize (IH Hseps').
    replace (len done + 1) with (len (done ++ [f]))
      by (rewrite len_app; reflexivity).
    rewrite IH.
    + reflexivity.
    + exact Hlen.
  - rewrite <- E, length_map. apply Hseps. now left.
  - pose proof (len_frame_bytes_split h (map (field_content h) done)
                  (map (field_content h) todo) (field_content h f)).
    unfold INT_MAX. lia.
Qed.

(** decode on a buffer whose frame is made of fields that fit the arrays
    and the slots. *)
Lemma decode_fields (rxBytes : Z) (pre post : list ascii)
    (fields : list field) :
  no_frame_in h pre ->
  fields <> [] ->
  forallb (fits h) fields = true ->
  separators_fit h fields = true ->
  len (buffer_of h pre (map (field_content h) fields) post) <= INT_MAX ->
  len (frame_bytes h (map (field_content h) fields)) <= FRAME_SIZE h ->
  (List.length fields <= GROUP_COUNT h)%nat ->
  decode h rxBytes (buffer_of h pre (map (field_content h) fields) post)
  = Val (1, store_fields h fields data_reset).
Proof.
  intros Hpre Hne Hfits Hseps Hlen Hfit Hgc.
  pose proof (header_ok_facts h Hok) as F.
  pose proof (frame_size_200 h F) as H200.
  rewrite decode_buffer_contents; auto.
  - rewrite length_map.
    pose proof (decode_groups_fields fields [] data_reset Hfits) as D.
    cbn [app] in D. change (len (@nil field)) with 0 in D.
    rewrite D; [reflexivity| |lia].
    unfold separators_fit in Hseps. rewrite forallb_forall in Hseps.
    intros f Hf. apply Nat.leb_le. now apply Hseps.
  - apply fields_plain. rewrite forallb_forall in *.
    intros f Hf. specialize (Hfits f Hf). unfold fits in Hfits.
    apply andb_prop in Hfits. tauto.
  - destruct fields; [contradiction|discriminate].
  - now rewrite length_map.
Qed.

End Fields.

(** *** strtoul *)

Lemma digits_value_leading (s : string) :
  forall acc,
    digits_value s acc
    = acc * 10 ^ Z.of_nat (String.length (leading_digits s))
      + decimal (leading_digits s).
Proof.
  induction s as [|c s IH]; intro acc.
  - simpl. lia.
  - cbn [digits_value leading_digits]. destruct (isdigit c).
    + rewrite IH. cbn [String.length decimal].
      rewrite Nat2Z.inj_succ, Z.pow_succ_r by lia. ring.
    + simpl. lia.
Qed.

Lemma isdigit_not_space (c : ascii) : isdigit c = true -> isspace c = false.
Proof.
  unfold isdigit, isspace. intro H. apply andb_prop in H.
  destruct H as [H1 H2]. apply Z.leb_le in H1, H2.
  apply orb_false_iff. split.
  - apply Z.eqb_neq. lia.
  - apply andb_false_iff. right. apply Z.leb_gt. lia.
Qed.

Lemma isdigit_not_sign (c : ascii) :
  isdigit c = true -> Ascii.eqb c "-" = false /\ Ascii.eqb c "+" = false.
Proof.
  unfold isdigit. intro H. apply andb_prop in H.
  destruct H as [H1 H2]. apply Z.leb_le in H1, H2.
  split.
  - destruct (Ascii.eqb_spec c "-") as [E|_]; [|reflexivity].
    subst c. cbv in H1. now exfalso.
  - destruct (Ascii.eqb_spec c "+") as [E|_]; [|reflexivity].
    subst c. cbv in H1. now exfalso.
Qed.

(** Without leading white space or sign, [strtoul] gives the value of the
    longest leading digit sequence, or [ULONG_MAX] when that value is
    larger. *)
Lemma strtoul_leading (s : string) :
  unsigned_start s = true ->
  strtoul s = Z.min (decimal (leading_digits s)) ULONG_MAX.
Proof.
  intro H. unfold strtoul.
  assert (Hskip : skip_spaces s = s).
  { destruct s as [|c s]; [reflexivity|]. cbn [unsigned_start] in H.
    cbn [skip_spaces]. destruct (isspace c); [discriminate|reflexivity]. }
  rewrite Hskip.
  assert (Hneg : match s with
                 | String c _ => Ascii.eqb c "-"
                 | EmptyString => false
                 end = false).
  { destruct s as [|c s]; [reflexivity|]. cbn [unsigned_start] in H.
    destruct (Ascii.eqb c "-"); [|reflexivity].
    rewrite andb_false_r in H. discriminate. }
  assert (Hs : match s with
               | String c rest =>
                   if Ascii.eqb c "-" || Ascii.eqb c "+" then rest else s
               | EmptyString => s
               end = s).
  { destruct s as [|c s]; [reflexivity|]. cbn [unsigned_start] in H.
    destruct (Ascii.eqb c "-"); [rewrite andb_false_r in H; discriminate|].
    destruct (Ascii.eqb c "+"); [rewrite andb_false_r in H; discriminate|].
    reflexivity. }
  rewrite Hneg, Hs. cbv zeta.
  rewrite digits_value_leading. rewrite Z.mul_0_l, Z.add_0_l.
  destruct (Z.ltb_spec ULONG_MAX (decimal (leading_digits s))); lia.
Qed.

Lemma leading_all_digits (s : string) :
  all_digits s = true -> leading_digits s = s.
Proof.
  induction s as [|c s IH]; intro H; [reflexivity|].
  cbn [all_digits] in H. apply andb_prop in H. destruct H as [Hc Hs].
  cbn [leading_digits]. rewrite Hc, IH by exact Hs. reflexivity.
Qed.

Lemma all_digits_unsigned (s : string) :
  all_digits s = true -> unsigned_start s = true.
Proof.
  destruct s as [|c s]; intro H; [reflexivity|].
  cbn [all_digits] in H. apply andb_prop in H. destruct H as [Hc _].
  cbn [unsigned_start]. rewrite (isdigit_not_space c Hc).
  destruct (isdigit_not_sign c Hc) as [-> ->]. reflexivity.
Qed.

(** On a string of digits whose value an [unsigned long] holds, [strtoul]
    gives that value. *)
Lemma strtoul_decimal (s : string) :
  all_digits s = true -> decimal s <= ULONG_MAX -> strtoul s = decimal s.
Proof.
  intros Hd Hmax. rewrite strtoul_leading by now apply all_digits_unsigned.
  rewrite leading_all_digits by exact Hd. lia.
Qed.

(** *** The slots after the fourth step *)

Lemma slot_assign_same (label value : string) (d : LinkyData) :
  is_known label = true ->
  slot label (assign label value d) = Some (stored label value).
Proof.
  unfold is_known. cbn [existsb numeric_labels text_labels app].
  unfold slot, assign, stored, is_numeric.
  cbn [existsb numeric_labels].
  repeat match goal with
         | |- context [String.eqb label ?s] =>
             destruct (String.eqb_spec label s) as [E|_];
             [subst label; reflexivity|]
         end.
  discriminate.
Qed.

Lemma slot_assign_other (label other value : string) (d : LinkyData) :
  label <> other ->
  slot other (assign label value d) = slot other d.
Proof.
  intro Hne. unfold assign.
  repeat match goal with
         | |- context [String.eqb label ?s] =>
             destruct (String.eqb_spec label s) as [E|_];
             [subst label; unfold slot;
              repeat match goal with
                     | |- context [String.eqb other ?s'] =>
                         destruct (String.eqb_spec other s') as [E'|_];
                         [subst other; first [reflexivity|congruence]|]
                     end;
              reflexivity|]
         end.
  reflexivity.
Qed.

Section Slots.

Variable h : linky_h.

Lemma slot_store_field_other (f : field) (l : string) (d : LinkyData) :
  label_of f <> l -> slot l (store_field h d f) = slot l d.
Proof.
  destruct f as [[label value] chk]. unfold label_of. cbn [fst].
  intro Hne. unfold store_field.
  destruct (Ascii.eqb _ chk); [|reflexivity].
  now apply slot_assign_other.
Qed.

Lemma slot_store_fields_other (fields : list field) (l : string) :
  forall d,
    ~ In l (map label_of fields) ->
    slot l (store_fields h fields d) = slot l d.
Proof.
  unfold store_fields.
  induction fields as [|f fields IH]; intros d Hno; [reflexivity|].
  cbn [fold_left]. rewrite IH.
  - apply slot_store_field_other. intro E. apply Hno. now left.
  - intro Hin. apply Hno. now right.
Qed.

(** With distinct labels, the slot of a field depends on that field
    only. *)
Lemma slot_store_fields (fields : list field) (l v : string) (chk : ascii)
    (d : LinkyData) :
  NoDup (map label_of fields) ->
  In (l, v, chk) fields ->
  slot l (store_fields h fields d)
  = if Ascii.eqb (checksum (GROUP_SEPARATOR h) l v) chk
    then slot l (assign l v d)
    else slot l d.
Proof.
  intros Hnd Hin. apply in_split in Hin. destruct Hin as [before [after ->]].
  rewrite map_app in Hnd. cbn [map] in Hnd.
  pose proof (NoDup_remove_2 _ _ _ Hnd) as Hno.
  change (label_of (l, v, chk)) with l in Hno.
  unfold store_fields. rewrite fold_left_app. cbn [fold_left].
  change (fold_left (store_field h) after ?x) with (store_fields h after x).
  rewrite slot_store_fields_other
    by (intro Hin; apply Hno; apply in_or_app; now right).
  change (fold_left (store_field h) before d)
    with (store_fields h before d).
  cbn [store_field].
  destruct (Ascii.eqb (checksum (GROUP_SEPARATOR h) l v) chk).
  - generalize (store_fields h before d). intro d'.
    unfold slot, assign.
    repeat match goal with
           | |- context [String.eqb l ?s] =>
               destruct (String.eqb_spec l s) as [E|_];
               [subst l; reflexivity|]
           end.
    reflexivity.
  - apply slot_store_fields_other. intro Hin. apply Hno.
    apply in_or_app. now left.
Qed.

End Slots.

(** *** Decoding the fields of a frame *)





(** *** What the first step reads *)

Section Reads.

Variable h : linky_h.

(** Once the end of the frame is found, the cells after it play no part. *)
Lemma find_frame_found (p q : list ascii) :
  forall (i s0 : Z),
    snd (find_frame h p i s0) <> UINT_MAX ->
    find_frame h (p ++ q) i s0 = find_frame h p i s0.
Proof.
  induction p as [|c p IH]; intros i s0 Hfound.
  - simpl in Hfound. contradiction.
  - cbn [app find_frame] in *.
    destruct (Ascii.eqb c (START_OF_FRAME h)).
    + now apply IH.
    + destruct (Ascii.eqb c (END_OF_FRAME h) && (s0 <? uint i));
        [reflexivity|now apply IH].
Qed.

Lemma find_frame_range (p : list ascii) :
  forall (i s0 s e : Z),
    find_frame h p i s0 = (s, e) ->
    e <> UINT_MAX ->
    0 <= s0 -> 0 <= i -> i + len p <= UINT_MAX ->
    0 <= s < e /\ e < i + len p.
Proof.
  induction p as [|c p IH]; intros i s0 s e E He Hs0 Hi Hlen.
  - simpl in E. injection E as _ <-. contradiction.
  - cbn [find_frame] in E. rewrite len_cons in *.
    pose proof (len_nonneg p) as Hp.
    rewrite uint_small in E by lia.
    destruct (Ascii.eqb c (START_OF_FRAME h)).
    + destruct (IH _ _ _ _ E He) as [H1 H2]; lia.
    + destruct (Ascii.eqb c (END_OF_FRAME h) && (s0 <? i)) eqn:Hc.
      * injection E as <- <-. apply andb_prop in Hc.
        destruct Hc as [_ Hc]. apply Z.ltb_lt in Hc. lia.
      * destruct (IH _ _ _ _ E He) as [H1 H2]; lia.
Qed.

Lemma memcpy_app (dst p q : list ascii) (off n : Z) :
  0 <= off -> 0 <= n -> off + n <= len p ->
  memcpy dst (p ++ q) off n = memcpy dst p off n.
Proof.
  intros Hoff Hn Hfit. unfold memcpy.
  pose proof (len_nonneg q).
  replace (off + n <=? len (p ++ q)) with true
    by (symmetry; apply Z.leb_le; rewrite len_app; lia).
  replace (off + n <=? len p) with true by (symmetry; apply Z.leb_le; lia).
  destruct ((0 <=? off) && (0 <=? n) && (n <=? len dst) && true);
    [|reflexivity].
  do 2 f_equal. unfold len in Hfit.
  rewrite skipn_app, firstn_app.
  replace (Z.to_nat n - List.length (skipn (Z.to_nat off) p))%nat
    with 0%nat by (rewrite length_skipn; lia).
  cbn [firstn]. now rewrite app_nil_r.
Qed.

End Reads.

(** C7, as the code has it.  The count that [uart_read_bytes] returned is
    logged and not used again: the first step reads every cell of the
    buffer up to the first end-of-frame marker that follows a
    start-of-frame marker, also the cells beyond the count.  Two buffers
    that agree up to that end marker, or that agree on all their cells,
    give the same result and the same record, whatever the two counts
    are. *)
Theorem decode_reads_up_to_frame_end (h : linky_h) (rxBytes1 rxBytes2 : Z)
    (p q1 q2 : list ascii) :
  (snd (find_frame h p 0 UINT_MAX) <> UINT_MAX /\ len p <= INT_MAX)
  \/ q1 = q2 ->
  decode h rxBytes1 (p ++ q1) = decode h rxBytes2 (p ++ q2).
Proof.
  intros [[Hfound Hlen]|Heq]; [|now subst q2].
  unfold decode.
  rewrite !find_frame_found by exact Hfound.
  destruct (find_frame h p 0 UINT_MAX) as [s e] eqn:E.
  cbn [snd] in Hfound. unfold INT_MAX in Hlen.
  destruct (find_frame_range h p 0 UINT_MAX s e E Hfound) as [Hs He];
    try (unfold UINT_MAX; lia).
  destruct ((e =? UINT_MAX) || (s =? UINT_MAX) || (e <? s)); [reflexivity|].
  rewrite uint_small by (unfold UINT_MAX; lia).
  rewrite !memcpy_app by lia. reflexivity.
Qed.

(** *** Frames of checksum-valid fields *)


Lemma is_numeric_known (label : string) :
  is_numeric label = true -> is_known label = true.
Proof.
  unfold is_numeric, is_known. rewrite existsb_app. intros ->. reflexivity.
Qed.



(** C10, as the code has it.  In a frame of fields that fit, with distinct
    labels, a checksum-valid field with a numeric label sets its slot to
    what [strtoul] gives for the value text and never makes the field or
    the cycle fail.  When the text does not begin with white space or a
    sign, that is the base-10 value of its longest leading digit sequence,
    or ULONG_MAX = 2^32 - 1 when the value is larger: what follows the
    digits is ignored, and a text without leading digit gives 0. *)
Theorem numeric_field_strtoul (h : linky_h) (rxBytes : Z)
    (pre post : list ascii) (fields : list field) (label value : string) :
  header_ok h = true ->
  ~ In (START_OF_FRAME h) pre ->
  NoDup (map label_of fields) ->
  forallb (fits h) fields = true ->
  separators_fit h fields = true ->
  In (label, value, checksum (GROUP_SEPARATOR h) label value) fields ->
  is_numeric label = true ->
  len (buffer_of h pre (map (field_content h) fields) post) <= INT_MAX ->
  len (frame_bytes h (map (field_content h) fields)) <= FRAME_SIZE h ->
  (List.length fields <= GROUP_COUNT h)%nat ->
  exists data,
    decode h rxBytes (buffer_of h pre (map (field_content h) fields) post)
    = Val (1, data)
    /\ slot label data = Some (Number (strtoul value))
    /\ (unsigned_start value = true ->
        slot label data
        = Some (Number (Z.min (decimal (leading_digits value)) ULONG_MAX))).
Proof.
  intros Hok Hpre Hnd Hfits Hseps Hin Hnum Hlen Hfit Hgc.
  assert (Hslot : slot label (store_fields h fields data_reset)
                  = Some (Number (strtoul value))).
  { rewrite (slot_store_fields h fields label value _ data_reset Hnd Hin).
    rewrite Ascii.eqb_refl.
    rewrite slot_assign_same by now apply is_numeric_known.
    unfold stored. now rewrite Hnum. }
  eexists. split; [|split].
  - apply decode_fields; auto.
    + now apply no_start_no_frame.
    + intro E. subst fields. destruct Hin.
  - exact Hslot.
  - intro Hu. rewrite Hslot. now rewrite strtoul_leading.
Qed.

(** *** Concrete frames *)





(** C5.  A frame of 51 start-of-group markers and no end-of-group
    marker, the index arrays having GROUP_COUNT = 50 cells.  The numbers of
    the two markers differ, and decode does not return 0: the second step
    stores the index of the 51st marker in [startOfGroup[50]], past the end
    of the array, the counter never being compared with the size, and
    decode has no defined result.  With 50 markers the array holds them,
    and decode returns 0 with the record cleared. *)
Theorem too_many_markers_not_rejected :
  count (START_OF_GROUP historique) (starts_only 51) = 51%nat
  /\ count (END_OF_GROUP historique) (starts_only 51) = 0%nat
  /\ decode historique 0 (starts_only 51) = Fault
  /\ decode historique 0 (starts_only 50) = Val (0, data_reset).
Proof.
  split; [reflexivity|]. split; [reflexivity|].
  split; vm_compute; reflexivity.
Qed.

Lemma decode_group_marker_failure_witness :
  decode historique 0
    ([] ++ START_OF_FRAME historique :: list_ascii_of_string "ADCO 12 3"
        ++ END_OF_FRAME historique :: [])
  = Val (0, data_reset).
Proof.
  apply decode_group_marker_failure.
  - reflexivity.
  - intros p q _ Hp. destruct p; discriminate Hp.
  - apply count_none. reflexivity.
  - apply count_none. reflexivity.
  - vm_compute. discriminate.
  - vm_compute. discriminate.
  - vm_compute. lia.
  - vm_compute. lia.
  - left. reflexivity.
Defined.

Lemma frame_starts_at_last_start_witness :
  find_frame historique
    ["002"; "A"; "002"; "010"; "B"; "013"; "003"; "C"]%char 0 UINT_MAX
  = (Z.of_nat 2, Z.of_nat 6)
  /\ decode historique 8
       ["002"; "A"; "002"; "010"; "B"; "013"; "003"; "C"]%char
     = (frame <- memcpy (zeros 200)
                   ["002"; "A"; "002"; "010"; "B"; "013"; "003"; "C"]%char
                   (Z.of_nat 2) (Z.of_nat (6 - 2)) ;;
        decode_frame historique frame).
Proof.
  apply frame_starts_at_last_start.
  - discriminate.
  - vm_compute. discriminate.
  - reflexivity.
  - reflexivity.
  - lia.
  - intros k Hk.
    destruct k as [|[|[|[|[|[|k]]]]]]; try lia; simpl; discriminate.
  - intros p q Hpq _.
    destruct q as [|[|[|[|[|[|q]]]]]]; try lia; simpl; discriminate.
Defined.

Lemma decode_reads_up_to_frame_end_witness :
  decode historique 1
    (tic_buffer (map (checked historique) papp_field) ++ [])
  = decode historique 5
      (tic_buffer (map (checked historique) papp_field)
         ++ list_ascii_of_string "stale").
Proof.
  apply decode_reads_up_to_frame_end. left. split.
  - vm_compute. discriminate.
  - vm_compute. discriminate.
Defined.

(** Two buffers of 17 cells that agree on their first cell, with a
    reported count of 1: the frame in the cells beyond the count is
    decoded. *)
Lemma stale_bytes_are_decoded :
  firstn 1 ("X"%char :: tic_buffer (map (checked historique) papp_field))
  = firstn 1 ("X"%char :: zeros 16)
  /\ List.length ("X"%char :: tic_buffer (map (checked historique) papp_field))
     = List.length ("X"%char :: zeros 16)
  /\ decode historique 1
       ("X"%char :: tic_buffer (map (checked historique) papp_field))
     = Val (1, set_PAPP 750 data_reset)
  /\ decode historique 1 ("X"%char :: zeros 16) = Val (0, data_reset).
Proof.
  repeat split; vm_compute; reflexivity.
Qed.

Lemma decode_long_text_undefined_witness :
  decode historique 0
    (buffer_of historique []
       (frame_with (long_label ++ GROUP_SEPARATOR historique
                      :: list_ascii_of_string "1"
                      ++ GROUP_SEPARATOR historique
                      :: list_ascii_of_string "X")) [])
  = Fault.
Proof.
  apply (decode_long_text_undefined historique 0 [] []
           (frame_with (long_label ++ GROUP_SEPARATOR historique
                          :: list_ascii_of_string "1"
                          ++ GROUP_SEPARATOR historique
                          :: list_ascii_of_string "X"))
           long_label (list_ascii_of_string "1")
           (list_ascii_of_string "X")).
  - reflexivity.
  - intros [].
  - intros c [<-|[<-|[]]]; unfold group_plain; repeat split;
      apply count_none; reflexivity.
  - vm_compute. discriminate.
  - vm_compute. discriminate.
  - simpl. lia.
  - left. reflexivity.
  - apply count_none. reflexivity.
  - apply count_none. reflexivity.
  - left. left. simpl. lia.
Defined.

(** C8.  A group whose label has twelve bytes, and a group whose value
    has 21 bytes, each in front of a valid OPTARIF field.  Nothing is cut
    to the size of the array: [memcpy] is handed the whole distance between
    the markers, the copy runs past [label[10]], or past [value[20]], and
    decode has no defined result.  With the label cut to nine bytes the
    cycle goes on, as the specification has it: the label is none of the
    twelve, the OPTARIF field is stored and decode returns 1. *)
Theorem long_label_not_truncated :
  decode historique 0
    (buffer_of historique []
       (frame_with (list_ascii_of_string "ABCDEFGHIJKL 1 X")) [])
  = Fault
  /\ decode historique 0 (buffer_of historique [] (frame_with long_value) [])
     = Fault
  /\ decode historique 0
       (buffer_of historique [] (frame_with nine_byte_label) [])
     = Val (1, set_OPTARIF "BASE" data_reset).
Proof.
  split; [vm_compute; reflexivity|].
  split; vm_compute; reflexivity.
Qed.

Lemma decode_few_separators_undefined_witness :
  decode historique 0 (buffer_of historique [] (frame_with bare_group) [])
  = Fault.
Proof.
  apply (decode_few_separators_undefined historique 0 [] []
           (frame_with bare_group) bare_group).
  - reflexivity.
  - intros [].
  - intros c [<-|[<-|[]]]; unfold group_plain; repeat split;
      apply count_none; reflexivity.
  - vm_compute. discriminate.
  - vm_compute. discriminate.
  - simpl. lia.
  - left. reflexivity.
  - vm_compute. lia.
Defined.

(** C9.  A group with one separator only, and a group with none, each
    in front of a valid OPTARIF field.  The group is not skipped: the cell
    of [separatorIndex] that got no index reads 0, the unsigned length
    handed to [memcpy] wraps around, the copy leaves its array, and decode
    has no defined result.  Without that group the frame decodes: the
    OPTARIF field is stored and decode returns 1, which is what skipping
    the group would give. *)
Theorem one_separator_not_skipped :
  decode historique 0
    (buffer_of historique []
       (frame_with (list_ascii_of_string "BASE 12")) [])
  = Fault
  /\ decode historique 0 (buffer_of historique [] (frame_with bare_group) [])
     = Fault
  /\ decode historique 0
       (tic_buffer (map (checked historique) optarif_field))
     = Val (1, set_OPTARIF "BASE" data_reset).
Proof.
  split; [vm_compute; reflexivity|].
  split; vm_compute; reflexivity.
Qed.

Lemma numeric_field_strtoul_witness :
  exists data,
    decode historique 0
      (buffer_of historique []
         (map (field_content historique)
            (map (checked historique) odd_numbers)) [])
    = Val (1, data)
    /\ slot "IINST" data = Some (Number (strtoul "12A"))
    /\ (unsigned_start "12A" = true ->
        slot "IINST" data
        = Some (Number (Z.min (decimal (leading_digits "12A")) ULONG_MAX))).
Proof.
  apply numeric_field_strtoul.
  - reflexivity.
  - intros [].
  - repeat constructor; simpl; intuition discriminate.
  - reflexivity.
  - reflexivity.
  - right. right. left. reflexivity.
  - reflexivity.
  - vm_compute. discriminate.
  - vm_compute. discriminate.
  - simpl. lia.
Defined.

(** Eleven digits are more than an [unsigned long] holds, and a sign is
    not a non-digit that ends the number: the slots get ULONG_MAX and 5,
    not 99999999999 and 0. *)
Lemma numeric_slots_differ_from_leading_digits :
  decode historique 0 (tic_buffer (map (checked historique) odd_numbers))
  = Val (1, set_IINST 12 (set_PAPP 5 (set_BASE 4294967295 data_reset)))
  /\ decimal (leading_digits "99999999999") = 99999999999
  /\ decimal (leading_digits "+5") = 0.
Proof.
  repeat split; vm_compute; reflexivity.
Qed.

(** * Further properties of the decoder *)

(** *** The result of decode *)

Lemma decode_frame_result (h : linky_h) (frame : list ascii) (r : Z)
    (d : LinkyData) :
  decode_frame h frame = Val (r, d) -> r = 1 \/ (r = 0 /\ d = data_reset).
Proof.
  unfold decode_frame.
  destruct (200 <? FRAME_SIZE h); [discriminate|].
  destruct (find_groups h _ 0 (groups_init h)) as [|g]; [discriminate|].
  cbn [bind].
  destruct (load (startOfGroup g) 0) as [|s0]; [discriminate|]. cbn [bind].
  destruct (load (endOfGroup g) 0) as [|e0]; [discriminate|]. cbn [bind].
  destruct ((s0 =? UINT_MAX) || (e0 =? UINT_MAX)).
  { intro E. injection E as <- <-. right. split; reflexivity. }
  destruct (negb (startOfGroupIndex g =? endOfGroupIndex g)).
  { intro E. injection E as <- <-. right. split; reflexivity. }
  destruct (decode_groups h frame g _ 0 data_reset) as [|d']; [discriminate|].
  cbn [bind]. intro E. injection E as <- _. left. reflexivity.
Qed.

Lemma decode_result (h : linky_h) (rxBytes : Z) (buffer : list ascii) (r : Z)
    (d : LinkyData) :
  decode h rxBytes buffer = Val (r, d) -> r = 1 \/ (r = 0 /\ d = data_reset).
Proof.
  unfold decode.
  destruct (find_frame h buffer 0 UINT_MAX) as [s e].
  destruct ((e =? UINT_MAX) || (s =? UINT_MAX) || (e <? s)).
  { intro E. injection E as <- <-. right. split; reflexivity. }
  destruct (memcpy (zeros 200) buffer s (uint (e - s))) as [|frame];
    [discriminate|].
  cbn [bind]. apply decode_frame_result.
Qed.

(** X1.  decode returns 0 or 1 and nothing else, and every cycle that
    returns 0 leaves the record cleared: the three [return 0] of decode
    come before the first assignment to a member of [data], after
    [data = {0}].  For every header and every buffer. *)
Theorem decode_failure_clears (h : linky_h) (rxBytes : Z)
    (buffer : list ascii) (r : Z) (d : LinkyData) :
  decode h rxBytes buffer = Val (r, d) ->
  r = 1 \/ (r = 0 /\ d = data_reset).
Proof. apply decode_result. Qed.

(** X2.  Linky::update gives the result of decode and the record that
    decode left: [read] does nothing, and the test [if (decode())] maps 0
    to 0 and 1 to 1, the only values decode returns.  Where decode has no
    defined result, update has none. *)
Theorem update_is_decode (h : linky_h) (rxBytes : Z) (buffer : list ascii) :
  update h rxBytes buffer = decode h rxBytes buffer.
Proof.
  unfold update, read.
  destruct (decode h rxBytes buffer) as [|[r d]] eqn:E; [reflexivity|].
  cbn [bind fst snd].
  destruct (decode_result h rxBytes buffer r d E) as [->|[-> _]];
    reflexivity.
Qed.

(** *** What the checksum tells apart *)

Lemma code_inj (a b : ascii) : code a = code b -> a = b.
Proof.
  unfold code. intro E. apply N2Z.inj in E.
  rewrite <- (ascii_N_embedding a), <- (ascii_N_embedding b), E.
  reflexivity.
Qed.

Lemma mod_add_cancel (x y s : Z) :
  (x + s) mod 64 = (y + s) mod 64 <-> x mod 64 = y mod 64.
Proof.
  split; intro E.
  - rewrite <- (Z.add_simpl_r x s), <- (Z.add_simpl_r y s).
    rewrite (Zminus_mod (x + s)), (Zminus_mod (y + s)), E. reflexivity.
  - rewrite (Z.add_mod x), (Z.add_mod y), E by lia. reflexivity.
Qed.

Lemma checksum_eq_iff (sep : ascii) (l v l' v' : string) :
  checksum sep l v = checksum sep l' v'
  <-> (byte_sum l + byte_sum v) mod 64 = (byte_sum l' + byte_sum v') mod 64.
Proof.
  rewrite <- (mod_add_cancel _ _ (code sep)).
  split; intro E.
  - apply (f_equal code) in E. rewrite !checksum_value, !land_63 in E.
    replace (byte_sum l + byte_sum v + code sep)
      with (byte_sum l + code sep + byte_sum v) by lia.
    replace (byte_sum l' + byte_sum v' + code sep)
      with (byte_sum l' + code sep + byte_sum v') by lia.
    lia.
  - apply code_inj. rewrite !checksum_value, !land_63.
    replace (byte_sum l + code sep + byte_sum v)
      with (byte_sum l + byte_sum v + code sep) by lia.
    replace (byte_sum l' + code sep + byte_sum v')
      with (byte_sum l' + byte_sum v' + code sep) by lia.
    rewrite E. reflexivity.
Qed.

Lemma byte_sum_chars (s : string) :
  byte_sum s = fold_right Z.add 0 (map code (list_ascii_of_string s)).
Proof.
  induction s as [|c s IH]; simpl; [reflexivity|]. rewrite IH. reflexivity.
Qed.

Lemma sum_app (a b : list Z) :
  fold_right Z.add 0 (a ++ b) = fold_right Z.add 0 a + fold_right Z.add 0 b.
Proof. induction a as [|x a IH]; simpl; [reflexivity|]. rewrite IH. lia. Qed.

Lemma sum_permutation (a b : list Z) :
  Permutation a b -> fold_right Z.add 0 a = fold_right Z.add 0 b.
Proof. induction 1; simpl; lia. Qed.


(** X3.  The checksum is always one of the 64 bytes from 0x20 to 0x5F:
    it is never a control byte, and it can be the space.  For every
    separator, label and value. *)
Theorem checksum_range (sep : ascii) (label value : string) :
  0x20 <= code (checksum sep label value) <= 0x5F.
Proof.
  rewrite checksum_value, land_63.
  pose proof (Z.mod_pos_bound
                (byte_sum label + code sep + byte_sum value) 64).
  lia.
Qed.

(** X4.  The checksum does not see the order of the bytes: two fields
    whose label and value bytes are a rearrangement of each other, within
    the label, within the value or across the separator, have the same
    checksum.  Exchanged digits of a value pass the test of decode. *)
Theorem checksum_permutation (sep : ascii) (l v l' v' : string) :
  Permutation (list_ascii_of_string l ++ list_ascii_of_string v)
              (list_ascii_of_string l' ++ list_ascii_of_string v') ->
  checksum sep l v = checksum sep l' v'.
Proof.
  intro P. apply checksum_eq_iff. f_equal.
  rewrite !byte_sum_chars, <- !sum_app, <- !map_app.
  apply sum_permutation, Permutation_map, P.
Qed.


(** *** Fields that leave the record as it is, and repeated labels *)

Lemma assign_unknown (label value : string) (d : LinkyData) :
  is_known label = false -> assign label value d = d.
Proof.
  unfold is_known, assign. cbn [existsb numeric_labels text_labels app].
  intro H.
  repeat match goal with
         | |- context [String.eqb label ?s] =>
             destruct (String.eqb label s); [discriminate H|]; cbn [orb] in H
         end.
  reflexivity.
Qed.

Section Repeated.

Variable h : linky_h.

Lemma store_field_skip (f : field) (d : LinkyData) :
  carries_checksum h f = false \/ is_known (label_of f) = false ->
  store_field h d f = d.
Proof.
  destruct f as [[l v] chk]. unfold carries_checksum, store_field, label_of.
  cbn [fst]. intros [H|H].
  - rewrite H. reflexivity.
  - rewrite (assign_unknown l v d H).
    destruct (Ascii.eqb _ _); reflexivity.
Qed.

Lemma store_fields_skip (fields : list field) :
  forall d,
    (forall f, In f fields ->
               carries_checksum h f = false \/ is_known (label_of f) = false) ->
    store_fields h fields d = d.
Proof.
  unfold store_fields.
  induction fields as [|f fields IH]; intros d H; [reflexivity|].
  cbn [fold_left]. rewrite store_field_skip by (apply H; left; reflexivity).
  apply IH. intros g Hg. apply H. right. exact Hg.
Qed.

Lemma slot_store_fields_unset (l : string) (fields : list field) :
  forall d,
    (forall f, In f fields -> label_of f = l -> carries_checksum h f = false) ->
    slot l (store_fields h fields d) = slot l d.
Proof.
  unfold store_fields.
  induction fields as [|f fields IH]; intros d H; [reflexivity|].
  cbn [fold_left]. rewrite IH by (intros g Hg; apply H; right; exact Hg).
  destruct (String.eqb_spec (label_of f) l) as [E|E].
  - rewrite store_field_skip; [reflexivity|].
    left. apply H; [left; reflexivity|exact E].
  - apply slot_store_field_other. exact E.
Qed.

Lemma slot_store_fields_last (before after : list field) (l v : string)
    (chk : ascii) (d : LinkyData) :
  is_known l = true ->
  carries_checksum h (l, v, chk) = true ->
  (forall f, In f after -> label_of f = l -> carries_checksum h f = false) ->
  slot l (store_fields h (before ++ (l, v, chk) :: after) d)
  = Some (stored l v).
Proof.
  intros Hk Hc Hafter. unfold store_fields.
  rewrite fold_left_app. cbn [fold_left].
  fold (store_fields h after
          (store_field h (fold_left (store_field h) before d) (l, v, chk))).
  rewrite slot_store_fields_unset by exact Hafter.
  unfold store_field. unfold carries_checksum in Hc. rewrite Hc.
  apply slot_assign_same. exact Hk.
Qed.

End Repeated.

Lemma no_frame_in_nil (h : linky_h) : no_frame_in h [].
Proof. intros p q _ H. destruct p; discriminate H. Qed.

(** X6.  In a frame of fields that fit the arrays of decode, a slot of
    the record stays at its cleared value when no field with that label
    carries its checksum, and the whole record stays cleared when every
    field has an unknown label or a wrong checksum; decode returns 1 all
    the same.  Labels outside the twelve names are passed over by the
    [strcmp] chain, which has no final [else]. *)
Theorem decode_untouched_slots (h : linky_h) (rxBytes : Z)
    (pre post : list ascii) (fields : list field) :
  header_ok h = true ->
  no_frame_in h pre ->
  fields <> [] ->
  forallb (fits h) fields = true ->
  separators_fit h fields = true ->
  len (buffer_of h pre (map (field_content h) fields) post) <= INT_MAX ->
  len (frame_bytes h (map (field_content h) fields)) <= FRAME_SIZE h ->
  (List.length fields <= GROUP_COUNT h)%nat ->
  exists data,
    decode h rxBytes (buffer_of h pre (map (field_content h) fields) post)
    = Val (1, data)
    /\ (forall l,
           (forall f, In f fields -> label_of f = l ->
                      carries_checksum h f = false) ->
           slot l data = slot l data_reset)
    /\ ((forall f, In f fields ->
                   carries_checksum h f = false
                   \/ is_known (label_of f) = false) ->
        data = data_reset).
Proof.
  intros Hok Hpre Hne Hfits Hsep Hlen Hframe Hgc.
  exists (store_fields h fields data_reset). split; [|split].
  - apply decode_fields; assumption.
  - intros l Hl. apply slot_store_fields_unset. exact Hl.
  - intro H. apply store_fields_skip. exact H.
Qed.

(** X7.  When a label occurs more than once in a frame, the slot holds
    the value of the last field with that label that carries its
    checksum: the groups are stored in the order of the frame, each
    assignment overwriting the slot. *)
Theorem decode_last_field_wins (h : linky_h) (rxBytes : Z)
    (pre post : list ascii) (before after : list field) (l v : string)
    (chk : ascii) :
  header_ok h = true ->
  no_frame_in h pre ->
  forallb (fits h) (before ++ (l, v, chk) :: after) = true ->
  separators_fit h (before ++ (l, v, chk) :: after) = true ->
  is_known l = true ->
  carries_checksum h (l, v, chk) = true ->
  (forall f, In f after -> label_of f = l -> carries_checksum h f = false) ->
  len (buffer_of h pre
         (map (field_content h) (before ++ (l, v, chk) :: after)) post)
    <= INT_MAX ->
  len (frame_bytes h (map (field_content h) (before ++ (l, v, chk) :: after)))
    <= FRAME_SIZE h ->
  (List.length (before ++ (l, v, chk) :: after) <= GROUP_COUNT h)%nat ->
  exists data,
    decode h rxBytes
      (buffer_of h pre
         (map (field_content h) (before ++ (l, v, chk) :: after)) post)
    = Val (1, data)
    /\ slot l data = Some (stored l v).
Proof.
  intros Hok Hpre Hfits Hsep Hk Hc Hafter Hlen Hframe Hgc.
  exists (store_fields h (before ++ (l, v, chk) :: after) data_reset). split.
  - apply decode_fields; try assumption.
    intro E. apply app_eq_nil in E. destruct E as [_ E]. discriminate E.
  - apply slot_store_fields_last; assumption.
Qed.

(** *** Frames that leave the arrays of decode *)

Lemma find_frame_buffer (h : linky_h) (pre body post : list ascii) :
  START_OF_FRAME h <> END_OF_FRAME h ->
  no_frame_in h pre ->
  ~ In (START_OF_FRAME h) body ->
  ~ In (END_OF_FRAME h) body ->
  len (pre ++ START_OF_FRAME h :: body ++ END_OF_FRAME h :: post) <= INT_MAX ->
  find_frame h (pre ++ START_OF_FRAME h :: body ++ END_OF_FRAME h :: post)
    0 UINT_MAX
  = (len pre, len pre + 1 + len body).
Proof.
  intros Hne Hpre Hs He Hlen.
  assert (Hbound : len pre + 1 + len body + 1 <= INT_MAX).
  { rewrite len_app, len_cons, len_app, len_cons in Hlen.
    pose proof (len_nonneg post). lia. }
  pose proof (len_nonneg pre) as Hp0. pose proof (len_nonneg body) as Hb0.
  unfold INT_MAX in *.
  destruct (find_frame_prefix h pre
              (START_OF_FRAME h :: body ++ END_OF_FRAME h :: post) 0 UINT_MAX
              Hpre (or_introl eq_refl)) as [s' [E _]].
  rewrite E. simpl find_frame. rewrite Ascii.eqb_refl.
  rewrite find_frame_body; auto.
  2:{ rewrite !uint_small by (unfold UINT_MAX; lia). lia. }
  rewrite !uint_small by (unfold UINT_MAX; lia).
  reflexivity.
Qed.

Lemma decode_too_long (h : linky_h) (rxBytes : Z)
    (pre body post : list ascii) :
  START_OF_FRAME h <> END_OF_FRAME h ->
  no_frame_in h pre ->
  ~ In (START_OF_FRAME h) body ->
  ~ In (END_OF_FRAME h) body ->
  len (pre ++ START_OF_FRAME h :: body ++ END_OF_FRAME h :: post) <= INT_MAX ->
  200 < 1 + len body ->
  decode h rxBytes (pre ++ START_OF_FRAME h :: body ++ END_OF_FRAME h :: post)
  = Fault.
Proof.
  intros Hne Hpre Hs He Hlen Hlong.
  assert (Hbound : len pre + 1 + len body + 1 <= INT_MAX).
  { rewrite len_app, len_cons, len_app, len_cons in Hlen.
    pose proof (len_nonneg post). lia. }
  pose proof (len_nonneg pre) as Hp0. pose proof (len_nonneg body) as Hb0.
  unfold INT_MAX in *.
  unfold decode. rewrite find_frame_buffer by assumption.
  cbv beta iota.
  replace (len pre + 1 + len body =? UINT_MAX) with false
    by (symmetry; apply Z.eqb_neq; unfold UINT_MAX; lia).
  replace (len pre =? UINT_MAX) with false
    by (symmetry; apply Z.eqb_neq; unfold UINT_MAX; lia).
  replace (len pre + 1 + len body <? len pre) with false
    by (symmetry; apply Z.ltb_ge; lia).
  cbn [orb].
  rewrite memcpy_too_long; [reflexivity|].
  rewrite uint_small by (unfold UINT_MAX; lia).
  unfold len at 1. rewrite length_zeros. lia.
Qed.

(** X8.  A frame of more than 200 bytes, start marker included, is
    copied into [char frame[200]] with its whole length: decode has no
    length test before the [memcpy], the copy leaves the array and the
    cycle has no defined result. *)
Theorem decode_frame_too_long (h : linky_h) (rxBytes : Z)
    (pre body post : list ascii) :
  START_OF_FRAME h <> END_OF_FRAME h ->
  no_frame_in h pre ->
  ~ In (START_OF_FRAME h) body ->
  ~ In (END_OF_FRAME h) body ->
  len (pre ++ START_OF_FRAME h :: body ++ END_OF_FRAME h :: post) <= INT_MAX ->
  200 < 1 + len body ->
  decode h rxBytes (pre ++ START_OF_FRAME h :: body ++ END_OF_FRAME h :: post)
  = Fault.
Proof. apply decode_too_long. Qed.

(** X9.  The bytes before the frame, when no end marker follows a start
    marker among them, the bytes after its end marker and the reported
    count have no influence: decode gives for the buffer what it gives for
    the frame alone. *)
Theorem decode_frame_alone (h : linky_h) (rxBytes rxBytes' : Z)
    (pre body post : list ascii) :
  START_OF_FRAME h <> END_OF_FRAME h ->
  no_frame_in h pre ->
  ~ In (START_OF_FRAME h) body ->
  ~ In (END_OF_FRAME h) body ->
  len (pre ++ START_OF_FRAME h :: body ++ END_OF_FRAME h :: post) <= INT_MAX ->
  decode h rxBytes (pre ++ START_OF_FRAME h :: body ++ END_OF_FRAME h :: post)
  = decode h rxBytes' (START_OF_FRAME h :: body ++ [END_OF_FRAME h]).
Proof.
  intros Hne Hpre Hs He Hlen.
  assert (Hlen' : len ([] ++ START_OF_FRAME h :: body ++ [END_OF_FRAME h])
                  <= INT_MAX).
  { rewrite len_app, len_cons, len_app, len_cons in Hlen.
    cbn [app]. rewrite len_cons, len_app, len_cons.
    change (len (@nil ascii)) with 0.
    pose proof (len_nonneg pre). pose proof (len_nonneg post). lia. }
  destruct (Z_le_gt_dec (1 + len body) 200) as [Hfit|Hlong].
  - rewrite decode_extracts by assumption.
    change (START_OF_FRAME h :: body ++ [END_OF_FRAME h])
      with ([] ++ START_OF_FRAME h :: body ++ END_OF_FRAME h :: []).
    rewrite decode_extracts; auto using no_frame_in_nil.
  - rewrite decode_too_long by (assumption || lia).
    change (START_OF_FRAME h :: body ++ [END_OF_FRAME h])
      with ([] ++ START_OF_FRAME h :: body ++ END_OF_FRAME h :: []).
    rewrite decode_too_long; auto using no_frame_in_nil. lia.
Qed.

(** *** More groups than the index arrays hold *)

Lemma store_out_of_range (A : Type) (a : list A) (i : Z) (v : A) :
  len a <= i -> store a i v = Fault.
Proof.
  intro H. unfold store.
  replace (i <? len a) with false by (symmetry; apply Z.ltb_ge; exact H).
  rewrite andb_false_r. reflexivity.
Qed.

Lemma find_groups_overflow (h : linky_h) (cells : list ascii) :
  forall (i : Z) (g : groups),
    START_OF_GROUP h <> END_OF_GROUP h ->
    groups_wf h g ->
    startOfGroupIndex g <= Z.of_nat (GROUP_COUNT h) ->
    endOfGroupIndex g <= Z.of_nat (GROUP_COUNT h) ->
    Z.of_nat (GROUP_COUNT h) < UINT_MAX ->
    Z.of_nat (GROUP_COUNT h)
      < startOfGroupIndex g + Z.of_nat (count (START_OF_GROUP h) cells)
    \/ Z.of_nat (GROUP_COUNT h)
       < endOfGroupIndex g + Z.of_nat (count (END_OF_GROUP h) cells) ->
    find_groups h cells i g = Fault.
Proof.
  induction cells as [|c cells IH]; intros i g Hne Hwf Hs He Hgc Hover.
  - simpl in Hover. lia.
  - simpl find_groups. unfold scan_char.
    destruct Hwf as [Hls [Hle [Hs0 He0]]].
    destruct (Ascii.eqb_spec c (START_OF_GROUP h)) as [Hc|Hc].
    + subst c. rewrite count_cons_eq in Hover.
      rewrite count_cons_neq in Hover by exact Hne.
      destruct (Z_lt_ge_dec (startOfGroupIndex g) (Z.of_nat (GROUP_COUNT h)))
        as [Hin|Hout].
      * destruct (store_in_range _ (startOfGroup g) (startOfGroupIndex g) i)
          as [a Ha]; [unfold len; lia|].
        rewrite Ha. cbn [bind].
        pose proof (store_length _ _ _ _ _ Ha) as Hla.
        rewrite uint_small by (unfold UINT_MAX in *; lia).
        apply IH; cbn [startOfGroup endOfGroup startOfGroupIndex
                         endOfGroupIndex]; auto; try lia.
        unfold groups_wf. cbn. repeat split; lia.
      * rewrite store_out_of_range by (unfold len; lia). reflexivity.
    + rewrite (count_cons_neq (START_OF_GROUP h) c) in Hover by auto.
      destruct (Ascii.eqb_spec c (END_OF_GROUP h)) as [Hc'|Hc'].
      * subst c. rewrite count_cons_eq in Hover.
        destruct (Z_lt_ge_dec (endOfGroupIndex g) (Z.of_nat (GROUP_COUNT h)))
          as [Hin|Hout].
        -- destruct (store_in_range _ (endOfGroup g) (endOfGroupIndex g) i)
             as [a Ha]; [unfold len; lia|].
           rewrite Ha. cbn [bind].
           pose proof (store_length _ _ _ _ _ Ha) as Hla.
           rewrite uint_small by (unfold UINT_MAX in *; lia).
           apply IH; cbn [startOfGroup endOfGroup startOfGroupIndex
                            endOfGroupIndex]; auto; try lia.
           unfold groups_wf. cbn. repeat split; lia.
        -- rewrite store_out_of_range by (unfold len; lia). reflexivity.
      * rewrite (count_cons_neq (END_OF_GROUP h) c) in Hover by auto.
        cbn [bind]. apply IH; auto.
        unfold groups_wf. repeat split; assumption.
Qed.

(** X10.  A frame that holds more start-of-group markers, or more
    end-of-group markers, than [GROUP_COUNT] writes past the end of
    [startOfGroup] or [endOfGroup]: the second step stores every marker
    index without comparing the counter with the array size, and decode
    has no defined result for the cycle. *)
Theorem decode_too_many_groups (h : linky_h) (rxBytes : Z)
    (pre body post : list ascii) :
  header_ok h = true ->
  no_frame_in h pre ->
  ~ In (START_OF_FRAME h) body ->
  ~ In (END_OF_FRAME h) body ->
  len (pre ++ START_OF_FRAME h :: body ++ END_OF_FRAME h :: post) <= INT_MAX ->
  1 + len body <= FRAME_SIZE h ->
  (GROUP_COUNT h < count (START_OF_GROUP h) body)%nat
  \/ (GROUP_COUNT h < count (END_OF_GROUP h) body)%nat ->
  decode h rxBytes (pre ++ START_OF_FRAME h :: body ++ END_OF_FRAME h :: post)
  = Fault.
Proof.
  intros Hok Hpre Hs He Hlen Hfit Hover.
  pose proof (header_ok_facts h Hok) as F.
  pose proof (frame_size_200 h F) as H200.
  rewrite decode_extracts; auto; [|apply F|lia].
  unfold decode_frame.
  replace (200 <? FRAME_SIZE h) with false by (symmetry; apply Z.ltb_ge; lia).
  change (S (List.length body)) with (List.length (START_OF_FRAME h :: body)).
  rewrite firstn_frame_cells
    by (simpl List.length; unfold len in Hfit; lia).
  pose proof (count_le_length (START_OF_GROUP h) body) as Hbs.
  pose proof (count_le_length (END_OF_GROUP h) body) as Hbe.
  unfold len in Hfit.
  rewrite find_groups_overflow; [reflexivity|apply F|apply groups_init_wf| | | |].
  - cbn [groups_init startOfGroupIndex]. lia.
  - cbn [groups_init endOfGroupIndex]. lia.
  - unfold UINT_MAX. lia.
  - cbn [groups_init startOfGroupIndex endOfGroupIndex].
    rewrite !count_app, !count_cons_neq by apply F. lia.
Qed.

(** *** More separators than [separatorIndex] holds *)

Lemma find_separators_overflow (h : linky_h) (cells : list ascii) :
  forall (j : Z) (A : list Z) (s : Z),
    0 <= s <= len A ->
    len A < s + Z.of_nat (count (GROUP_SEPARATOR h) cells) ->
    find_separators h cells j A s = Fault.
Proof.
  induction cells as [|c cells IH]; intros j A s Hs Hover.
  - simpl in Hover. lia.
  - cbn [find_separators].
    destruct (Ascii.eqb_spec c (GROUP_SEPARATOR h)) as [E|E].
    + subst c. rewrite count_cons_eq in Hover.
      destruct (Z_lt_ge_dec s (len A)) as [Hin|Hout].
      * destruct (store_in_range _ A s j) as [A1 E1]; [lia|].
        rewrite E1. cbn [bind].
        assert (Hl : len A1 = len A)
          by (unfold len; rewrite (store_length _ _ _ _ _ E1); reflexivity).
        apply IH; rewrite Hl; lia.
      * rewrite store_out_of_range by lia. reflexivity.
    + rewrite count_cons_neq in Hover by exact E. now apply IH.
Qed.

Lemma decode_field_many_separators (h : linky_h) (a c b : list ascii)
    (size : nat) (d : LinkyData) :
  START_OF_GROUP h <> GROUP_SEPARATOR h ->
  (size < count (GROUP_SEPARATOR h) c)%nat ->
  decode_field h (a ++ group_bytes h c ++ b) (len a) (len a + len c + 1)
    size d = Fault.
Proof.
  intros Hne Hover.
  unfold decode_field. rewrite cells_between_group.
  rewrite find_separators_overflow; [reflexivity| |].
  - unfold len. rewrite repeat_length. lia.
  - unfold len. rewrite repeat_length.
    rewrite count_cons_neq by exact Hne. lia.
Qed.

(** X11.  [separatorIndex] has one cell more than the frame has groups,
    and the third step stores the index of every separator byte of a
    group: a group with more separator bytes than that writes past the
    array, and decode has no defined result.  A frame whose only group
    has three separators is the smallest case, a single valid field whose
    checksum byte is the space for instance. *)
Theorem decode_too_many_separators (h : linky_h) (rxBytes : Z)
    (pre post : list ascii) (contents : list (list ascii)) (c : list ascii) :
  header_ok h = true ->
  no_frame_in h pre ->
  frame_plain h contents ->
  len (buffer_of h pre contents post) <= INT_MAX ->
  len (frame_bytes h contents) <= FRAME_SIZE h ->
  (List.length contents <= GROUP_COUNT h)%nat ->
  In c contents ->
  (S (List.length contents) < count (GROUP_SEPARATOR h) c)%nat ->
  decode h rxBytes (buffer_of h pre contents post) = Fault.
Proof.
  intros Hok Hpre Hplain Hlen Hfit Hgc Hin Hover.
  pose proof (header_ok_facts h Hok) as F.
  apply (decode_fault_group h rxBytes pre post contents c); auto.
  intros a b d _. apply decode_field_many_separators; [apply F|exact Hover].
Qed.

(** *** A text value that its slot cannot hold *)

Lemma strcpy_overflow (size : Z) (v : string) :
  (Z.of_nat (String.length v) <? size) = false -> strcpy size v = Fault.
Proof. unfold strcpy. intros ->. reflexivity. Qed.

Lemma dispatch_overflow (h : linky_h) (label value : string) (d : LinkyData) :
  slot_fits h label value = false -> dispatch h label value d = Fault.
Proof.
  unfold slot_fits, dispatch. intro Hfit.
  destruct (String.eqb_spec label "ADCO"); [subst; discriminate Hfit|].
  destruct (String.eqb_spec label "OPTARIF");
    [subst; cbn in Hfit; now rewrite strcpy_overflow|].
  destruct (String.eqb_spec label "ISOUSC"); [subst; discriminate Hfit|].
  destruct (String.eqb_spec label "BASE"); [subst; discriminate Hfit|].
  destruct (String.eqb_spec label "HCHC"); [subst; discriminate Hfit|].
  destruct (String.eqb_spec label "HCHP"); [subst; discriminate Hfit|].
  destruct (String.eqb_spec label "PTEC");
    [subst; cbn in Hfit; now rewrite strcpy_overflow|].
  destruct (String.eqb_spec label "IINST"); [subst; discriminate Hfit|].
  destruct (String.eqb_spec label "IMAX"); [subst; discriminate Hfit|].
  destruct (String.eqb_spec label "PAPP"); [subst; discriminate Hfit|].
  destruct (String.eqb_spec label "HHPHC");
    [subst; cbn in Hfit; now rewrite strcpy_overflow|].
  destruct (String.eqb_spec label "MOTDETAT");
    [subst; cbn in Hfit; now rewrite strcpy_overflow|].
  discriminate Hfit.
Qed.

(** X12.  A field that carries its checksum and whose value is as long
    as, or longer than, the text slot its label names (OPTARIF, PTEC,
    HHPHC, MOTDETAT) is copied by [strcpy] without a length test: the
    copy, terminator included, leaves the slot and decode has no defined
    result, whatever the other groups of the frame hold.  The value may
    well fit [value[20]]. *)
Theorem decode_text_slot_overflow (h : linky_h) (rxBytes : Z)
    (pre post : list ascii) (contents : list (list ascii)) (f : field) :
  header_ok h = true ->
  no_frame_in h pre ->
  frame_plain h contents ->
  len (buffer_of h pre contents post) <= INT_MAX ->
  len (frame_bytes h contents) <= FRAME_SIZE h ->
  (List.length contents <= GROUP_COUNT h)%nat ->
  In (field_content h f) contents ->
  overflows_slot h f = true ->
  (2 + count (GROUP_SEPARATOR h) [snd f] <= S (List.length contents))%nat ->
  decode h rxBytes (buffer_of h pre contents post) = Fault.
Proof.
  intros Hok Hpre Hplain Hlen Hfit Hgc Hin Hover Hsep.
  pose proof (header_ok_facts h Hok) as F.
  apply (decode_fault_group h rxBytes pre post contents (field_content h f));
    auto.
  intros a b d Hla.
  destruct f as [[label value] chk]. unfold overflows_slot in Hover.
  cbn [fst snd] in Hover, Hsep.
  apply andb_prop in Hover. destruct Hover as [Hover Hslot].
  apply andb_prop in Hover. destruct Hover as [Hf Hc].
  apply negb_true_iff in Hslot.
  destruct (field_ok_facts _ _ _ _ Hf) as [Hl [Hv [Hll [Hlv Hm]]]].
  unfold field_content in *. unfold carries_checksum in Hc.
  rewrite decode_field_fits; auto.
  - rewrite Hc. apply dispatch_overflow. exact Hslot.
  - apply F.
  - apply (text_not_in h); [exact Hl|tauto].
  - apply (text_not_in h); [exact Hv|tauto].
  - apply (text_not_in h); [exact Hl|tauto].
  - apply (text_not_in h); [exact Hv|tauto].
Qed.

(** * Properties of the Wi-Fi station *)

(** *** The event handler *)

Section Handler.

Variable ids : esp_event_ids.

Lemma handler_retry (st : wifi_state) (event_base : esp_event_base_t)
    (event_id : Z) :
  0 <= s_retry_num st <= ESP_MAXIMUM_RETRY ->
  0 <= s_retry_num (fst (wifi_event_handler ids st event_base event_id))
    <= ESP_MAXIMUM_RETRY.
Proof.
  unfold wifi_event_handler, ESP_MAXIMUM_RETRY. intro H.
  destruct (is_WIFI_EVENT event_base && (event_id =? WIFI_EVENT_STA_START ids));
    [exact H|].
  destruct (is_WIFI_EVENT event_base
            && (event_id =? WIFI_EVENT_STA_DISCONNECTED ids)).
  { destruct (Z.ltb_spec (s_retry_num st) 3) as [Hlt|Hge]; cbn [fst s_retry_num].
    - rewrite int_small by lia. lia.
    - exact H. }
  destruct (is_WIFI_EVENT event_base
            && (event_id =? WIFI_EVENT_STA_CONNECTED ids)); [exact H|].
  destruct (is_IP_EVENT event_base && (event_id =? IP_EVENT_STA_GOT_IP ids));
    [cbn; lia|exact H].
Qed.

Lemma handle_events_cons (st : wifi_state) (event_base : esp_event_base_t)
    (event_id : Z) (rest : list (esp_event_base_t * Z)) :
  handle_events ids st ((event_base, event_id) :: rest)
  = (fst (handle_events ids
            (fst (wifi_event_handler ids st event_base event_id)) rest),
     snd (wifi_event_handler ids st event_base event_id)
       ++ snd (handle_events ids
                 (fst (wifi_event_handler ids st event_base event_id)) rest)).
Proof.
  cbn [handle_events].
  destruct (wifi_event_handler ids st event_base event_id) as [st1 calls1].
  cbn [fst snd].
  destruct (handle_events ids st1 rest) as [st2 calls2]. reflexivity.
Qed.

Lemma disconnected_step (st : wifi_state) :
  WIFI_EVENT_STA_DISCONNECTED ids <> WIFI_EVENT_STA_START ids ->
  wifi_event_handler ids st WIFI_EVENT (WIFI_EVENT_STA_DISCONNECTED ids)
  = if s_retry_num st <? ESP_MAXIMUM_RETRY then
      ({| wifi_connected := 0; s_retry_num := int (s_retry_num st + 1);
          event_bits := event_bits st |},
       [esp_wifi_connect])
    else
      ({| wifi_connected := 0; s_retry_num := s_retry_num st;
          event_bits := Z.lor (event_bits st) WIFI_FAIL_BIT |},
       [xEventGroupSetBits WIFI_FAIL_BIT; gpio_start_led_pattern_WIFI_FAILED]).
Proof.
  intro Hne. unfold wifi_event_handler. cbn [is_WIFI_EVENT andb].
  replace (WIFI_EVENT_STA_DISCONNECTED ids =? WIFI_EVENT_STA_START ids)
    with false by (symmetry; apply Z.eqb_neq; exact Hne).
  rewrite Z.eqb_refl. reflexivity.
Qed.

Lemma has_bit_set (bits bit : Z) :
  bit <> 0 -> has_bit (Z.lor bits bit) bit = true.
Proof.
  intro H. unfold has_bit. apply negb_true_iff, Z.eqb_neq.
  rewrite Z.land_lor_distr_l, Z.land_diag. intro E.
  apply Z.lor_eq_0_iff in E. destruct E as [_ E]. exact (H E).
Qed.

(** X13.  Whatever events arrive, in whatever order, the retry counter
    stays between 0 and [ESP_MAXIMUM_RETRY]: a disconnection increments it
    only below the maximum, the arrival of the address clears it, nothing
    else writes it.  The [int] never overflows. *)
Theorem handler_retry_bounded (st : wifi_state)
    (events : list (esp_event_base_t * Z)) :
  0 <= s_retry_num st <= ESP_MAXIMUM_RETRY ->
  0 <= s_retry_num (fst (handle_events ids st events)) <= ESP_MAXIMUM_RETRY.
Proof.
  revert st. induction events as [|[event_base event_id] rest IH]; intros st H.
  - exact H.
  - rewrite handle_events_cons. cbn [fst].
    apply IH, handler_retry, H.
Qed.

(** X14.  [n] disconnections in a row, starting with the retry counter
    at [r]: the handler asks for a new connection for the first [3 - r] of
    them and for no other, the counter ends at [min (r + n) 3], the
    variable [wifi_connected] is 0, and [WIFI_FAIL_BIT] is raised
    exactly when more than [3 - r] disconnections arrived. *)
Theorem disconnections_in_a_row (n : nat) :
  forall st : wifi_state,
    WIFI_EVENT_STA_DISCONNECTED ids <> WIFI_EVENT_STA_START ids ->
    0 <= s_retry_num st <= ESP_MAXIMUM_RETRY ->
    s_retry_num (fst (handle_events ids st (disconnections ids n)))
    = Z.min (s_retry_num st + Z.of_nat n) ESP_MAXIMUM_RETRY
    /\ Z.of_nat (List.length
                   (filter is_esp_wifi_connect
                      (snd (handle_events ids st (disconnections ids n)))))
       = Z.min (Z.of_nat n) (ESP_MAXIMUM_RETRY - s_retry_num st)
    /\ has_bit (event_bits (fst (handle_events ids st (disconnections ids n))))
         WIFI_FAIL_BIT
       = has_bit (event_bits st) WIFI_FAIL_BIT
         || (ESP_MAXIMUM_RETRY - s_retry_num st <? Z.of_nat n)
    /\ ((0 < n)%nat ->
        wifi_connected (fst (handle_events ids st (disconnections ids n))) = 0).
Proof.
  unfold ESP_MAXIMUM_RETRY, disconnections.
  induction n as [|n IH]; intros st Hne Hr.
  - cbn [repeat handle_events fst snd filter List.length].
    repeat split; try lia.
    replace (3 - s_retry_num st <? Z.of_nat 0) with false
      by (symmetry; apply Z.ltb_ge; lia).
    rewrite orb_false_r. reflexivity.
  - cbn [repeat]. rewrite handle_events_cons.
    cbn [fst snd]. rewrite disconnected_step by exact Hne.
    unfold ESP_MAXIMUM_RETRY.
    destruct (Z.ltb_spec (s_retry_num st) 3) as [Hlt|Hge]; cbn [fst snd].
    + rewrite int_small by lia.
      specialize (IH {| wifi_connected := 0;
                        s_retry_num := s_retry_num st + 1;
                        event_bits := event_bits st |} Hne).
      cbn [s_retry_num event_bits] in IH.
      destruct IH as [H1 [H2 [H3 H4]]]; [lia|].
      cbn [app filter is_esp_wifi_connect List.length].
      rewrite H1, H3. rewrite !Nat2Z.inj_succ, H2.
      repeat split; try lia.
      * f_equal.
        destruct (Z.ltb_spec (3 - (s_retry_num st + 1)) (Z.of_nat n));
          destruct (Z.ltb_spec (3 - s_retry_num st) (Z.succ (Z.of_nat n)));
          try reflexivity; lia.
      * intros _. destruct n as [|n]; [reflexivity|]. apply H4. lia.
    + specialize (IH {| wifi_connected := 0;
                        s_retry_num := s_retry_num st;
                        event_bits := Z.lor (event_bits st) WIFI_FAIL_BIT |}
                     Hne).
      cbn [s_retry_num event_bits] in IH.
      destruct IH as [H1 [H2 [H3 H4]]]; [lia|].
      cbn [app filter is_esp_wifi_connect].
      rewrite H1, H2, H3.
      rewrite has_bit_set by discriminate.
      repeat split; try lia.
      * replace (3 - s_retry_num st <? Z.of_nat (S n)) with true
          by (symmetry; apply Z.ltb_lt; lia).
        rewrite orb_true_r. reflexivity.
      * intros _. destruct n as [|n]; [reflexivity|]. apply H4. lia.
Qed.

(** X15.  The handler changes the bits of the event group in two cases
    only.  It raises [WIFI_FAIL_BIT] on a disconnection that finds the
    retries used up, asks for no connection then and leaves
    [wifi_connected] at 0; it raises [WIFI_CONNECTED_BIT] when the
    address arrives, with [wifi_connected] at 1 and the retry counter
    cleared.  The event that reports the association sets no bit. *)
Theorem handler_changes_bits (st : wifi_state)
    (event_base : esp_event_base_t) (event_id : Z) :
  event_bits (fst (wifi_event_handler ids st event_base event_id))
    <> event_bits st ->
  (event_base = WIFI_EVENT /\ event_id = WIFI_EVENT_STA_DISCONNECTED ids
   /\ ESP_MAXIMUM_RETRY <= s_retry_num st
   /\ wifi_event_handler ids st event_base event_id
      = ({| wifi_connected := 0; s_retry_num := s_retry_num st;
            event_bits := Z.lor (event_bits st) WIFI_FAIL_BIT |},
         [xEventGroupSetBits WIFI_FAIL_BIT;
          gpio_start_led_pattern_WIFI_FAILED]))
  \/ (event_base = IP_EVENT /\ event_id = IP_EVENT_STA_GOT_IP ids
      /\ wifi_event_handler ids st event_base event_id
         = ({| wifi_connected := 1; s_retry_num := 0;
               event_bits := Z.lor (event_bits st) WIFI_CONNECTED_BIT |},
            [xEventGroupSetBits WIFI_CONNECTED_BIT])).
Proof.
  unfold wifi_event_handler.
  destruct (is_WIFI_EVENT event_base && (event_id =? WIFI_EVENT_STA_START ids));
    [intro H; now destruct H|].
  destruct (is_WIFI_EVENT event_base
            && (event_id =? WIFI_EVENT_STA_DISCONNECTED ids)) eqn:E2.
  { apply andb_prop in E2. destruct E2 as [Eb Ei]. apply Z.eqb_eq in Ei.
    destruct (Z.ltb_spec (s_retry_num st) ESP_MAXIMUM_RETRY) as [Hlt|Hge];
      [intro H; now destruct H|].
    intros _. left. destruct event_base; try discriminate Eb.
    repeat split; assumption. }
  destruct (is_WIFI_EVENT event_base
            && (event_id =? WIFI_EVENT_STA_CONNECTED ids));
    [intro H; now destruct H|].
  destruct (is_IP_EVENT event_base && (event_id =? IP_EVENT_STA_GOT_IP ids))
    eqn:E4; [|intro H; now destruct H].
  apply andb_prop in E4. destruct E4 as [Eb Ei]. apply Z.eqb_eq in Ei.
  intros _. right. destruct event_base; try discriminate Eb.
  repeat split; assumption.
Qed.

End Handler.

(** *** wifi_connect and wifi_disconnect *)

Lemma connect_error_result (st : wifi_state) (calls : list sdk_call) :
  connect_error st calls
  = Some (0, {| wifi_connected := 0; s_retry_num := s_retry_num st;
                event_bits := event_bits st |}, calls ++ teardown).
Proof. reflexivity. Qed.

Lemma wifi_connect_setup (env : sdk_answers) (st : wifi_state) :
  wifi_connected st = 0 ->
  has_credentials env = true ->
  answers_ok env = true ->
  wifi_connect env st = wait_for_bits (waits env) setup.
Proof.
  unfold has_credentials, answers_ok, wifi_connect. intros Hc Hcred Hok.
  rewrite Hc. cbn [Z.eqb negb].
  apply andb_prop in Hcred. destruct Hcred as [Hs Hp].
  apply negb_true_iff in Hs. apply negb_true_iff in Hp.
  rewrite Hs, Hp. cbn [orb].
  repeat (apply andb_prop in Hok; destruct Hok as [Hok ?]).
  repeat match goal with H : (_ =? ESP_OK) = true |- _ => rewrite H; clear H end.
  reflexivity.
Qed.

Lemma wait_for_bits_timed_out (timeouts rest : list wifi_state) :
  forall calls,
    forallb timed_out timeouts = true ->
    wait_for_bits (timeouts ++ rest) calls
    = wait_for_bits rest
        (calls ++ repeat xEventGroupWaitBits (List.length timeouts)).
Proof.
  induction timeouts as [|s timeouts IH]; intros calls H.
  - cbn. rewrite app_nil_r. reflexivity.
  - cbn [forallb] in H. apply andb_prop in H. destruct H as [Hs H].
    unfold timed_out in Hs. apply andb_prop in Hs. destruct Hs as [H1 H2].
    apply negb_true_iff in H1. apply negb_true_iff in H2.
    cbn [app wait_for_bits]. rewrite H1, H2. rewrite IH by exact H.
    rewrite <- app_assoc. reflexivity.
Qed.

Lemma repeat_snoc (A : Type) (x : A) (n : nat) :
  repeat x n ++ [x] = repeat x (S n).
Proof. induction n as [|n IH]; [reflexivity|]. cbn. rewrite IH. reflexivity. Qed.

Lemma wait_for_bits_success (waits : list wifi_state) :
  forall calls st' calls',
    wait_for_bits waits calls = Some (1, st', calls') ->
    In st' waits /\ has_bit (event_bits st') WIFI_CONNECTED_BIT = true
    /\ exists n, calls' = calls ++ repeat xEventGroupWaitBits n.
Proof.
  induction waits as [|s waits IH]; intros calls st' calls' H;
    [discriminate H|].
  cbn [wait_for_bits] in H.
  destruct (has_bit (event_bits s) WIFI_CONNECTED_BIT) eqn:E1.
  { injection H as <- <-. split; [left; reflexivity|]. split; [exact E1|].
    exists 1%nat. reflexivity. }
  destruct (has_bit (event_bits s) WIFI_FAIL_BIT).
  { destruct (wifi_disconnect s). discriminate H. }
  apply IH in H. destruct H as [Hin [Hb [n ->]]].
  split; [right; exact Hin|]. split; [exact Hb|].
  exists (S n). rewrite <- app_assoc. reflexivity.
Qed.

Lemma wifi_connect_error_result (env : sdk_answers) (st : wifi_state) :
  wifi_connected st = 0 ->
  has_credentials env = true ->
  answers_ok env = false ->
  exists n,
    (4 <= n <= 12)%nat
    /\ wifi_connect env st
       = Some (0, {| wifi_connected := 0; s_retry_num := 0; event_bits := 0 |},
               firstn n setup ++ teardown).
Proof.
  unfold has_credentials, answers_ok, wifi_connect. intros Hc Hcred Hok.
  rewrite Hc. cbn [Z.eqb negb].
  apply andb_prop in Hcred. destruct Hcred as [Hs Hp].
  apply negb_true_iff in Hs. apply negb_true_iff in Hp.
  rewrite Hs, Hp. cbn [orb].
  destruct (netif_init_err env =? ESP_OK);
    [|exists 4%nat; split; [lia|reflexivity]].
  destruct (event_loop_create_default_err env =? ESP_OK);
    [|exists 5%nat; split; [lia|reflexivity]].
  destruct (wifi_init_err env =? ESP_OK);
    [|exists 7%nat; split; [lia|reflexivity]].
  destruct (register_any_id_err env =? ESP_OK);
    [|exists 8%nat; split; [lia|reflexivity]].
  destruct (register_got_ip_err env =? ESP_OK);
    [|exists 9%nat; split; [lia|reflexivity]].
  destruct (set_mode_err env =? ESP_OK);
    [|exists 10%nat; split; [lia|reflexivity]].
  destruct (set_config_err env =? ESP_OK);
    [|exists 11%nat; split; [lia|reflexivity]].
  destruct (wifi_start_err env =? ESP_OK);
    [|exists 12%nat; split; [lia|reflexivity]].
  discriminate Hok.
Qed.

Lemma no_teardown_while_waiting (n : nat) :
  no_teardown (setup ++ repeat xEventGroupWaitBits n) = true.
Proof.
  unfold no_teardown. rewrite forallb_app. apply andb_true_intro.
  split; [reflexivity|].
  apply forallb_forall. intros c Hin. apply repeat_spec in Hin. subst c.
  reflexivity.
Qed.


(** X17.  After a set-up without error, [wifi_connect] waits as often
    as the wait times out, without bound: while every wait has timed out
    it has not returned.  The first wait that returns a bit decides:
    [WIFI_CONNECTED_BIT] gives 1, also when [WIFI_FAIL_BIT] is set as
    well, and nothing is torn down; [WIFI_FAIL_BIT] alone gives 0 after
    [wifi_disconnect]. *)
Theorem wifi_connect_waits (env : sdk_answers) (st : wifi_state)
    (timeouts : list wifi_state) :
  wifi_connected st = 0 ->
  has_credentials env = true ->
  answers_ok env = true ->
  forallb timed_out timeouts = true ->
  (waits env = timeouts -> wifi_connect env st = None)
  /\ (forall s rest,
         waits env = timeouts ++ s :: rest ->
         timed_out s = false ->
         wifi_connect env st
         = if has_bit (event_bits s) WIFI_CONNECTED_BIT
           then Some (1, s,
                      setup ++ repeat xEventGroupWaitBits
                                 (S (List.length timeouts)))
           else Some (0, fst (wifi_disconnect s),
                      (setup ++ repeat xEventGroupWaitBits
                                  (S (List.length timeouts)))
                        ++ snd (wifi_disconnect s))).
Proof.
  intros Hc Hcred Hok Ht. rewrite wifi_connect_setup by assumption. split.
  - intros ->. rewrite <- (app_nil_r timeouts).
    rewrite wait_for_bits_timed_out by exact Ht. reflexivity.
  - intros s rest -> Hs.
    rewrite wait_for_bits_timed_out by exact Ht.
    cbn [wait_for_bits]. rewrite <- app_assoc, repeat_snoc.
    unfold timed_out in Hs.
    destruct (has_bit (event_bits s) WIFI_CONNECTED_BIT); [reflexivity|].
    cbn [negb andb] in Hs. apply negb_false_iff in Hs. rewrite Hs.
    destruct (wifi_disconnect s). reflexivity.
Qed.

(** X18.  [wifi_connect] returns 1 in two cases only: [wifi_connected]
    was not 0 at the call, and then nothing is called and nothing changes,
    the error mark 2 counting as connected; or every tested call of the
    set-up answered [ESP_OK] and a wait returned with
    [WIFI_CONNECTED_BIT] set.  No call of [wifi_disconnect] is among the
    calls of a connection that succeeds. *)
Theorem wifi_connect_success (env : sdk_answers) (st st' : wifi_state)
    (calls : list sdk_call) :
  wifi_connect env st = Some (1, st', calls) ->
  (wifi_connected st <> 0 /\ st' = st /\ calls = [])
  \/ (wifi_connected st = 0 /\ has_credentials env = true
      /\ answers_ok env = true /\ In st' (waits env)
      /\ has_bit (event_bits st') WIFI_CONNECTED_BIT = true
      /\ no_teardown calls = true
      /\ exists n, calls = setup ++ repeat xEventGroupWaitBits n).
Proof.
  intro H.
  destruct (Z.eq_dec (wifi_connected st) 0) as [Hc|Hc].
  - right.
    destruct (has_credentials env) eqn:Hcred.
    2:{ unfold wifi_connect, has_credentials in *. rewrite Hc in H.
        cbn [Z.eqb negb] in H.
        destruct (String.length (ssid env) =? 0)%nat;
          [discriminate H|].
        destruct (String.length (password env) =? 0)%nat;
          [discriminate H|discriminate Hcred]. }
    destruct (answers_ok env) eqn:Hok.
    2:{ destruct (wifi_connect_error_result env st Hc Hcred Hok)
          as [n [_ E]].
        rewrite E in H. discriminate H. }
    rewrite wifi_connect_setup in H by assumption.
    apply wait_for_bits_success in H. destruct H as [Hin [Hb [n ->]]].
    repeat split; auto using no_teardown_while_waiting.
    exists n. reflexivity.
  - left. unfold wifi_connect in H.
    replace (wifi_connected st =? 0) with false in H
      by (symmetry; apply Z.eqb_neq; exact Hc).
    cbn [negb] in H. injection H as <- <-. repeat split; auto.
Qed.

(** X19.  The handler and [wifi_connect] together, when the retries
    are used up: the handler raises [WIFI_FAIL_BIT] and leaves
    [wifi_connected] at 0; the wait returns, [wifi_connect] calls
    [wifi_disconnect], which takes the 0 for "already disconnected" and
    returns at once.  [wifi_connect] answers 0 and none of the ten calls
    that undo the set-up is made: the event group, the event loop, the
    driver and the interface stay as the set-up left them. *)
Theorem wifi_connect_retries_used (ids : esp_event_ids) (env : sdk_answers)
    (st s : wifi_state) (timeouts rest : list wifi_state) :
  wifi_connected st = 0 ->
  has_credentials env = true ->
  answers_ok env = true ->
  forallb timed_out timeouts = true ->
  WIFI_EVENT_STA_DISCONNECTED ids <> WIFI_EVENT_STA_START ids ->
  ESP_MAXIMUM_RETRY <= s_retry_num s ->
  has_bit (event_bits s) WIFI_CONNECTED_BIT = false ->
  waits env
  = timeouts
      ++ fst (wifi_event_handler ids s WIFI_EVENT
                (WIFI_EVENT_STA_DISCONNECTED ids)) :: rest ->
  wifi_connect env st
  = Some (0,
          {| wifi_connected := 0; s_retry_num := s_retry_num s;
             event_bits := Z.lor (event_bits s) WIFI_FAIL_BIT |},
          setup ++ repeat xEventGroupWaitBits (S (List.length timeouts)))
  /\ no_teardown
       (setup ++ repeat xEventGroupWaitBits (S (List.length timeouts)))
     = true.
Proof.
  intros Hc Hcred Hok Ht Hne Hr Hb Hw.
  rewrite wifi_connect_setup by assumption. rewrite Hw.
  rewrite wait_for_bits_timed_out by exact Ht.
  rewrite disconnected_step by exact Hne.
  replace (s_retry_num s <? ESP_MAXIMUM_RETRY) with false
    by (symmetry; apply Z.ltb_ge; exact Hr).
  cbn [fst wait_for_bits event_bits].
  assert (Hc' : has_bit (Z.lor (event_bits s) WIFI_FAIL_BIT)
                  WIFI_CONNECTED_BIT = false).
  { unfold has_bit in *. apply negb_false_iff, Z.eqb_eq.
    apply negb_false_iff, Z.eqb_eq in Hb.
    rewrite Z.land_lor_distr_l, Hb. reflexivity. }
  rewrite Hc'. rewrite has_bit_set by discriminate.
  cbn [wifi_disconnect wifi_connected Z.eqb].
  rewrite app_nil_r, <- app_assoc, repeat_snoc. split; [reflexivity|].
  apply no_teardown_while_waiting.
Qed.

(** *** The task that watches the USB voltage *)

Lemma stop_after_four (a b : list bool) :
  forall readCount,
    0 <= readCount <= 3 ->
    exists n, stop_captive_portal_task (a ++ repeat true 4 ++ b) readCount
              = Some n
              /\ (n <= List.length a + 4)%nat.
Proof.
  induction a as [|x a IH]; intros c Hc.
  - assert (E : c = 0 \/ c = 1 \/ c = 2 \/ c = 3) by lia.
    destruct E as [ -> | [ -> | [ -> | -> ] ] ]; cbn; eexists; split; try reflexivity; lia.
  - cbn [app stop_captive_portal_task].
    destruct x.
    + rewrite Z.mod_small by lia.
      destruct (Z.ltb_spec 3 (c + 1)) as [H|H].
      * exists 1%nat. split; [reflexivity|]. cbn [List.length]. lia.
      * destruct (IH (c + 1)) as [n [E Hn]]; [lia|].
        rewrite E. exists (S n). split; [reflexivity|]. cbn [List.length]. lia.
    + cbn [Z.ltb Z.compare].
      destruct (IH 0) as [n [E Hn]]; [lia|].
      rewrite E. exists (S n). split; [reflexivity|]. cbn [List.length]. lia.
Qed.

Lemma stop_only_after_four (low : list bool) :
  forall (k n : nat),
    (k <= 3)%nat ->
    stop_captive_portal_task low (Z.of_nat k) = Some n ->
    (n <= List.length low)%nat
    /\ exists a, repeat true k ++ firstn n low = a ++ repeat true 4.
Proof.
  induction low as [|x low IH]; intros k n Hk H; [discriminate H|].
  cbn [stop_captive_portal_task] in H.
  destruct x.
  - rewrite Z.mod_small in H by lia.
    destruct (Z.ltb_spec 3 (Z.of_nat k + 1)) as [Hlt|Hge].
    + injection H as <-. assert (k = 3)%nat by lia. subst k.
      split; [cbn [List.length]; lia|]. exists []. reflexivity.
    + destruct (stop_captive_portal_task low (Z.of_nat k + 1)) as [n'|] eqn:E;
        [|discriminate H].
      cbn [option_map] in H. injection H as <-.
      replace (Z.of_nat k + 1) with (Z.of_nat (S k)) in E by lia.
      apply IH in E; [|lia]. destruct E as [Hn [a Ha]].
      split; [cbn [List.length]; lia|]. exists a.
      cbn [firstn]. rewrite <- Ha.
      change (true :: firstn n' low) with ([true] ++ firstn n' low).
      rewrite app_assoc, repeat_snoc. reflexivity.
  - cbn [Z.ltb Z.compare] in H.
    destruct (stop_captive_portal_task low 0) as [n'|] eqn:E;
      [|discriminate H].
    cbn [option_map] in H. injection H as <-.
    apply (IH 0%nat) in E; [|lia]. destruct E as [Hn [a Ha]].
    split; [cbn [List.length]; lia|].
    exists (repeat true k ++ false :: a).
    cbn [firstn]. cbn [repeat app] in Ha. rewrite Ha.
    rewrite <- app_assoc. reflexivity.
Qed.

(** X20.  The task restarts the chip only after four readings in a row
    below the threshold: when [esp_restart] is called at reading [n], the
    readings up to [n] end with four low ones.  One reading at or above
    the threshold clears the count. *)
Theorem restart_needs_four_low (low : list bool) (n : nat) :
  stop_captive_portal_task low 0 = Some n ->
  (n <= List.length low)%nat
  /\ exists a, firstn n low = a ++ repeat true 4.
Proof.
  intro H. apply (stop_only_after_four low 0 n) in H; [exact H|lia].
Qed.

(** X21.  Four low readings in a row always end the task: whatever was
    read before and whatever would follow, [esp_restart] is called at the
    fourth of them at the latest.  The [uint8_t] count never wraps
    around. *)
Theorem four_low_restart (a b : list bool) :
  exists n,
    stop_captive_portal_task (a ++ repeat true 4 ++ b) 0 = Some n
    /\ (n <= List.length a + 4)%nat.
Proof. apply stop_after_four. lia. Qed.

(** * The further properties on sample inputs *)

Lemma decode_failure_clears_witness :
  0 = 1 \/ (0 = 0 /\ data_reset = data_reset).
Proof.
  apply (decode_failure_clears historique 0
           (list_ascii_of_string "ADCO 12 3") 0 data_reset).
  reflexivity.
Defined.

Lemma checksum_permutation_witness :
  checksum " " "PAPP" "00750" = checksum " " "PAPP" "00570".
Proof.
  apply checksum_permutation. simpl.
  repeat apply perm_skip. apply perm_swap.
Defined.

Lemma decode_untouched_slots_witness :
  exists data,
    decode historique 0
      (buffer_of historique []
         (map (field_content historique)
            (map (checked historique) unknown_labels)) [])
    = Val (1, data)
    /\ (forall l,
           (forall f, In f (map (checked historique) unknown_labels) ->
                      label_of f = l ->
                      carries_checksum historique f = false) ->
           slot l data = slot l data_reset)
    /\ ((forall f, In f (map (checked historique) unknown_labels) ->
                   carries_checksum historique f = false
                   \/ is_known (label_of f) = false) ->
        data = data_reset).
Proof.
  apply decode_untouched_slots.
  - reflexivity.
  - intros p q _ Hp. destruct p; discriminate Hp.
  - discriminate.
  - reflexivity.
  - reflexivity.
  - vm_compute. discriminate.
  - vm_compute. discriminate.
  - simpl. lia.
Defined.

Lemma decode_last_field_wins_witness :
  exists data,
    decode historique 0
      (buffer_of historique []
         (map (field_content historique)
            (papp_repeated
               ++ checked historique ("PAPP", "00760")%string :: papp_stale))
         [])
    = Val (1, data)
    /\ slot "PAPP" data = Some (stored "PAPP" "00760").
Proof.
  apply (decode_last_field_wins historique 0 [] [] papp_repeated papp_stale
           "PAPP" "00760" (checksum " " "PAPP" "00760")).
  - reflexivity.
  - intros p q _ Hp. destruct p; discriminate Hp.
  - reflexivity.
  - reflexivity.
  - reflexivity.
  - reflexivity.
  - intros f [<-|[]] _. reflexivity.
  - vm_compute. discriminate.
  - vm_compute. discriminate.
  - simpl. lia.
Defined.

Lemma decode_frame_too_long_witness :
  decode historique 0
    ([] ++ START_OF_FRAME historique :: long_body
        ++ END_OF_FRAME historique :: [])
  = Fault.
Proof.
  apply decode_frame_too_long.
  - discriminate.
  - intros p q _ Hp. destruct p; discriminate Hp.
  - apply count_none. reflexivity.
  - apply count_none. reflexivity.
  - vm_compute. discriminate.
  - vm_compute. reflexivity.
Defined.

Lemma decode_frame_alone_witness :
  decode historique 7
    (list_ascii_of_string "xy" ++ START_OF_FRAME historique
       :: field_content historique (checked historique ("PAPP", "00750")%string)
       ++ END_OF_FRAME historique :: list_ascii_of_string "z")
  = decode historique 0
      (START_OF_FRAME historique
         :: field_content historique
              (checked historique ("PAPP", "00750")%string)
         ++ [END_OF_FRAME historique]).
Proof.
  apply decode_frame_alone.
  - discriminate.
  - intros p q _ Hp.
    repeat (destruct p as [|p]; simpl in Hp; try discriminate Hp).
  - apply count_none. reflexivity.
  - apply count_none. reflexivity.
  - vm_compute. discriminate.
Defined.

Lemma decode_too_many_groups_witness :
  decode historique 0
    ([] ++ START_OF_FRAME historique :: crowded_body
        ++ END_OF_FRAME historique :: [])
  = Fault.
Proof.
  apply decode_too_many_groups.
  - reflexivity.
  - intros p q _ Hp. destruct p; discriminate Hp.
  - apply count_none. reflexivity.
  - apply count_none. reflexivity.
  - vm_compute. discriminate.
  - vm_compute. discriminate.
  - left. vm_compute. lia.
Defined.

Lemma decode_too_many_separators_witness :
  decode historique 0
    (buffer_of historique [] [field_content historique space_checksum] [])
  = Fault.
Proof.
  apply (decode_too_many_separators historique 0 [] []
           [field_content historique space_checksum]
           (field_content historique space_checksum)).
  - reflexivity.
  - intros p q _ Hp. destruct p; discriminate Hp.
  - intros c [<-|[]]; unfold group_plain; repeat split;
      apply count_none; reflexivity.
  - vm_compute. discriminate.
  - vm_compute. discriminate.
  - simpl. lia.
  - left. reflexivity.
  - vm_compute. lia.
Defined.

Lemma decode_text_slot_overflow_witness :
  decode historique 0
    (buffer_of historique [] [field_content historique optarif_long] [])
  = Fault.
Proof.
  apply (decode_text_slot_overflow historique 0 [] []
           [field_content historique optarif_long] optarif_long).
  - reflexivity.
  - intros p q _ Hp. destruct p; discriminate Hp.
  - intros c [<-|[]]; unfold group_plain; repeat split;
      apply count_none; reflexivity.
  - vm_compute. discriminate.
  - vm_compute. discriminate.
  - simpl. lia.
  - left. reflexivity.
  - reflexivity.
  - vm_compute. lia.
Defined.

Lemma handler_retry_bounded_witness :
  0 <= s_retry_num (fst (handle_events esp_idf_ids idle busy_morning))
    <= ESP_MAXIMUM_RETRY.
Proof.
  apply handler_retry_bounded. unfold ESP_MAXIMUM_RETRY. simpl. lia.
Defined.

Lemma disconnections_in_a_row_witness :
  s_retry_num (fst (handle_events esp_idf_ids idle
                      (disconnections esp_idf_ids 5)))
  = Z.min (s_retry_num idle + Z.of_nat 5) ESP_MAXIMUM_RETRY
  /\ Z.of_nat (List.length
                 (filter is_esp_wifi_connect
                    (snd (handle_events esp_idf_ids idle
                            (disconnections esp_idf_ids 5)))))
     = Z.min (Z.of_nat 5) (ESP_MAXIMUM_RETRY - s_retry_num idle)
  /\ has_bit (event_bits (fst (handle_events esp_idf_ids idle
                                 (disconnections esp_idf_ids 5))))
       WIFI_FAIL_BIT
     = has_bit (event_bits idle) WIFI_FAIL_BIT
       || (ESP_MAXIMUM_RETRY - s_retry_num idle <? Z.of_nat 5)
  /\ ((0 < 5)%nat ->
      wifi_connected (fst (handle_events esp_idf_ids idle
                             (disconnections esp_idf_ids 5))) = 0).
Proof.
  apply (disconnections_in_a_row esp_idf_ids 5 idle).
  - discriminate.
  - unfold ESP_MAXIMUM_RETRY. simpl. lia.
Defined.

Lemma handler_changes_bits_witness :
  (WIFI_EVENT = WIFI_EVENT /\ 5 = WIFI_EVENT_STA_DISCONNECTED esp_idf_ids
   /\ ESP_MAXIMUM_RETRY <= s_retry_num last_retry
   /\ wifi_event_handler esp_idf_ids last_retry WIFI_EVENT 5
      = ({| wifi_connected := 0; s_retry_num := s_retry_num last_retry;
            event_bits := Z.lor (event_bits last_retry) WIFI_FAIL_BIT |},
         [xEventGroupSetBits WIFI_FAIL_BIT;
          gpio_start_led_pattern_WIFI_FAILED]))
  \/ (WIFI_EVENT = IP_EVENT /\ 5 = IP_EVENT_STA_GOT_IP esp_idf_ids
      /\ wifi_event_handler esp_idf_ids last_retry WIFI_EVENT 5
         = ({| wifi_connected := 1; s_retry_num := 0;
               event_bits := Z.lor (event_bits last_retry)
                               WIFI_CONNECTED_BIT |},
            [xEventGroupSetBits WIFI_CONNECTED_BIT])).
Proof.
  apply handler_changes_bits. vm_compute. discriminate.
Defined.


Lemma wifi_connect_waits_witness :
  (waits (answers 0 [idle; idle; got_ip]) = [idle; idle] ->
   wifi_connect (answers 0 [idle; idle; got_ip]) idle = None)
  /\ (forall s rest,
         waits (answers 0 [idle; idle; got_ip]) = [idle; idle] ++ s :: rest ->
         timed_out s = false ->
         wifi_connect (answers 0 [idle; idle; got_ip]) idle
         = if has_bit (event_bits s) WIFI_CONNECTED_BIT
           then Some (1, s,
                      setup ++ repeat xEventGroupWaitBits
                                 (S (List.length [idle; idle])))
           else Some (0, fst (wifi_disconnect s),
                      (setup ++ repeat xEventGroupWaitBits
                                  (S (List.length [idle; idle])))
                        ++ snd (wifi_disconnect s))).
Proof.
  apply wifi_connect_waits; reflexivity.
Defined.

Lemma wifi_connect_success_witness :
  (wifi_connected idle <> 0 /\ got_ip = idle
   /\ setup ++ repeat xEventGroupWaitBits 2 = [])
  \/ (wifi_connected idle = 0
      /\ has_credentials (answers 0 [idle; got_ip]) = true
      /\ answers_ok (answers 0 [idle; got_ip]) = true
      /\ In got_ip (waits (answers 0 [idle; got_ip]))
      /\ has_bit (event_bits got_ip) WIFI_CONNECTED_BIT = true
      /\ no_teardown (setup ++ repeat xEventGroupWaitBits 2) = true
      /\ exists n,
           setup ++ repeat xEventGroupWaitBits 2
           = setup ++ repeat xEventGroupWaitBits n).
Proof.
  apply (wifi_connect_success (answers 0 [idle; got_ip]) idle got_ip
           (setup ++ repeat xEventGroupWaitBits 2)).
  reflexivity.
Defined.

Lemma wifi_connect_retries_used_witness :
  wifi_connect
    (answers 0
       ([idle]
          ++ fst (wifi_event_handler esp_idf_ids last_retry WIFI_EVENT
                    (WIFI_EVENT_STA_DISCONNECTED esp_idf_ids)) :: []))
    idle
  = Some (0,
          {| wifi_connected := 0; s_retry_num := s_retry_num last_retry;
             event_bits := Z.lor (event_bits last_retry) WIFI_FAIL_BIT |},
          setup ++ repeat xEventGroupWaitBits (S (List.length [idle])))
  /\ no_teardown
       (setup ++ repeat xEventGroupWaitBits (S (List.length [idle])))
     = true.
Proof.
  apply (wifi_connect_retries_used esp_idf_ids
           (answers 0
              ([idle]
                 ++ fst (wifi_event_handler esp_idf_ids last_retry WIFI_EVENT
                           (WIFI_EVENT_STA_DISCONNECTED esp_idf_ids)) :: []))
           idle last_retry [idle] []).
  - reflexivity.
  - reflexivity.
  - reflexivity.
  - reflexivity.
  - discriminate.
  - unfold ESP_MAXIMUM_RETRY. simpl. lia.
  - reflexivity.
  - reflexivity.
Defined.

Lemma restart_needs_four_low_witness :
  (6 <= List.length [true; false; true; true; true; true; false])%nat
  /\ exists a,
       firstn 6 [true; false; true; true; true; true; false]
       = a ++ repeat true 4.
Proof.
  apply restart_needs_four_low. reflexivity.
Defined.
